(** * FastParse: a shallow embedding of the zero-copy scanner

    The FastParse header (the second part of [errorhandler.h]) works on raw
    [const char*] pointers into a caller-owned buffer.  Here an address is an integer, the memory is a list of bytes
    indexed by address, and every function of the header that touches the
    scanner takes the scanner record and returns the updated one.
    [size_t] and [uint64_t] values are integers with the wrap-around modulo
    2^64 written where the C code computes them. *)

From Stdlib Require Import ZArith Bool Ascii String List Lia.
Import ListNotations.
Open Scope Z_scope.

(* ====================================================================== *)
(** ** Bytes and memory *)

Definition byte_val (c : ascii) : Z := Z.of_N (N_of_ascii c).

Definition NUL : ascii := "000"%char.
Definition TAB : ascii := "009"%char.
Definition LF : ascii := "010"%char.
Definition CR : ascii := "013"%char.
Definition SPACE : ascii := " "%char.
Definition QUOTE : ascii := "034"%char.
Definition BACKSLASH : ascii := "\"%char.
Definition COMMA : ascii := ","%char.

(** [*p]: the byte at address [p]; an address outside the modelled memory
    reads as NUL. *)
Definition load (mem : list ascii) (p : Z) : ascii :=
  if p <? 0 then NUL else nth (Z.to_nat p) mem NUL.

(** The bytes [l] are laid out in memory from address [p] on. *)
Fixpoint bytes_at (mem : list ascii) (p : Z) (l : list ascii) : Prop :=
  match l with
  | [] => True
  | c :: t => load mem p = c /\ bytes_at mem (p + 1) t
  end.

Definition size_wrap (x : Z) : Z := x mod 2 ^ 64.
Definition SIZE_MAX : Z := 2 ^ 64 - 1.

(** [c == ' ' || c == '\t' || c == '\n' || c == '\r'] *)
Definition is_ws (c : ascii) : bool :=
  Ascii.eqb c SPACE || Ascii.eqb c TAB || Ascii.eqb c LF || Ascii.eqb c CR.

(** [isdigit] of <ctype.h> in the "C" locale. *)
Definition isdigit (c : ascii) : bool :=
  (48 <=? byte_val c) && (byte_val c <=? 57).

(* ====================================================================== *)
(** ** Core types *)

Record fp_view_t := mk_view { data : Z; len : Z }.

Inductive fp_error_t :=
| FP_OK
| FP_ERROR_EOF
| FP_ERROR_INVALID_NUMBER
| FP_ERROR_OVERFLOW
| FP_ERROR_INVALID_ESCAPE
| FP_ERROR_UNTERMINATED_STRING
| FP_ERROR_CUSTOM.

Record fp_parser_t := mk_parser {
  start : Z;
  current : Z;
  end_ : Z;
  line : Z;
  column : Z;
  error_code : fp_error_t;
  error_msg : string
}.

(** The null pointer. *)
Definition NULL : Z := 0.

(* ====================================================================== *)
(** ** SSE2 intrinsics on 16 byte lanes *)

Module SSE2.

Definition m128i := list Z.

Definition lane_addrs (p : Z) : list Z := map (fun i => p + Z.of_nat i) (seq 0 16).

Definition _mm_loadu_si128 (mem : list ascii) (p : Z) : m128i :=
  map (fun a => byte_val (load mem a)) (lane_addrs p).

Definition _mm_set1_epi8 (c : ascii) : m128i := repeat (byte_val c) 16.

Fixpoint lanewise (f : Z -> Z -> Z) (a b : m128i) : m128i :=
  match a, b with
  | x :: a', y :: b' => f x y :: lanewise f a' b'
  | _, _ => []
  end.

Definition _mm_cmpeq_epi8 : m128i -> m128i -> m128i :=
  lanewise (fun x y => if x =? y then 255 else 0).

Definition _mm_or_si128 : m128i -> m128i -> m128i := lanewise Z.lor.

(** Bit [i] of the mask is the top bit of lane [i]. *)
Fixpoint _mm_movemask_epi8 (v : m128i) : Z :=
  match v with
  | [] => 0
  | x :: t => Z.b2z (Z.testbit x 7) + 2 * _mm_movemask_epi8 t
  end.

End SSE2.
Import SSE2.

(* ====================================================================== *)
(** ** The header's functions, over a fixed memory *)

Section FastParse.

Variable mem : list ascii.

(** [FASTPARSE_SIMD_ENABLED], set when the compiler defines [__SSE2__]. *)
Variable FASTPARSE_SIMD_ENABLED : bool.

(** *** Whitespace skipping *)

(** [while (p < end && is_ws( *p )) p++;] returning the final pointer and
    the addresses it dereferenced. *)
Fixpoint scalar_skip (fuel : nat) (p e : Z) : Z * list Z :=
  match fuel with
  | O => (p, [])
  | S f =>
      if p <? e then
        if is_ws (load mem p) then
          let '(q, t) := scalar_skip f (p + 1) e in (q, p :: t)
        else (p, [p])
      else (p, [])
  end.

Definition whitespace_mask (p : Z) : Z :=
  let chunk := _mm_loadu_si128 mem p in
  let spaces := _mm_cmpeq_epi8 chunk (_mm_set1_epi8 SPACE) in
  let tabs := _mm_cmpeq_epi8 chunk (_mm_set1_epi8 TAB) in
  let newlines := _mm_cmpeq_epi8 chunk (_mm_set1_epi8 LF) in
  let returns := _mm_cmpeq_epi8 chunk (_mm_set1_epi8 CR) in
  let whitespace :=
    _mm_or_si128 (_mm_or_si128 spaces tabs) (_mm_or_si128 newlines returns) in
  _mm_movemask_epi8 whitespace.

(** The 16-byte loop of [fp_skip_whitespace_simd]. *)
Fixpoint simd_chunks (fuel : nat) (p e : Z) : Z * list Z :=
  match fuel with
  | O => (p, [])
  | S f =>
      if p + 16 <=? e then
        if whitespace_mask p =? 65535 then
          let '(q, t) := simd_chunks f (p + 16) e in (q, lane_addrs p ++ t)
        else (p, lane_addrs p)
      else (p, [])
  end.

Definition fp_skip_whitespace_simd_reads (str e : Z) : Z * list Z :=
  let '(p, t1) := simd_chunks (Z.to_nat (e - str)) str e in
  let '(q, t2) := scalar_skip (Z.to_nat (e - p)) p e in
  (q, t1 ++ t2).

Definition fp_skip_whitespace_scalar_reads (str e : Z) : Z * list Z :=
  scalar_skip (Z.to_nat (e - str)) str e.

Definition fp_skip_whitespace_simd (str e : Z) : Z :=
  fst (fp_skip_whitespace_simd_reads str e).

Definition fp_skip_whitespace_scalar (str e : Z) : Z :=
  fst (fp_skip_whitespace_scalar_reads str e).

Definition fp_skip_whitespace (str e : Z) : Z :=
  if FASTPARSE_SIMD_ENABLED then fp_skip_whitespace_simd str e
  else fp_skip_whitespace_scalar str e.

(** *** Scanner state *)

Definition fp_init (input : Z) (n : Z) : fp_parser_t :=
  mk_parser input input (input + n) 1 1 FP_OK EmptyString.

Definition fp_at_end (p : fp_parser_t) : bool := end_ p <=? current p.

Definition fp_remaining (p : fp_parser_t) : Z := size_wrap (end_ p - current p).

Definition fp_peek (p : fp_parser_t) : ascii :=
  if fp_at_end p then NUL else load mem (current p).

(** One step of cursor bookkeeping: [line++, column = 1] on a newline,
    [column++] otherwise, then [current++]. *)
Definition step_over (p : fp_parser_t) (c : ascii) : fp_parser_t :=
  if Ascii.eqb c LF
  then mk_parser (start p) (current p + 1) (end_ p) (size_wrap (line p + 1)) 1
                 (error_code p) (error_msg p)
  else mk_parser (start p) (current p + 1) (end_ p) (line p) (size_wrap (column p + 1))
                 (error_code p) (error_msg p).

Definition fp_advance (p : fp_parser_t) : ascii * fp_parser_t :=
  if fp_at_end p then (NUL, p)
  else let c := load mem (current p) in (c, step_over p c).

(** *** Error handling *)

(** [strncpy] into the 256-byte message buffer keeps at most 255 bytes. *)
Definition fp_set_error (p : fp_parser_t) (code : fp_error_t) (msg : string) : fp_parser_t :=
  mk_parser (start p) (current p) (end_ p) (line p) (column p) code (substring 0 255 msg).

Definition fp_has_error (p : fp_parser_t) : bool :=
  match error_code p with FP_OK => false | _ => true end.

(** *** Whitespace and delimiters *)

Fixpoint track_to (fuel : nat) (p : fp_parser_t) (new_pos : Z) : fp_parser_t :=
  match fuel with
  | O => p
  | S f =>
      if current p <? new_pos
      then track_to f (step_over p (load mem (current p))) new_pos
      else p
  end.

Definition fp_skip_ws (p : fp_parser_t) : fp_parser_t :=
  let new_pos := fp_skip_whitespace (current p) (end_ p) in
  track_to (Z.to_nat (new_pos - current p)) p new_pos.

Definition fp_match_char (p : fp_parser_t) (expected : ascii) : bool * fp_parser_t :=
  if Ascii.eqb (fp_peek p) expected then (true, snd (fp_advance p))
  else (false, p).

(** [memcmp(a, b, n)]: the difference of the first pair of bytes that
    differ, zero when the [n] bytes agree (also when [n] is zero). *)
Fixpoint memcmp_bytes (n : nat) (a b : Z) : Z :=
  match n with
  | O => 0
  | S k =>
      let x := byte_val (load mem a) in
      let y := byte_val (load mem b) in
      if x =? y then memcmp_bytes k (a + 1) (b + 1) else x - y
  end.

Definition memcmp (a b : Z) (n : Z) : Z := memcmp_bytes (Z.to_nat n) a b.

Definition fp_match_str (p : fp_parser_t) (expected : fp_view_t) : bool * fp_parser_t :=
  if (len expected <=? fp_remaining p)
     && (memcmp (current p) (data expected) (len expected) =? 0)
  then (true,
        mk_parser (start p) (current p + len expected) (end_ p) (line p)
                  (size_wrap (column p + len expected)) (error_code p) (error_msg p))
  else (false, p).

(** *** String views *)

Definition FP_VIEW_EMPTY : fp_view_t := mk_view NULL 0.

(** The arguments are [size_t] values; [start + len] is computed in
    [size_t], hence modulo 2^64. *)
Definition fp_view_substr (view : fp_view_t) (offset length : Z) : fp_view_t :=
  if len view <=? offset then FP_VIEW_EMPTY
  else
    let length :=
      if len view <? size_wrap (offset + length) then size_wrap (len view - offset)
      else length in
    mk_view (data view + offset) length.

Definition fp_view_equals (a b : fp_view_t) : bool :=
  (len a =? len b) && (memcmp (data a) (data b) (len a) =? 0).

Definition fp_view_starts_with (view prefix : fp_view_t) : bool :=
  (len prefix <=? len view) && (memcmp (data view) (data prefix) (len prefix) =? 0).

Definition fp_view_compare (a b : fp_view_t) : Z :=
  let min_len := if len a <? len b then len a else len b in
  let result := memcmp (data a) (data b) min_len in
  if result =? 0 then
    if len a <? len b then -1 else if len b <? len a then 1 else 0
  else result.

(** *** Number parsing *)

Definition INT64_MAX : Z := 2 ^ 63 - 1.
Definition INT64_MIN : Z := - 2 ^ 63.

(** Conversion of an integer to [int64_t], two's complement. *)
Definition to_int64 (x : Z) : Z := (x + 2 ^ 63) mod 2 ^ 64 - 2 ^ 63.

(** The digit loop of [fp_parse_int64]: [None] is the [return false] of
    the overflow check, [Some value] the normal exit of the loop. *)
Fixpoint int64_digits (fuel : nat) (p : fp_parser_t) (value max_val : Z)
  : option Z * fp_parser_t :=
  match fuel with
  | O => (Some value, p)
  | S f =>
      if negb (fp_at_end p) && isdigit (fp_peek p) then
        let digit := size_wrap (byte_val (fp_peek p) - 48) in
        if (max_val - digit) / 10 <? value then
          (None, fp_set_error p FP_ERROR_OVERFLOW "Integer overflow")
        else
          int64_digits f (snd (fp_advance p)) (size_wrap (value * 10 + digit)) max_val
      else (Some value, p)
  end.

(** [Some n]: the function returned true and wrote [n] to [*result];
    [None]: it returned false and wrote nothing. *)
Definition fp_parse_int64 (p : fp_parser_t) : option Z * fp_parser_t :=
  let p := fp_skip_ws p in
  if fp_at_end p then (None, fp_set_error p FP_ERROR_EOF "Expected number")
  else
    let '(negative, p) :=
      if Ascii.eqb (fp_peek p) "-" then (true, snd (fp_advance p))
      else if Ascii.eqb (fp_peek p) "+" then (false, snd (fp_advance p))
      else (false, p) in
    if negb (isdigit (fp_peek p)) then
      (None, fp_set_error p FP_ERROR_INVALID_NUMBER "Expected digit")
    else
      let max_val := if negative then INT64_MAX + 1 else INT64_MAX in
      match int64_digits (Z.to_nat (end_ p - current p)) p 0 max_val with
      | (None, p) => (None, p)
      | (Some value, p) =>
          (Some (if negative then to_int64 (- to_int64 value) else to_int64 value), p)
      end.

(** The C string that starts at address [p]: the bytes up to the first NUL. *)
Fixpoint c_string (l : list ascii) : list ascii :=
  match l with
  | [] => []
  | c :: t => if Ascii.eqb c NUL then [] else c :: c_string t
  end.

Definition c_string_at (p : Z) : list ascii :=
  if p <? 0 then [] else c_string (skipn (Z.to_nat p) mem).

(** [strtod] belongs to the C library: [strtod_consumed s] is
    [end_ptr - start] when [strtod] is run on the C string [s].  The
    parsed [double] itself is not modelled. *)
Variable strtod_consumed : list ascii -> Z.

Definition fp_parse_double (p : fp_parser_t) : bool * fp_parser_t :=
  let p := fp_skip_ws p in
  let consumed := strtod_consumed (c_string_at (current p)) in
  if consumed =? 0 then
    (false, fp_set_error p FP_ERROR_INVALID_NUMBER "Expected number")
  else
    (true,
     mk_parser (start p) (current p + consumed) (end_ p) (line p)
               (size_wrap (column p + consumed)) (error_code p) (error_msg p)).

(** *** Quoted strings *)

(** The scanning loop of [fp_parse_quoted_string]. *)
Fixpoint quoted_loop (fuel : nat) (p : fp_parser_t) : fp_parser_t :=
  match fuel with
  | O => p
  | S f =>
      if negb (fp_at_end p) && negb (Ascii.eqb (fp_peek p) QUOTE) then
        if Ascii.eqb (fp_peek p) BACKSLASH then
          let p := snd (fp_advance p) in
          if fp_at_end p then p
          else quoted_loop f (snd (fp_advance p))
        else quoted_loop f (snd (fp_advance p))
      else p
  end.

Definition fp_parse_quoted_string (p : fp_parser_t) : option fp_view_t * fp_parser_t :=
  let p := fp_skip_ws p in
  let '(opened, p) := fp_match_char p QUOTE in
  if negb opened then
    (None, fp_set_error p FP_ERROR_UNTERMINATED_STRING "Expected opening quote")
  else
    let first := current p in
    let p := quoted_loop (Z.to_nat (end_ p - current p)) p in
    let '(closed, p) := fp_match_char p QUOTE in
    if negb closed then
      (None, fp_set_error p FP_ERROR_UNTERMINATED_STRING "Expected closing quote")
    else
      (Some (mk_view first (size_wrap (current p - first - 1))), p).

(** *** CSV *)

Fixpoint bare_loop (fuel : nat) (p : fp_parser_t) : fp_parser_t :=
  match fuel with
  | O => p
  | S f =>
      if negb (fp_at_end p) && negb (Ascii.eqb (fp_peek p) COMMA)
         && negb (Ascii.eqb (fp_peek p) LF) && negb (Ascii.eqb (fp_peek p) CR)
      then bare_loop f (snd (fp_advance p))
      else p
  end.

(** [while (end > start && (end[-1] == ' ' || end[-1] == '\t')) end--;] *)
Fixpoint trim_end (fuel : nat) (first e : Z) : Z :=
  match fuel with
  | O => e
  | S f =>
      if (first <? e)
         && (Ascii.eqb (load mem (e - 1)) SPACE || Ascii.eqb (load mem (e - 1)) TAB)
      then trim_end f first (e - 1)
      else e
  end.

Definition fp_parse_csv_field (p : fp_parser_t) : option fp_view_t * fp_parser_t :=
  let p := fp_skip_ws p in
  if fp_at_end p then (None, p)
  else if Ascii.eqb (fp_peek p) QUOTE then fp_parse_quoted_string p
  else
    let first := current p in
    let p := bare_loop (Z.to_nat (end_ p - current p)) p in
    let e := trim_end (Z.to_nat (current p - first)) first (current p) in
    (Some (mk_view first (size_wrap (e - first))), p).

Definition FP_CSV_MAX_FIELDS : Z := 64.

(** The field loop of [fp_parse_csv_line]; [fields] holds [fields[0]] to
    [fields[count - 1]] in order. *)
Fixpoint csv_fields (fuel : nat) (p : fp_parser_t) (count : Z) (fields : list fp_view_t)
  : Z * list fp_view_t * fp_parser_t :=
  match fuel with
  | O => (count, fields, p)
  | S f =>
      if negb (fp_at_end p) && (count <? FP_CSV_MAX_FIELDS) then
        match fp_parse_csv_field p with
        | (None, p) => (count, fields, p)
        | (Some field, p) =>
            let fields := fields ++ [field] in
            let count := count + 1 in
            let '(comma, p) := fp_match_char p COMMA in
            if negb comma then (count, fields, p)
            else csv_fields f p count fields
        end
      else (count, fields, p)
  end.

Definition fp_parse_csv_line (p : fp_parser_t) : Z * list fp_view_t * fp_parser_t :=
  let '(count, fields, p) := csv_fields (Z.to_nat FP_CSV_MAX_FIELDS) p 0 [] in
  let '(cr, p) := fp_match_char p CR in
  let p := if cr then snd (fp_match_char p LF) else snd (fp_match_char p LF) in
  (count, fields, p).

(** The caller's loop of the usage example,
    [while (!fp_at_end(&parser)) fp_parse_csv_line(&parser, fields);],
    collecting the field count of every call. *)
Fixpoint csv_rows (fuel : nat) (p : fp_parser_t) : list Z :=
  match fuel with
  | O => []
  | S f =>
      if fp_at_end p then []
      else let '(count, _, p) := fp_parse_csv_line p in count :: csv_rows f p
  end.

(** *** Chains *)

(** [parser] is the state of the scanner that [chain.parser] points to. *)
Record fp_chain_t := mk_chain {
  parser : fp_parser_t;
  success : bool;
  result : fp_view_t
}.

Definition fp_chain (p : fp_parser_t) : fp_chain_t := mk_chain p true FP_VIEW_EMPTY.

Definition fp_then_skip_ws (chain : fp_chain_t) : fp_chain_t :=
  if success chain
  then mk_chain (fp_skip_ws (parser chain)) (success chain) (result chain)
  else chain.

Definition fp_then_expect_char (chain : fp_chain_t) (expected : ascii) : fp_chain_t :=
  if success chain then
    let '(ok, p) := fp_match_char (parser chain) expected in
    if negb ok then
      let msg := ("Expected '" ++ String expected "'")%string in
      mk_chain (fp_set_error p FP_ERROR_CUSTOM msg) ok (result chain)
    else mk_chain p ok (result chain)
  else chain.

Definition fp_then_parse_string (chain : fp_chain_t) : fp_chain_t :=
  if success chain then
    match fp_parse_quoted_string (parser chain) with
    | (Some v, p) => mk_chain p true v
    | (None, p) => mk_chain p false (result chain)
    end
  else chain.

End FastParse.

(* ====================================================================== *)
(** ** Notions the properties are stated with *)

(** The end of the maximal whitespace run that starts at [p] and stays
    below [e]. *)
Definition ws_run (mem : list ascii) (p e q : Z) : Prop :=
  p <= q <= e /\
  (forall a, p <= a < q -> is_ws (load mem a) = true) /\
  (q = e \/ is_ws (load mem q) = false).

(** The lane of the [whitespace] vector computed from the byte [c]. *)
Definition ws_lane (c : ascii) : Z :=
  let eq k := if byte_val c =? byte_val k then 255 else 0 in
  Z.lor (Z.lor (eq SPACE) (eq TAB)) (Z.lor (eq LF) (eq CR)).

(** The decimal text form of an integer, as [printf("%lld")] writes it:
    an optional minus sign and the digits, most significant first, with no
    leading zero. *)
Definition digit_char (d : Z) : ascii := ascii_of_N (Z.to_N (48 + d)).

Fixpoint digits_of (fuel : nat) (n : Z) : list ascii :=
  match fuel with
  | O => []
  | S f =>
      if n <? 10 then [digit_char n]
      else digits_of f (n / 10) ++ [digit_char (n mod 10)]
  end.

(** Twenty digits are enough for every 64-bit magnitude. *)
Definition decimal_digits (n : Z) : list ascii := digits_of 20 n.

Definition decimal_text (n : Z) : list ascii :=
  if n <? 0 then "-"%char :: decimal_digits (- n) else decimal_digits n.

(** The number a digit string denotes, on top of the accumulator [v]. *)
Definition digits_value (v : Z) (ds : list ascii) : Z :=
  fold_left (fun v c => v * 10 + (byte_val c - 48)) ds v.

(** The bytes stored at the addresses [lo], ..., [hi - 1]. *)
Fixpoint bytes_from (mem : list ascii) (n : nat) (lo : Z) : list ascii :=
  match n with
  | O => []
  | S k => load mem lo :: bytes_from mem k (lo + 1)
  end.

Definition mem_range (mem : list ascii) (lo hi : Z) : list ascii :=
  bytes_from mem (Z.to_nat (hi - lo)) lo.

(** The index of the first quote of [l] that is not escaped: a backslash
    escapes the byte after it, whatever that byte is. *)
Fixpoint closing_quote (l : list ascii) : option nat :=
  match l with
  | [] => None
  | c :: t =>
      if Ascii.eqb c QUOTE then Some O
      else if Ascii.eqb c BACKSLASH then
        match t with
        | [] => None
        | _ :: t' => option_map (fun k => S (S k)) (closing_quote t')
        end
      else option_map S (closing_quote t)
  end.

(** The scanner invariant of the data model, and what a parse operation
    may do to the cursor: keep the bounds, and move [current] forward
    without passing [end]. *)
Definition cursor_ok (p : fp_parser_t) : Prop :=
  start p <= current p <= end_ p.

Definition moves_forward (p p' : fp_parser_t) : Prop :=
  start p' = start p /\ end_ p' = end_ p /\ current p <= current p' <= end_ p.

(** A model of what [strtod] consumes in the "C" locale on decimal input:
    leading [isspace] bytes, an optional sign, digits with an optional
    fraction (at least one digit in all), and an optional exponent; nothing
    when there is no digit.  Hexadecimal, infinity and NaN forms are left
    out. *)
Definition isspace (c : ascii) : bool :=
  Ascii.eqb c SPACE || ((9 <=? byte_val c) && (byte_val c <=? 13)).

Fixpoint span (f : ascii -> bool) (l : list ascii) : Z * list ascii :=
  match l with
  | c :: t => if f c then let '(n, r) := span f t in (n + 1, r) else (0, l)
  | [] => (0, [])
  end.

Definition optional_sign (l : list ascii) : Z * list ascii :=
  match l with
  | c :: t => if Ascii.eqb c "+" || Ascii.eqb c "-" then (1, t) else (0, l)
  | [] => (0, [])
  end.

Definition strtod_decimal (s : list ascii) : Z :=
  let '(ws, s) := span isspace s in
  let '(sg, s) := optional_sign s in
  let '(int_digits, s) := span isdigit s in
  let '(frac, s) :=
    match s with
    | c :: t =>
        if Ascii.eqb c "." then
          let '(n, r) := span isdigit t in
          if (int_digits =? 0) && (n =? 0) then (0, s) else (1 + n, r)
        else (0, s)
    | [] => (0, [])
    end in
  let exponent :=
    match s with
    | c :: t =>
        if Ascii.eqb c "e" || Ascii.eqb c "E" then
          let '(esg, t) := optional_sign t in
          let '(n, _) := span isdigit t in
          if n =? 0 then 0 else 1 + esg + n
        else 0
    | [] => 0
    end in
  if int_digits + frac =? 0 then 0 else ws + sg + int_digits + frac + exponent.

(** The reference of the CSV property: the input split on the newlines that
    lie outside quoted fields (inside quotes a backslash escapes the next
    byte, as in the scanner); a last line without terminator counts when it
    is not empty. *)
Fixpoint reference_rows (in_quote escaped : bool) (row : list ascii) (l : list ascii)
  : list (list ascii) :=
  match l with
  | [] => match row with [] => [] | _ => [rev row] end
  | c :: t =>
      if escaped then reference_rows in_quote false (c :: row) t
      else if in_quote && Ascii.eqb c BACKSLASH then reference_rows in_quote true (c :: row) t
      else if Ascii.eqb c QUOTE then reference_rows (negb in_quote) false (c :: row) t
      else if negb in_quote && Ascii.eqb c LF then rev row :: reference_rows false false [] t
      else reference_rows in_quote false (c :: row) t
  end.

Definition reference_row_count (input : list ascii) : Z :=
  Z.of_nat (length (reference_rows false false [] input)).

(** The bytes a view spans. *)
Definition view_bytes (mem : list ascii) (v : fp_view_t) : list ascii :=
  bytes_from mem (Z.to_nat (len v)) (data v).

(** The sign of the lexicographic comparison of two byte strings, a proper
    prefix being smaller. *)
Fixpoint lex_sgn (l1 l2 : list ascii) : Z :=
  match l1, l2 with
  | [], [] => 0
  | [], _ :: _ => -1
  | _ :: _, [] => 1
  | x :: t1, y :: t2 =>
      if byte_val x =? byte_val y then lex_sgn t1 t2
      else Z.sgn (byte_val x - byte_val y)
  end.

(** [n] calls of [fp_advance] in a row. *)
Fixpoint advance_by (mem : list ascii) (n : nat) (p : fp_parser_t) : fp_parser_t :=
  match n with
  | O => p
  | S k => advance_by mem k (snd (fp_advance mem p))
  end.

(** The error slot of [p'] is the one of [p]. *)
Definition same_error (p p' : fp_parser_t) : Prop :=
  error_code p' = error_code p /\ error_msg p' = error_msg p.

(** The bytes that end a bare CSV field, and the blanks trimmed from its
    end. *)
Definition is_delim (c : ascii) : bool :=
  Ascii.eqb c COMMA || Ascii.eqb c LF || Ascii.eqb c CR.

Definition is_blank (c : ascii) : bool :=
  Ascii.eqb c SPACE || Ascii.eqb c TAB.

(** A view that lies inside the buffer of the scanner [p]. *)
Definition view_in_buffer (p : fp_parser_t) (v : fp_view_t) : Prop :=
  0 <= len v /\ start p <= data v /\ data v + len v <= end_ p.

(** [strlen] and the scanner of a C string, [fp_init_cstr]. *)
Definition strlen (mem : list ascii) (s : Z) : Z :=
  Z.of_nat (length (c_string_at mem s)).

Definition fp_init_cstr (mem : list ascii) (input : Z) : fp_parser_t :=
  fp_init input (strlen mem input).

(* ---------------------------------------------------------------------- *)
(** *** JSON structural skipping *)

Section Json.

Variable mem : list ascii.
Variable FASTPARSE_SIMD_ENABLED : bool.
Variable strtod_consumed : list ascii -> Z.

(** The addresses of the string literals behind [FP_VIEW("true")],
    [FP_VIEW("false")] and [FP_VIEW("null")]. *)
Variable true_literal false_literal null_literal : Z.

Definition is_some {A : Type} (o : option A) : bool :=
  match o with Some _ => true | None => false end.

Definition fp_parse_json_string (p : fp_parser_t) : option fp_view_t * fp_parser_t :=
  fp_parse_quoted_string mem FASTPARSE_SIMD_ENABLED p.

Definition fp_parse_json_number (p : fp_parser_t) : bool * fp_parser_t :=
  fp_parse_double mem FASTPARSE_SIMD_ENABLED strtod_consumed p.

Definition skip_ws (p : fp_parser_t) : fp_parser_t :=
  fp_skip_ws mem FASTPARSE_SIMD_ENABLED p.

(** The body of [fp_skip_json_object]; [members] runs the [do ... while]
    loop over the members. *)
Definition skip_object_with (members : fp_parser_t -> option (bool * fp_parser_t))
           (p : fp_parser_t) : option (bool * fp_parser_t) :=
  let '(opened, p) := fp_match_char mem p "{" in
  if negb opened then Some (false, p)
  else
    let p := skip_ws p in
    let '(closed, p) := fp_match_char mem p "}" in
    if closed then Some (true, p)
    else members p.

(** The body of [fp_skip_json_array]. *)
Definition skip_array_with (elements : fp_parser_t -> option (bool * fp_parser_t))
           (p : fp_parser_t) : option (bool * fp_parser_t) :=
  let '(opened, p) := fp_match_char mem p "[" in
  if negb opened then Some (false, p)
  else
    let p := skip_ws p in
    let '(closed, p) := fp_match_char mem p "]" in
    if closed then Some (true, p)
    else elements p.

(** [fp_skip_json_value] and the two loops it reaches through
    [fp_skip_json_object] and [fp_skip_json_array].  The C functions recurse
    without a bound; here every call takes one unit of fuel and [None] means
    that the fuel ran out. *)
Fixpoint fp_skip_json_value (fuel : nat) (p : fp_parser_t) : option (bool * fp_parser_t) :=
  match fuel with
  | O => None
  | S f =>
      let p := skip_ws p in
      let c := fp_peek mem p in
      if Ascii.eqb c QUOTE then
        let '(str, p) := fp_parse_json_string p in Some (is_some str, p)
      else if Ascii.eqb c "{" then skip_object_with (json_members f) p
      else if Ascii.eqb c "[" then skip_array_with (json_elements f) p
      else if Ascii.eqb c "t" then Some (fp_match_str mem p (mk_view true_literal 4))
      else if Ascii.eqb c "f" then Some (fp_match_str mem p (mk_view false_literal 5))
      else if Ascii.eqb c "n" then Some (fp_match_str mem p (mk_view null_literal 4))
      else if Ascii.eqb c "-" || isdigit c then Some (fp_parse_json_number p)
      else Some (false, p)
  end

with json_members (fuel : nat) (p : fp_parser_t) : option (bool * fp_parser_t) :=
  match fuel with
  | O => None
  | S f =>
      let p := skip_ws p in
      let '(key, p) := fp_parse_json_string p in
      if negb (is_some key) then Some (false, p)
      else
        let p := skip_ws p in
        let '(colon, p) := fp_match_char mem p ":" in
        if negb colon then Some (false, p)
        else
          let p := skip_ws p in
          match fp_skip_json_value f p with
          | None => None
          | Some (false, p) => Some (false, p)
          | Some (true, p) =>
              let p := skip_ws p in
              let '(comma, p) := fp_match_char mem p COMMA in
              if comma then json_members f p
              else Some (fp_match_char mem p "}")
          end
  end

with json_elements (fuel : nat) (p : fp_parser_t) : option (bool * fp_parser_t) :=
  match fuel with
  | O => None
  | S f =>
      let p := skip_ws p in
      match fp_skip_json_value f p with
      | None => None
      | Some (false, p) => Some (false, p)
      | Some (true, p) =>
          let p := skip_ws p in
          let '(comma, p) := fp_match_char mem p COMMA in
          if comma then json_elements f p
          else Some (fp_match_char mem p "]")
      end
  end.

Definition fp_skip_json_object (fuel : nat) (p : fp_parser_t) : option (bool * fp_parser_t) :=
  skip_object_with (json_members fuel) p.

Definition fp_skip_json_array (fuel : nat) (p : fp_parser_t) : option (bool * fp_parser_t) :=
  skip_array_with (json_elements fuel) p.

End Json.

(** What a structural skip may do to the scanner: [quiet] steps keep the
    bounds and the error slot; a whole skip keeps the bounds, and touches
    the error slot only when it fails inside a string or a number. *)
Definition quiet (p p' : fp_parser_t) : Prop :=
  moves_forward p p' /\ same_error p p'.

Definition json_outcome (p : fp_parser_t) (r : option (bool * fp_parser_t)) : Prop :=
  match r with
  | None => True
  | Some (ok, p') =>
      moves_forward p p' /\
      (same_error p p' \/
       ok = false /\
       In (error_code p') [FP_ERROR_UNTERMINATED_STRING; FP_ERROR_INVALID_NUMBER])
  end.

(** The part of [json_outcome] that concerns the error slot alone; it
    does not depend on where the cursor is. *)
Definition json_error_outcome (p : fp_parser_t) (r : option (bool * fp_parser_t)) : Prop :=
  match r with
  | None => True
  | Some (ok, p') =>
      same_error p p' \/
      ok = false /\
      In (error_code p') [FP_ERROR_UNTERMINATED_STRING; FP_ERROR_INVALID_NUMBER]
  end.

(** A scanner whose buffer ends at [e], with its cursor in bounds. *)
Definition within (e : Z) (p : fp_parser_t) : Prop := end_ p = e /\ current p <= e.

(** Two memories for the examples: the three literals at the addresses 0,
    4 and 9, then a NUL-terminated text at address 13: the array
    [[1, {}, true]], and an object whose member has no value. *)
Definition json_sample_array : list ascii :=
  (list_ascii_of_string "truefalsenull" ++
   list_ascii_of_string "[1, {}, true]" ++ [NUL])%list.

Definition json_sample_no_value : list ascii :=
  (list_ascii_of_string "truefalsenull" ++
   ["{"; QUOTE; "a"; QUOTE; ":"; "}"; NUL]%char)%list.

(** A sequence of chained steps, applied left to right. *)
Inductive chain_step :=
| ThenSkipWs
| ThenExpectChar (expected : ascii)
| ThenParseString.

Definition run_step (mem : list ascii) (simd : bool) (chain : fp_chain_t) (s : chain_step)
  : fp_chain_t :=
  match s with
  | ThenSkipWs => fp_then_skip_ws mem simd chain
  | ThenExpectChar c => fp_then_expect_char mem chain c
  | ThenParseString => fp_then_parse_string mem simd chain
  end.

Definition run_chain (mem : list ascii) (simd : bool) (chain : fp_chain_t)
           (steps : list chain_step) : fp_chain_t :=
  fold_left (run_step mem simd) steps chain.

(* ====================================================================== *)
(** ** The timing header

    [get_timestamp_ns] reads a clock; the timer functions below take the
    value it returned as an argument.  [uint64_t] arithmetic wraps modulo
    2^64. *)

Module Timing.

Definition uint64 (x : Z) : Z := x mod 2 ^ 64.

Record timer_t := mk_timer {
  start_time : Z;
  end_time : Z;
  is_running : Z
}.

(** The Windows branch: [(counter * 1000000000ULL) / frequency], where
    [counter] and [frequency] are what [QueryPerformanceCounter] and
    [QueryPerformanceFrequency] stored. *)
Definition get_timestamp_ns_win32 (counter frequency : Z) : Z :=
  uint64 (uint64 (uint64 counter * 1000000000) / uint64 frequency).

(** The POSIX branch: [tv_sec * 1000000000ULL + tv_nsec] of the
    [timespec] that [clock_gettime] filled. *)
Definition get_timestamp_ns_posix (tv_sec tv_nsec : Z) : Z :=
  uint64 (uint64 (uint64 tv_sec * 1000000000) + uint64 tv_nsec).

Definition timer_init : timer_t := mk_timer 0 0 0.

Definition timer_start (t : timer_t) (now : Z) : timer_t :=
  mk_timer now (end_time t) 1.

Definition timer_stop (t : timer_t) (now : Z) : timer_t :=
  if is_running t =? 0 then t
  else mk_timer (start_time t) now 0.

Definition timer_elapsed_ns (t : timer_t) (now : Z) : Z :=
  if is_running t =? 0 then uint64 (end_time t - start_time t)
  else uint64 (now - start_time t).





End Timing.

(* ====================================================================== *)
(** ** Bytes *)

Lemma byte_val_inj (a b : ascii) : byte_val a = byte_val b -> a = b.
Proof.
  unfold byte_val. intros H. apply N2Z.inj in H.
  rewrite <- (ascii_N_embedding a), <- (ascii_N_embedding b). now rewrite H.
Qed.

Lemma byte_val_eqb (a b : ascii) : (byte_val a =? byte_val b) = Ascii.eqb a b.
Proof.
  destruct (Ascii.eqb_spec a b) as [->|Hne].
  - apply Z.eqb_refl.
  - apply Z.eqb_neq. intros H. now apply Hne, byte_val_inj.
Qed.

Lemma byte_val_range (c : ascii) : 0 <= byte_val c < 256.
Proof.
  unfold byte_val. pose proof (N_ascii_bounded c) as H. lia.
Qed.

(* ====================================================================== *)
(** ** The whitespace mask of a lane *)

Module SSE2Facts.

Lemma lanewise_map_repeat (f : Z -> Z -> Z) (g : Z -> Z) (k : Z) (l : list Z) :
  lanewise f (map g l) (repeat k (length l)) = map (fun a => f (g a) k) l.
Proof. induction l as [|a l IH]; simpl; [reflexivity | now rewrite IH]. Qed.

Lemma lanewise_map_map (f : Z -> Z -> Z) (g h : Z -> Z) (l : list Z) :
  lanewise f (map g l) (map h l) = map (fun a => f (g a) (h a)) l.
Proof. induction l as [|a l IH]; simpl; [reflexivity | now rewrite IH]. Qed.

Lemma ws_lane_top_bit (c : ascii) : Z.testbit (ws_lane c) 7 = is_ws c.
Proof.
  unfold ws_lane, is_ws. rewrite !byte_val_eqb.
  destruct (Ascii.eqb c SPACE), (Ascii.eqb c TAB), (Ascii.eqb c LF), (Ascii.eqb c CR);
    reflexivity.
Qed.

Lemma movemask_bounds (v : m128i) :
  0 <= _mm_movemask_epi8 v <= 2 ^ Z.of_nat (length v) - 1.
Proof.
  induction v as [|x v IH].
  - simpl. lia.
  - cbn [_mm_movemask_epi8 length]. rewrite Nat2Z.inj_succ, Z.pow_succ_r by lia.
    destruct (Z.testbit x 7); simpl Z.b2z; lia.
Qed.

Lemma movemask_full (v : m128i) :
  _mm_movemask_epi8 v = 2 ^ Z.of_nat (length v) - 1 <->
  Forall (fun x => Z.testbit x 7 = true) v.
Proof.
  induction v as [|x v IH].
  - simpl. split; [constructor | reflexivity].
  - cbn [_mm_movemask_epi8 length]. rewrite Nat2Z.inj_succ, Z.pow_succ_r by lia.
    pose proof (movemask_bounds v) as Hb.
    split.
    + intros H. destruct (Z.testbit x 7) eqn:Hx; simpl Z.b2z in H.
      * constructor; [assumption | apply IH; lia].
      * exfalso. lia.
    + intros H. inversion H as [|? ? Hx Hv]; subst.
      apply IH in Hv. rewrite Hx. simpl Z.b2z. lia.
Qed.

End SSE2Facts.
Import SSE2Facts.

Section WhitespaceSkip.

Variable mem : list ascii.

Lemma lane_addrs_length (p : Z) : length (lane_addrs p) = 16%nat.
Proof. reflexivity. Qed.

Lemma lane_addrs_In (p a : Z) : In a (lane_addrs p) <-> p <= a < p + 16.
Proof.
  unfold lane_addrs. rewrite in_map_iff. split.
  - intros [i [<- Hi]]. apply in_seq in Hi. lia.
  - intros H. exists (Z.to_nat (a - p)). split; [lia | apply in_seq; lia].
Qed.

Lemma whitespace_mask_lanes (p : Z) :
  whitespace_mask mem p =
  _mm_movemask_epi8 (map (fun a => ws_lane (load mem a)) (lane_addrs p)).
Proof.
  unfold whitespace_mask, _mm_loadu_si128, _mm_cmpeq_epi8, _mm_or_si128, _mm_set1_epi8.
  rewrite <- (lane_addrs_length p).
  rewrite !lanewise_map_repeat, !lanewise_map_map. reflexivity.
Qed.

(** The mask is [0xFFFF] exactly when the sixteen bytes are whitespace. *)
Lemma whitespace_mask_full (p : Z) :
  whitespace_mask mem p = 65535 <->
  forall a, p <= a < p + 16 -> is_ws (load mem a) = true.
Proof.
  rewrite whitespace_mask_lanes.
  change 65535 with (2 ^ Z.of_nat (length (map (fun a => ws_lane (load mem a)) (lane_addrs p))) - 1).
  rewrite movemask_full, Forall_map, Forall_forall.
  split; intros H a Ha.
  - rewrite <- ws_lane_top_bit. apply H. now apply lane_addrs_In.
  - rewrite ws_lane_top_bit. apply H. now apply lane_addrs_In.
Qed.

Lemma ws_run_unique (p e q1 q2 : Z) : ws_run mem p e q1 -> ws_run mem p e q2 -> q1 = q2.
Proof.
  intros (B1 & R1 & S1) (B2 & R2 & S2).
  destruct (Z.lt_trichotomy q1 q2) as [Hlt | [Heq | Hgt]]; [exfalso | assumption | exfalso].
  - destruct S1 as [-> | S1]; [lia|]. rewrite R2 in S1 by lia. discriminate.
  - destruct S2 as [-> | S2]; [lia|]. rewrite R1 in S2 by lia. discriminate.
Qed.

Lemma scalar_skip_run (fuel : nat) (p e : Z) :
  p <= e -> e - p <= Z.of_nat fuel ->
  ws_run mem p e (fst (scalar_skip mem fuel p e)).
Proof.
  revert p. induction fuel as [|f IH]; intros p Hpe Hf.
  - simpl. assert (p = e) by lia. subst. repeat split; try lia; now left.
  - cbn [scalar_skip]. destruct (Z.ltb_spec p e) as [Hlt | Hge].
    + destruct (is_ws (load mem p)) eqn:Hws.
      * specialize (IH (p + 1) ltac:(lia) ltac:(lia)).
        destruct (scalar_skip mem f (p + 1) e) as [q t]. simpl in *.
        destruct IH as (B & R & S). repeat split; try lia; [|assumption].
        intros a Ha. destruct (Z.eq_dec a p) as [-> | Hne]; [assumption | apply R; lia].
      * simpl. repeat split; try lia; now right.
    + simpl. repeat split; try lia; left; lia.
Qed.

Lemma scalar_skip_reads (fuel : nat) (p e a : Z) :
  In a (snd (scalar_skip mem fuel p e)) -> p <= a < e.
Proof.
  revert p. induction fuel as [|f IH]; intros p; simpl; [tauto|].
  destruct (Z.ltb_spec p e) as [Hlt | Hge]; [|simpl; tauto].
  destruct (is_ws (load mem p)).
  - specialize (IH (p + 1)). destruct (scalar_skip mem f (p + 1) e) as [q t].
    simpl in *. intros [<- | H]; [lia | apply IH in H; lia].
  - simpl. intros [<- | []]. lia.
Qed.

Lemma simd_chunks_run (fuel : nat) (p e : Z) :
  let q := fst (simd_chunks mem fuel p e) in
  p <= q /\ (q = p \/ q <= e) /\
  (forall a, p <= a < q -> is_ws (load mem a) = true).
Proof.
  revert p. induction fuel as [|f IH]; intros p; simpl.
  - repeat split; try lia; now left.
  - destruct (Z.leb_spec (p + 16) e) as [Hle | Hgt]; [|simpl; repeat split; try lia; now left].
    destruct (Z.eqb_spec (whitespace_mask mem p) 65535) as [Hm | Hm];
      [|simpl; repeat split; try lia; now left].
    specialize (IH (p + 16)). destruct (simd_chunks mem f (p + 16) e) as [q t].
    simpl in *. destruct IH as (B & E & R). repeat split; try lia.
    intros a Ha. destruct (Z.lt_ge_cases a (p + 16)).
    + apply (proj1 (whitespace_mask_full p) Hm). lia.
    + apply R. lia.
Qed.

Lemma simd_chunks_reads (fuel : nat) (p e a : Z) :
  In a (snd (simd_chunks mem fuel p e)) -> p <= a < e.
Proof.
  revert p. induction fuel as [|f IH]; intros p; cbn [simd_chunks snd]; [simpl; tauto|].
  destruct (Z.leb_spec (p + 16) e) as [Hle | Hgt]; [|simpl; tauto].
  destruct (whitespace_mask mem p =? 65535).
  - specialize (IH (p + 16)). destruct (simd_chunks mem f (p + 16) e) as [q t].
    cbn [fst snd] in *. rewrite in_app_iff, lane_addrs_In. intros [H | H]; [lia | apply IH in H; lia].
  - cbn [snd]. rewrite lane_addrs_In. lia.
Qed.

Lemma fp_skip_whitespace_scalar_run (str e : Z) :
  str <= e -> ws_run mem str e (fp_skip_whitespace_scalar mem str e).
Proof.
  intros H. apply scalar_skip_run; lia.
Qed.

Lemma fp_skip_whitespace_simd_run (str e : Z) :
  str <= e -> ws_run mem str e (fp_skip_whitespace_simd mem str e).
Proof.
  intros Hle. unfold fp_skip_whitespace_simd, fp_skip_whitespace_simd_reads.
  pose proof (simd_chunks_run (Z.to_nat (e - str)) str e) as H.
  destruct (simd_chunks mem (Z.to_nat (e - str)) str e) as [p t1]. simpl in H.
  destruct H as (B & E & R).
  assert (Hpe : p <= e) by lia.
  pose proof (scalar_skip_run (Z.to_nat (e - p)) p e Hpe ltac:(lia)) as H.
  destruct (scalar_skip mem (Z.to_nat (e - p)) p e) as [q t2]. simpl in *.
  destruct H as (B' & R' & S'). repeat split; try lia; [|assumption].
  intros a Ha. destruct (Z.lt_ge_cases a p); [apply R | apply R']; lia.
Qed.

Lemma fp_skip_whitespace_paths_agree (str e : Z) :
  fp_skip_whitespace_simd mem str e = fp_skip_whitespace_scalar mem str e.
Proof.
  destruct (Z.le_gt_cases str e) as [Hle | Hgt].
  - eapply ws_run_unique; [apply fp_skip_whitespace_simd_run | apply fp_skip_whitespace_scalar_run];
      assumption.
  - unfold fp_skip_whitespace_simd, fp_skip_whitespace_simd_reads,
      fp_skip_whitespace_scalar, fp_skip_whitespace_scalar_reads.
    replace (Z.to_nat (e - str)) with O by lia. cbn [simd_chunks].
    replace (Z.to_nat (e - str)) with O by lia. reflexivity.
Qed.

Lemma fp_skip_whitespace_simd_reads_in_range (str e a : Z) :
  In a (snd (fp_skip_whitespace_simd_reads mem str e)) -> str <= a < e.
Proof.
  unfold fp_skip_whitespace_simd_reads.
  pose proof (simd_chunks_run (Z.to_nat (e - str)) str e) as H.
  pose proof (simd_chunks_reads (Z.to_nat (e - str)) str e a) as H1.
  destruct (simd_chunks mem (Z.to_nat (e - str)) str e) as [p t1]. simpl in H, H1.
  pose proof (scalar_skip_reads (Z.to_nat (e - p)) p e a) as H2.
  destruct (scalar_skip mem (Z.to_nat (e - p)) p e) as [q t2]. simpl in *.
  rewrite in_app_iff. intros [Ha | Ha]; [auto | apply H2 in Ha; lia].
Qed.

(** C2. The SIMD path and the scalar path of [fp_skip_whitespace] return
    the same pointer for every byte range, so [fp_skip_ws] leaves the same
    scanner (cursor, line, column and all) whichever path was compiled in,
    and every address either path dereferences lies in [str, end). *)
Theorem simd_scalar_equivalence :
  (forall str e, fp_skip_whitespace_simd mem str e = fp_skip_whitespace_scalar mem str e) /\
  (forall p, fp_skip_ws mem true p = fp_skip_ws mem false p) /\
  (forall str e a,
      In a (snd (fp_skip_whitespace_simd_reads mem str e)) -> str <= a < e) /\
  (forall str e a,
      In a (snd (fp_skip_whitespace_scalar_reads mem str e)) -> str <= a < e).
Proof.
  split; [exact fp_skip_whitespace_paths_agree|].
  split.
  - intros p. unfold fp_skip_ws, fp_skip_whitespace.
    now rewrite fp_skip_whitespace_paths_agree.
  - split.
    + exact fp_skip_whitespace_simd_reads_in_range.
    + intros str e a. apply scalar_skip_reads.
Qed.

End WhitespaceSkip.

(** Twenty blanks and an [x]: one full lane, then the scalar loop. *)
Lemma simd_scalar_equivalence_witness :
  let mem := (repeat SPACE 20 ++ ["x"%char])%list in
  fp_skip_whitespace_simd mem 0 21 = fp_skip_whitespace_scalar mem 0 21 /\
  fp_skip_whitespace_scalar mem 0 21 = 20 /\
  In 20 (snd (fp_skip_whitespace_simd_reads mem 0 21)) /\ 0 <= 20 < 21.
Proof.
  destruct (simd_scalar_equivalence (repeat SPACE 20 ++ ["x"%char])%list)
    as (Heq & _ & Hsimd & _).
  assert (Hin : In 20 (snd (fp_skip_whitespace_simd_reads
                              (repeat SPACE 20 ++ ["x"%char])%list 0 21)))
    by (vm_compute; tauto).
  split; [apply Heq|]. split; [reflexivity|]. split; [exact Hin|].
  exact (Hsimd 0 21 20 Hin).
Defined.

(* ====================================================================== *)
(** ** String views *)

Section Views.

Variable mem : list ascii.

Lemma memcmp_bytes_refl (n : nat) (a : Z) : memcmp_bytes mem n a a = 0.
Proof.
  revert a. induction n as [|n IH]; intros a; simpl; [reflexivity|].
  now rewrite Z.eqb_refl.
Qed.

Lemma memcmp_refl (a n : Z) : memcmp mem a a n = 0.
Proof. apply memcmp_bytes_refl. Qed.

(** Without wrap-around of [offset + length], [fp_view_substr] clamps the
    requested range to the view. *)
Lemma fp_view_substr_in_range (v : fp_view_t) (offset length : Z) :
  0 <= len v < 2 ^ 64 -> 0 <= offset -> 0 <= length -> offset + length < 2 ^ 64 ->
  fp_view_substr v offset length =
    if len v <=? offset then FP_VIEW_EMPTY
    else mk_view (data v + offset) (Z.min length (len v - offset)).
Proof.
  intros Hv Ho Hl Hsum. unfold fp_view_substr, size_wrap.
  destruct (Z.leb_spec (len v) offset) as [Hle | Hgt]; [reflexivity|].
  rewrite (Z.mod_small (offset + length)) by lia.
  rewrite (Z.mod_small (len v - offset)) by lia.
  destruct (Z.ltb_spec (len v) (offset + length)); f_equal; lia.
Qed.

(** C3 (evaluation at the failing input).  On a view of 10 bytes, offset 5
    and length [SIZE_MAX] the sum [offset + length] wraps to 4, the clamp
    is skipped, and the returned view claims [SIZE_MAX] bytes from
    [data + 5]: it extends far beyond the 10 bytes of the view. *)
Theorem fp_view_substr_length_wraps :
  let v := mk_view 1 10 in
  let r := fp_view_substr v 5 SIZE_MAX in
  r = mk_view 6 SIZE_MAX /\
  len r <> Z.min SIZE_MAX (len v - 5) /\
  data v + len v < data r + len r.
Proof. vm_compute. repeat split; discriminate. Qed.

(** C9. [fp_view_equals v v] holds for every view, and
    [fp_view_compare a b == 0] exactly when [fp_view_equals a b]. *)
Theorem view_equals_compare :
  (forall v, fp_view_equals mem v v = true) /\
  (forall a b, fp_view_compare mem a b = 0 <-> fp_view_equals mem a b = true).
Proof.
  split.
  - intros v. unfold fp_view_equals. now rewrite Z.eqb_refl, memcmp_refl.
  - intros a b. unfold fp_view_compare, fp_view_equals.
    destruct (Z.lt_trichotomy (len a) (len b)) as [Hlt | [Heq | Hgt]].
    + rewrite (proj2 (Z.ltb_lt _ _) Hlt), (proj2 (Z.eqb_neq (len a) (len b))) by lia.
      destruct (Z.eqb_spec (memcmp mem (data a) (data b) (len a)) 0); simpl; split;
        intros; (discriminate || lia).
    + rewrite Heq, Z.ltb_irrefl, Z.eqb_refl. rewrite <- Heq. simpl.
      destruct (Z.eqb_spec (memcmp mem (data a) (data b) (len a)) 0); split;
        intros; (reflexivity || discriminate || lia).
    + rewrite (proj2 (Z.ltb_ge (len a) (len b))) by lia.
      rewrite (proj2 (Z.ltb_lt _ _) Hgt), (proj2 (Z.eqb_neq (len a) (len b))) by lia.
      destruct (Z.eqb_spec (memcmp mem (data a) (data b) (len b)) 0); simpl; split;
        intros; (discriminate || lia).
Qed.

End Views.

Lemma fp_view_substr_in_range_witness :
  fp_view_substr (mk_view 1 10) 5 20 = mk_view 6 5.
Proof.
  rewrite fp_view_substr_in_range; [reflexivity | cbn; lia | lia | lia | lia].
Defined.

(* ====================================================================== *)
(** ** The error slot *)

Section ErrorSlot.

Variable mem : list ascii.

(** C7 (as amended).  [fp_set_error] stores the code and the first 255
    bytes of the message and nothing else: the scanner has no field for an
    error position, and its cursor, line and column are left as they were.
    Moving the cursor afterwards goes on exactly as without the error, so
    the line and column read later are those of the cursor at that time. *)
Theorem fp_set_error_stores_code_and_message (p : fp_parser_t) code msg :
  let p' := fp_set_error p code msg in
  error_code p' = code /\ error_msg p' = substring 0 255 msg /\
  start p' = start p /\ current p' = current p /\ end_ p' = end_ p /\
  line p' = line p /\ column p' = column p /\
  snd (fp_advance mem p') =
    mk_parser (start p) (current (snd (fp_advance mem p))) (end_ p)
              (line (snd (fp_advance mem p))) (column (snd (fp_advance mem p)))
              code (substring 0 255 msg).
Proof.
  cbv zeta. repeat (split; [reflexivity|]).
  unfold fp_advance, fp_at_end, step_over. cbn [fp_set_error current end_].
  destruct (end_ p <=? current p); [reflexivity|]. cbn [snd].
  destruct (Ascii.eqb (load mem (current p)) LF); reflexivity.
Qed.

Lemma fp_advance_keeps_error (p : fp_parser_t) :
  error_code (snd (fp_advance mem p)) = error_code p /\
  error_msg (snd (fp_advance mem p)) = error_msg p.
Proof.
  unfold fp_advance, step_over. destruct (fp_at_end p); simpl; [tauto|].
  destruct (Ascii.eqb _ LF); simpl; tauto.
Qed.

End ErrorSlot.

(** C7 (counterexample).  On the two-byte input [ab] an error is set at
    line 1, column 1 and one byte is consumed afterwards: the error is still
    pending, and the only line and column the scanner holds now read 1:2. *)
Lemma error_position_follows_cursor :
  let mem := list_ascii_of_string "ab" in
  let p := fp_init 0 2 in
  let p1 := fp_set_error p FP_ERROR_CUSTOM "failure" in
  let p2 := snd (fp_advance mem p1) in
  (line p, column p) = (1, 1) /\
  error_code p2 = FP_ERROR_CUSTOM /\ error_msg p2 = "failure"%string /\
  (line p2, column p2) = (1, 2) /\
  ~ (line p2 = line p /\ column p2 = column p).
Proof.
  vm_compute. repeat split. intros [_ H]. discriminate H.
Qed.

(* ====================================================================== *)
(** ** Chains *)

Section Chains.

Variable mem : list ascii.
Variable simd : bool.

Lemma fp_then_parse_string_result (chain : fp_chain_t) :
  success (fp_then_parse_string mem simd chain) = false ->
  result (fp_then_parse_string mem simd chain) = result chain.
Proof.
  unfold fp_then_parse_string. destruct (success chain) eqn:Hs; [|reflexivity].
  destruct (fp_parse_quoted_string mem simd (parser chain)) as [[v|] p]; simpl;
    [discriminate | reflexivity].
Qed.

Lemma fp_then_expect_char_result (chain : fp_chain_t) (c : ascii) :
  result (fp_then_expect_char mem chain c) = result chain.
Proof.
  unfold fp_then_expect_char. destruct (success chain); [|reflexivity].
  destruct (fp_match_char mem (parser chain) c) as [[|] p]; reflexivity.
Qed.

Lemma fp_then_skip_ws_result (chain : fp_chain_t) :
  result (fp_then_skip_ws mem simd chain) = result chain /\
  success (fp_then_skip_ws mem simd chain) = success chain.
Proof.
  unfold fp_then_skip_ws. destruct (success chain) eqn:Hs; split; simpl; congruence.
Qed.

(** C8. A chain whose [success] flag is false goes through every chained
    step unchanged: same scanner state, [success] still false, same
    [result].  Moreover a step that fails, or that produces no value,
    leaves [result] as it was, so the view of a failed chain is the one of
    the last step that succeeded. *)
Theorem failed_chain_is_unchanged (chain : fp_chain_t) (expected : ascii) :
  (success chain = false ->
   fp_then_skip_ws mem simd chain = chain /\
   fp_then_expect_char mem chain expected = chain /\
   fp_then_parse_string mem simd chain = chain) /\
  (success (fp_then_parse_string mem simd chain) = false ->
   result (fp_then_parse_string mem simd chain) = result chain) /\
  result (fp_then_expect_char mem chain expected) = result chain /\
  result (fp_then_skip_ws mem simd chain) = result chain.
Proof.
  split; [|split; [|split]].
  - intros H. unfold fp_then_skip_ws, fp_then_expect_char, fp_then_parse_string.
    rewrite H. repeat split.
  - apply fp_then_parse_string_result.
  - apply fp_then_expect_char_result.
  - apply fp_then_skip_ws_result.
Qed.

End Chains.

(** The chain of the usage example on an input without the brace. *)
Lemma failed_chain_is_unchanged_witness :
  let mem := list_ascii_of_string "  x" in
  let chain := fp_then_expect_char mem (fp_then_skip_ws mem true (fp_chain (fp_init 0 3))) "{" in
  success chain = false /\ error_code (parser chain) = FP_ERROR_CUSTOM /\
  fp_then_skip_ws mem true chain = chain /\
  fp_then_expect_char mem chain "{" = chain /\
  fp_then_parse_string mem true chain = chain.
Proof.
  split; [reflexivity|]. split; [reflexivity|].
  apply (proj1 (failed_chain_is_unchanged (list_ascii_of_string "  x") true
                  (fp_then_expect_char (list_ascii_of_string "  x")
                     (fp_then_skip_ws (list_ascii_of_string "  x") true
                        (fp_chain (fp_init 0 3))) "{") "{")).
  reflexivity.
Defined.

(* ====================================================================== *)
(** ** Cursor bookkeeping *)

Section Cursor.

Variable mem : list ascii.
Variable simd : bool.

Lemma fp_skip_whitespace_run (str e : Z) :
  str <= e -> ws_run mem str e (fp_skip_whitespace mem simd str e).
Proof.
  intros H. unfold fp_skip_whitespace. destruct simd.
  - now apply fp_skip_whitespace_simd_run.
  - now apply fp_skip_whitespace_scalar_run.
Qed.

Lemma fp_skip_whitespace_past_end (str e : Z) :
  e < str -> fp_skip_whitespace mem simd str e = str.
Proof.
  intros H. unfold fp_skip_whitespace. rewrite fp_skip_whitespace_paths_agree.
  unfold fp_skip_whitespace_scalar, fp_skip_whitespace_scalar_reads.
  replace (Z.to_nat (e - str)) with O by lia. destruct simd; reflexivity.
Qed.

Lemma step_over_fields (p : fp_parser_t) (c : ascii) :
  let p' := step_over p c in
  start p' = start p /\ current p' = current p + 1 /\ end_ p' = end_ p /\
  error_code p' = error_code p /\ error_msg p' = error_msg p.
Proof. unfold step_over. destruct (Ascii.eqb c LF); simpl; repeat split. Qed.

Lemma track_to_fields (fuel : nat) (p : fp_parser_t) (q : Z) :
  current p <= q -> q - current p <= Z.of_nat fuel ->
  let p' := track_to mem fuel p q in
  start p' = start p /\ current p' = q /\ end_ p' = end_ p /\
  error_code p' = error_code p /\ error_msg p' = error_msg p.
Proof.
  revert p. induction fuel as [|f IH]; intros p Hle Hf.
  - simpl. repeat split. lia.
  - cbn [track_to]. destruct (Z.ltb_spec (current p) q) as [Hlt | Hge].
    + pose proof (step_over_fields p (load mem (current p))) as (S1 & S2 & S3 & S4 & S5).
      specialize (IH (step_over p (load mem (current p))) ltac:(lia) ltac:(lia)).
      simpl in IH. destruct IH as (I1 & I2 & I3 & I4 & I5).
      simpl. repeat split; congruence.
    + simpl. repeat split. lia.
Qed.

(** [fp_skip_ws] moves the cursor to the end of the maximal whitespace run
    and touches neither the bounds nor the error slot. *)
Lemma fp_skip_ws_run (p : fp_parser_t) :
  current p <= end_ p ->
  let p' := fp_skip_ws mem simd p in
  ws_run mem (current p) (end_ p) (current p') /\
  start p' = start p /\ end_ p' = end_ p /\
  error_code p' = error_code p /\ error_msg p' = error_msg p.
Proof.
  intros Hle. unfold fp_skip_ws.
  pose proof (fp_skip_whitespace_run (current p) (end_ p) Hle) as Hrun.
  set (q := fp_skip_whitespace mem simd (current p) (end_ p)) in *.
  assert (Hq : current p <= q) by (destruct Hrun; lia).
  pose proof (track_to_fields (Z.to_nat (q - current p)) p q Hq ltac:(lia)) as H.
  simpl in H. destruct H as (T1 & T2 & T3 & T4 & T5).
  simpl. rewrite T2. repeat split; try tauto; destruct Hrun as (B & R & S); try lia; assumption.
Qed.

(** At the end of the input or on a byte that is not whitespace,
    [fp_skip_ws] does nothing. *)
Lemma fp_skip_ws_stays (p : fp_parser_t) :
  end_ p <= current p \/ is_ws (load mem (current p)) = false ->
  fp_skip_ws mem simd p = p.
Proof.
  intros H. unfold fp_skip_ws.
  assert (Hq : fp_skip_whitespace mem simd (current p) (end_ p) = current p).
  { destruct (Z.lt_ge_cases (end_ p) (current p)) as [Hlt | Hge].
    - now apply fp_skip_whitespace_past_end.
    - eapply ws_run_unique; [now apply fp_skip_whitespace_run|].
      repeat split; try lia. destruct H as [H | H]; [left; lia | now right]. }
  rewrite Hq, Z.sub_diag. reflexivity.
Qed.

Lemma fp_advance_step (p : fp_parser_t) :
  current p < end_ p ->
  fp_advance mem p = (load mem (current p), step_over p (load mem (current p))).
Proof.
  intros H. unfold fp_advance, fp_at_end.
  now rewrite (proj2 (Z.leb_gt _ _) H).
Qed.

Lemma fp_peek_load (p : fp_parser_t) :
  current p < end_ p -> fp_peek mem p = load mem (current p).
Proof.
  intros H. unfold fp_peek, fp_at_end. now rewrite (proj2 (Z.leb_gt _ _) H).
Qed.

Lemma fp_peek_at_end (p : fp_parser_t) :
  end_ p <= current p -> fp_peek mem p = NUL.
Proof.
  intros H. unfold fp_peek, fp_at_end. now rewrite (proj2 (Z.leb_le _ _) H).
Qed.

End Cursor.

(* ====================================================================== *)
(** ** Integer parsing *)

Section DecimalText.

Lemma byte_val_digit_char (d : Z) : 0 <= d <= 9 -> byte_val (digit_char d) = 48 + d.
Proof.
  intros H. unfold byte_val, digit_char. rewrite N_ascii_embedding by lia. lia.
Qed.

Lemma isdigit_digit_char (d : Z) : 0 <= d <= 9 -> isdigit (digit_char d) = true.
Proof.
  intros H. unfold isdigit. rewrite byte_val_digit_char by assumption.
  apply andb_true_intro. split; apply Z.leb_le; lia.
Qed.

Lemma isdigit_range (c : ascii) : isdigit c = true -> 48 <= byte_val c <= 57.
Proof.
  unfold isdigit. intros H. apply andb_prop in H. destruct H as [H1 H2].
  apply Z.leb_le in H1, H2. lia.
Qed.

Lemma digits_value_app (v : Z) (l : list ascii) (c : ascii) :
  digits_value v (l ++ [c]) = digits_value v l * 10 + (byte_val c - 48).
Proof. unfold digits_value. now rewrite fold_left_app. Qed.

Lemma digits_of_value (fuel : nat) (n : Z) :
  0 <= n < 10 ^ Z.of_nat fuel -> digits_value 0 (digits_of fuel n) = n.
Proof.
  revert n. induction fuel as [|f IH]; intros n Hn.
  - simpl in *. lia.
  - cbn [digits_of]. destruct (Z.ltb_spec n 10) as [Hlt | Hge].
    + unfold digits_value. simpl. rewrite byte_val_digit_char; lia.
    + rewrite Nat2Z.inj_succ, Z.pow_succ_r in Hn by lia.
      rewrite digits_value_app, IH.
      * rewrite byte_val_digit_char by (pose proof (Z.mod_pos_bound n 10); lia).
        pose proof (Z.div_mod n 10). lia.
      * split; [apply Z.div_pos; lia | apply Z.div_lt_upper_bound; lia].
Qed.

Lemma digits_of_isdigit (fuel : nat) (n : Z) :
  0 <= n -> Forall (fun c => isdigit c = true) (digits_of fuel n).
Proof.
  revert n. induction fuel as [|f IH]; intros n Hn; cbn [digits_of]; [constructor|].
  destruct (Z.ltb_spec n 10) as [Hlt | Hge].
  - constructor; [apply isdigit_digit_char; lia | constructor].
  - apply Forall_app. split.
    + apply IH. apply Z.div_pos; lia.
    + constructor; [|constructor]. apply isdigit_digit_char.
      pose proof (Z.mod_pos_bound n 10). lia.
Qed.

Lemma digits_of_nonempty (fuel : nat) (n : Z) : digits_of (S fuel) n <> [].
Proof.
  cbn [digits_of]. destruct (n <? 10); [discriminate|].
  intros H. apply app_eq_nil in H. destruct H as [_ H]. discriminate.
Qed.

Lemma digits_value_mono (ds : list ascii) (v : Z) :
  Forall (fun c => isdigit c = true) ds -> 0 <= v -> v <= digits_value v ds.
Proof.
  revert v. induction ds as [|c ds IH]; intros v Hd Hv; [unfold digits_value; simpl; lia|].
  inversion Hd as [|? ? Hc Hds]; subst. apply isdigit_range in Hc.
  change (digits_value v (c :: ds)) with (digits_value (v * 10 + (byte_val c - 48)) ds).
  specialize (IH (v * 10 + (byte_val c - 48)) Hds ltac:(lia)). lia.
Qed.

Lemma isdigit_not_other (c : ascii) :
  isdigit c = true ->
  is_ws c = false /\ Ascii.eqb c "-" = false /\ Ascii.eqb c "+" = false /\
  Ascii.eqb c LF = false.
Proof.
  intros H. apply isdigit_range in H. unfold is_ws.
  rewrite <- !byte_val_eqb. 
  change (byte_val SPACE) with 32. change (byte_val TAB) with 9.
  change (byte_val LF) with 10. change (byte_val CR) with 13.
  change (byte_val "-") with 45. change (byte_val "+") with 43.
  repeat split; repeat (apply orb_false_intro); apply Z.eqb_neq; lia.
Qed.

End DecimalText.

Section ParseInt64.

Variable mem : list ascii.
Variable simd : bool.

(** The digit loop on a buffer that ends with the digits [ds]: when the
    number stays within [max_val] the loop consumes every digit and leaves
    the number in the accumulator. *)
Lemma int64_digits_all (ds : list ascii) :
  forall (fuel : nat) (p : fp_parser_t) (value max_val : Z),
    bytes_at mem (current p) ds ->
    Forall (fun c => isdigit c = true) ds ->
    end_ p = current p + Z.of_nat (length ds) ->
    (length ds <= fuel)%nat ->
    0 <= value -> digits_value value ds <= max_val -> max_val < 2 ^ 64 ->
    exists p',
      int64_digits mem fuel p value max_val = (Some (digits_value value ds), p') /\
      current p' = end_ p /\ end_ p' = end_ p /\ start p' = start p /\
      error_code p' = error_code p.
Proof.
  induction ds as [|c ds IH]; intros fuel p value max_val Hb Hd He Hf Hv Hm Hmax.
  - exists p. simpl in He. unfold digits_value. simpl.
    assert (Hend : fp_at_end p = true) by (unfold fp_at_end; apply Z.leb_le; lia).
    destruct fuel; simpl; [|rewrite Hend; simpl]; repeat split; lia.
  - destruct fuel as [|f]; [simpl in Hf; lia|].
    destruct Hb as [Hc Hb]. apply Forall_cons_iff in Hd. destruct Hd as [Hdc Hds].
    cbn [length] in He. rewrite Nat2Z.inj_succ in He.
    assert (Hlt : current p < end_ p) by lia.
    cbn [int64_digits]. rewrite fp_advance_step, fp_peek_load by assumption.
    unfold fp_at_end. rewrite (proj2 (Z.leb_gt _ _) Hlt), Hc, Hdc. cbn [negb andb snd].
    pose proof (isdigit_range _ Hdc) as Hr.
    change (digits_value value (c :: ds))
      with (digits_value (value * 10 + (byte_val c - 48)) ds) in *.
    pose proof (digits_value_mono ds (value * 10 + (byte_val c - 48)) Hds ltac:(lia)) as Hmono.
    unfold size_wrap. rewrite (Z.mod_small (byte_val c - 48)) by lia.
    assert (Hq : value <= (max_val - (byte_val c - 48)) / 10)
      by (apply Z.div_le_lower_bound; lia).
    rewrite (proj2 (Z.ltb_ge _ _) Hq).
    rewrite (Z.mod_small (value * 10 + (byte_val c - 48))) by lia.
    pose proof (step_over_fields p c) as (S1 & S2 & S3 & S4 & S5).
    destruct (IH f (step_over p c) (value * 10 + (byte_val c - 48)) max_val)
      as (p' & E & P1 & P2 & P3 & P4); try lia; try assumption.
    + now rewrite S2.
    + simpl in Hf. lia.
    + exists p'. rewrite E. repeat split; congruence.
Qed.

Lemma to_int64_small (x : Z) : - 2 ^ 63 <= x < 2 ^ 63 -> to_int64 x = x.
Proof. intros H. unfold to_int64. rewrite Z.mod_small; lia. Qed.

Lemma to_int64_neg_magnitude (m : Z) :
  0 <= m <= 2 ^ 63 -> to_int64 (- to_int64 m) = - m.
Proof.
  intros H. destruct (Z.eq_dec m (2 ^ 63)) as [-> | Hne]; [reflexivity|].
  rewrite (to_int64_small m) by lia. apply to_int64_small. lia.
Qed.

Lemma fp_parse_int64_decimal_text (input n : Z) :
  INT64_MIN <= n <= INT64_MAX ->
  bytes_at mem input (decimal_text n) ->
  exists p',
    fp_parse_int64 mem simd (fp_init input (Z.of_nat (length (decimal_text n)))) = (Some n, p') /\
    current p' = end_ p' /\ error_code p' = FP_OK.
Proof.
  intros Hn Hb.
  unfold decimal_text in *. unfold fp_parse_int64. unfold INT64_MIN, INT64_MAX in *.
  destruct (Z.ltb_spec n 0) as [Hneg | Hpos].
  - (* "-" and the digits of [- n] *)
    destruct Hb as [Hc Hb].
    set (p := fp_init input (Z.of_nat (length ("-"%char :: decimal_digits (- n))))).
    assert (Hcur : current p = input) by reflexivity.
    assert (Hend : end_ p = input + 1 + Z.of_nat (length (decimal_digits (- n)))).
    { subst p. cbn [end_ fp_init length]. rewrite Nat2Z.inj_succ. lia. }
    assert (Herr : error_code p = FP_OK) by reflexivity.
    clearbody p.
    assert (Hlt : current p < end_ p) by lia.
    rewrite (fp_skip_ws_stays mem simd p) by (right; rewrite Hcur, Hc; reflexivity).
    unfold fp_at_end at 1. rewrite (proj2 (Z.leb_gt _ _) Hlt).
    rewrite fp_peek_load, fp_advance_step by assumption.
    rewrite Hcur, Hc. cbn [Ascii.eqb Bool.eqb snd].
    pose proof (step_over_fields p "-") as (S1 & S2 & S3 & S4 & S5).
    set (p1 := step_over p "-") in *. clearbody p1.
    pose proof (digits_of_isdigit 20 (- n) ltac:(lia)) as Hd.
    pose proof (digits_of_value 20 (- n) ltac:(lia)) as Hval.
    fold (decimal_digits (- n)) in Hd, Hval.
    pose proof (digits_of_nonempty 19 (- n)) as Hne. fold (decimal_digits (- n)) in Hne.
    assert (Hpeek : isdigit (fp_peek mem p1) = true).
    { destruct (decimal_digits (- n)) as [|d ds] eqn:E; [congruence|].
      cbn [length] in Hend. rewrite Nat2Z.inj_succ in Hend.
      rewrite fp_peek_load by lia.
      rewrite S2, Hcur. destruct Hb as [-> _]. now apply Forall_cons_iff in Hd. }
    rewrite Hpeek. cbn [negb].
    destruct (int64_digits_all (decimal_digits (- n))
                (Z.to_nat (end_ p1 - current p1)) p1 0 (2 ^ 63 - 1 + 1))
      as (p' & E & P1 & P2 & P3 & P4); try assumption; try lia.
    + now rewrite S2, Hcur.
    + exists p'. rewrite E, Hval, to_int64_neg_magnitude by lia.
      repeat split; [f_equal; f_equal; lia | congruence | congruence].
  - (* the digits of [n] *)
    set (p := fp_init input (Z.of_nat (length (decimal_digits n)))).
    assert (Hcur : current p = input) by reflexivity.
    assert (Hend : end_ p = input + Z.of_nat (length (decimal_digits n))) by reflexivity.
    assert (Herr : error_code p = FP_OK) by reflexivity.
    clearbody p.
    pose proof (digits_of_isdigit 20 n ltac:(lia)) as Hd.
    pose proof (digits_of_value 20 n ltac:(lia)) as Hval.
    fold (decimal_digits n) in Hd, Hval.
    pose proof (digits_of_nonempty 19 n) as Hne. fold (decimal_digits n) in Hne.
    assert (Hc : isdigit (load mem input) = true /\ current p < end_ p).
    { destruct (decimal_digits n) as [|d ds] eqn:E; [congruence|].
      destruct Hb as [-> _]. cbn [length] in Hend. rewrite Nat2Z.inj_succ in Hend.
      apply Forall_cons_iff in Hd. split; [tauto | lia]. }
    destruct Hc as (Hdig & Hlt).
    destruct (isdigit_not_other _ Hdig) as (W & M & P & _).
    rewrite (fp_skip_ws_stays mem simd p) by (right; rewrite Hcur; exact W).
    unfold fp_at_end at 1. rewrite (proj2 (Z.leb_gt _ _) Hlt).
    rewrite fp_peek_load by assumption.
    rewrite Hcur, M, P. cbv beta iota.
    rewrite fp_peek_load by assumption. rewrite Hcur, Hdig. cbn [negb].
    destruct (int64_digits_all (decimal_digits n)
                (Z.to_nat (end_ p - input)) p 0 (2 ^ 63 - 1))
      as (p' & E' & P1 & P2 & P3 & P4); try assumption; try lia.
    + now rewrite Hcur.
    + exists p'. rewrite E', Hval, to_int64_small by lia.
      repeat split; congruence.
Qed.

End ParseInt64.

Example decimal_text_minus_42 :
  decimal_text (-42) = list_ascii_of_string "-42" /\
  decimal_text 0 = list_ascii_of_string "0" /\
  decimal_text (2 ^ 63 - 1) = list_ascii_of_string "9223372036854775807" /\
  decimal_text (- 2 ^ 63) = list_ascii_of_string "-9223372036854775808".
Proof. repeat split. Qed.

(** C1. Parsing the decimal text of any signed 64-bit integer [n], wherever
    the text lies in memory and whichever whitespace path is compiled in,
    returns true, writes exactly [n] and consumes the whole text; the three
    texts whose magnitude is one beyond the signed 64-bit bounds fail with
    [FP_ERROR_OVERFLOW]. *)
Theorem parse_int64_round_trip :
  (forall mem simd input n,
      INT64_MIN <= n <= INT64_MAX ->
      bytes_at mem input (decimal_text n) ->
      exists p',
        fp_parse_int64 mem simd (fp_init input (Z.of_nat (length (decimal_text n))))
          = (Some n, p') /\
        current p' = end_ p' /\ error_code p' = FP_OK) /\
  (forall simd s,
      In s ["9223372036854775808"; "+9223372036854775808"; "-9223372036854775809"]%string ->
      let r := fp_parse_int64 (list_ascii_of_string s) simd
                 (fp_init 0 (Z.of_nat (String.length s))) in
      fst r = None /\ error_code (snd r) = FP_ERROR_OVERFLOW).
Proof.
  split.
  - intros mem simd input n. apply fp_parse_int64_decimal_text.
  - intros simd s [<- | [<- | [<- | []]]]; destruct simd; vm_compute; split; reflexivity.
Qed.

Lemma parse_int64_round_trip_witness :
  exists p',
    fp_parse_int64 (list_ascii_of_string "-42") true (fp_init 0 3) = (Some (-42), p') /\
    current p' = end_ p' /\ error_code p' = FP_OK.
Proof.
  apply (proj1 parse_int64_round_trip (list_ascii_of_string "-42") true 0 (-42)).
  - vm_compute. split; discriminate.
  - simpl. repeat split.
Defined.

(* ====================================================================== *)
(** ** Quoted strings *)

Section QuotedString.

Variable mem : list ascii.
Variable simd : bool.

Lemma fp_at_end_iff (p : fp_parser_t) : fp_at_end p = true <-> end_ p <= current p.
Proof. unfold fp_at_end. apply Z.leb_le. Qed.

Lemma fp_at_end_false (p : fp_parser_t) : fp_at_end p = false <-> current p < end_ p.
Proof. unfold fp_at_end. apply Z.leb_gt. Qed.

Lemma mem_range_cons (lo hi : Z) :
  lo < hi -> mem_range mem lo hi = load mem lo :: mem_range mem (lo + 1) hi.
Proof.
  intros H. unfold mem_range.
  replace (Z.to_nat (hi - lo)) with (S (Z.to_nat (hi - (lo + 1)))) by lia.
  reflexivity.
Qed.

Lemma mem_range_nil (lo hi : Z) : hi <= lo -> mem_range mem lo hi = [].
Proof.
  intros H. unfold mem_range. replace (Z.to_nat (hi - lo)) with O by lia. reflexivity.
Qed.

Lemma mem_range_length (lo hi : Z) :
  lo <= hi -> Z.of_nat (length (mem_range mem lo hi)) = hi - lo.
Proof.
  intros H. unfold mem_range.
  assert (G : forall n a, length (bytes_from mem n a) = n)
    by (induction n; intros; simpl; auto).
  rewrite G. lia.
Qed.

Lemma mem_range_nth (lo hi : Z) (k : nat) :
  lo + Z.of_nat k < hi -> nth k (mem_range mem lo hi) NUL = load mem (lo + Z.of_nat k).
Proof.
  revert lo. induction k as [|k IH]; intros lo H.
  - rewrite mem_range_cons by lia. simpl. f_equal. lia.
  - rewrite mem_range_cons by lia. cbn [nth]. rewrite IH by lia. f_equal. lia.
Qed.

(** The closing quote is a quote inside the list. *)
Lemma closing_quote_bounded (n : nat) :
  forall l k, (length l <= n)%nat -> closing_quote l = Some k ->
              (k < length l)%nat /\ nth k l NUL = QUOTE.
Proof.
  induction n as [|n IH]; intros l k Hn; (destruct l as [|c t]; [discriminate|]);
    [simpl in Hn; lia|].
  cbn [closing_quote]. cbn [length] in Hn.
  destruct (Ascii.eqb_spec c QUOTE) as [-> | Hq].
  - intros [= <-]. simpl. split; [lia | reflexivity].
  - destruct (Ascii.eqb c BACKSLASH).
    + destruct t as [|c' t']; [discriminate|]. cbn [length] in Hn.
      destruct (closing_quote t') as [j|] eqn:E; [|discriminate].
      intros [= <-]. destruct (IH t' j ltac:(lia) E) as [H1 H2].
      simpl. split; [lia | assumption].
    + destruct (closing_quote t) as [j|] eqn:E; [|discriminate].
      intros [= <-]. destruct (IH t j ltac:(lia) E) as [H1 H2].
      simpl. split; [lia | assumption].
Qed.

Lemma closing_quote_is_quote (l : list ascii) (k : nat) :
  closing_quote l = Some k -> (k < length l)%nat /\ nth k l NUL = QUOTE.
Proof. apply (closing_quote_bounded (length l)). lia. Qed.

(** The scanning loop stops on the first unescaped quote of the rest of
    the buffer, or at the end of the buffer when there is none. *)
Lemma quoted_loop_stops (fuel : nat) :
  forall p, current p <= end_ p -> end_ p - current p <= Z.of_nat fuel ->
    let p' := quoted_loop mem fuel p in
    start p' = start p /\ end_ p' = end_ p /\
    error_code p' = error_code p /\ error_msg p' = error_msg p /\
    current p' =
      match closing_quote (mem_range mem (current p) (end_ p)) with
      | Some k => current p + Z.of_nat k
      | None => end_ p
      end.
Proof.
  induction fuel as [|f IH]; intros p Hle Hf.
  - simpl. rewrite mem_range_nil by lia. simpl. repeat split. lia.
  - cbn [quoted_loop].
    destruct (Z.le_gt_cases (end_ p) (current p)) as [Hend | Hlt].
    { rewrite (proj2 (fp_at_end_iff p) Hend). simpl.
      rewrite mem_range_nil by lia. simpl. repeat split. lia. }
    rewrite (proj2 (fp_at_end_false p) Hlt).
    rewrite mem_range_cons by assumption. cbn [closing_quote negb andb].
    rewrite fp_peek_load, fp_advance_step by assumption. cbn [snd].
    set (c := load mem (current p)).
    pose proof (step_over_fields p c) as (S1 & S2 & S3 & S4 & S5).
    set (p1 := step_over p c) in *. clearbody p1.
    destruct (Ascii.eqb c QUOTE) eqn:Eq; cbn [negb].
    { repeat split. simpl. lia. }
    destruct (Ascii.eqb c BACKSLASH) eqn:Eb.
    + destruct (Z.le_gt_cases (end_ p) (current p + 1)) as [Hend | Hlt1].
      * rewrite (proj2 (fp_at_end_iff p1)) by lia.
        rewrite mem_range_nil by lia. repeat split; try assumption. lia.
      * rewrite (proj2 (fp_at_end_false p1)) by lia.
        rewrite mem_range_cons by assumption.
        rewrite fp_advance_step by lia. cbn [snd].
        pose proof (step_over_fields p1 (load mem (current p1))) as (T1 & T2 & T3 & T4 & T5).
        set (p2 := step_over p1 (load mem (current p1))) in *. clearbody p2.
        destruct (IH p2 ltac:(lia) ltac:(lia)) as (I1 & I2 & I3 & I4 & I5).
        rewrite I5, T2, T3, S2, S3.
          repeat split; try congruence.
        destruct (closing_quote (mem_range mem (current p + 1 + 1) (end_ p))); simpl; lia.
    + destruct (IH p1 ltac:(lia) ltac:(lia)) as (I1 & I2 & I3 & I4 & I5).
      rewrite I5, S2, S3. repeat split; try congruence.
      destruct (closing_quote (mem_range mem (current p + 1) (end_ p))); simpl; lia.
Qed.

Lemma fp_match_char_hit (p : fp_parser_t) (c : ascii) :
  current p < end_ p -> load mem (current p) = c ->
  fp_match_char mem p c = (true, step_over p c).
Proof.
  intros Hlt Hc. unfold fp_match_char.
  rewrite fp_peek_load, fp_advance_step, Hc, Ascii.eqb_refl by assumption. reflexivity.
Qed.

Lemma fp_match_char_miss (p : fp_parser_t) (c : ascii) :
  c <> NUL -> end_ p <= current p \/ load mem (current p) <> c ->
  fp_match_char mem p c = (false, p).
Proof.
  intros Hc H. unfold fp_match_char.
  destruct (Z.le_gt_cases (end_ p) (current p)) as [Hend | Hlt].
  - rewrite fp_peek_at_end by assumption.
    destruct (Ascii.eqb_spec NUL c); [congruence | reflexivity].
  - rewrite fp_peek_load by lia. destruct H as [H | H]; [lia|].
    destruct (Ascii.eqb_spec (load mem (current p)) c); [congruence | reflexivity].
Qed.

Lemma fp_match_char_true (p p' : fp_parser_t) (c : ascii) :
  c <> NUL -> fp_match_char mem p c = (true, p') ->
  current p < end_ p /\ load mem (current p) = c /\ p' = step_over p c.
Proof.
  intros Hc H. destruct (Z.le_gt_cases (end_ p) (current p)) as [Hend | Hlt].
  - rewrite fp_match_char_miss in H by auto. discriminate.
  - destruct (Ascii.eqb_spec (load mem (current p)) c) as [E | E].
    + rewrite fp_match_char_hit in H by assumption. injection H as <-. auto.
    + rewrite fp_match_char_miss in H by auto. discriminate.
Qed.

(** A view returned by [fp_parse_quoted_string] starts right after the
    quote found at the first byte that is not whitespace. *)
Lemma fp_parse_quoted_string_data (p : fp_parser_t) (v : fp_view_t) :
  fst (fp_parse_quoted_string mem simd p) = Some v ->
  let q := current (fp_skip_ws mem simd p) in
  load mem q = QUOTE /\ data v = q + 1.
Proof.
  unfold fp_parse_quoted_string. set (p1 := fp_skip_ws mem simd p).
  destruct (fp_match_char mem p1 QUOTE) as [[|] p2] eqn:E; cbn [negb]; [|discriminate].
  apply fp_match_char_true in E; [|discriminate]. destruct E as (_ & Hq & ->).
  destruct (fp_match_char mem _ QUOTE) as [[|] p4]; cbn [negb]; [|discriminate].
  intros [= <-]. cbn [data]. split; [assumption|].
  apply (step_over_fields p1 QUOTE).
Qed.

(** C5. With [q] the first byte after the leading whitespace and [rest]
    the bytes from [q + 1] to the end of the buffer:
    [fp_parse_quoted_string] fails exactly when there is no quote at [q]
    or [rest] has no unescaped quote, and every failure carries
    [FP_ERROR_UNTERMINATED_STRING]; on success the view starts right after
    the opening quote and spans the raw bytes up to the first unescaped
    quote, which the cursor is moved past. *)
Theorem quoted_string_outcome (p : fp_parser_t) :
  current p <= end_ p -> end_ p - current p < 2 ^ 64 ->
  let q := current (fp_skip_ws mem simd p) in
  let rest := mem_range mem (q + 1) (end_ p) in
  let r := fp_parse_quoted_string mem simd p in
  (fst r = None <->
     (end_ p <= q \/ load mem q <> QUOTE) \/ closing_quote rest = None) /\
  (fst r = None -> error_code (snd r) = FP_ERROR_UNTERMINATED_STRING) /\
  (forall v, fst r = Some v ->
     exists k, closing_quote rest = Some k /\
       load mem q = QUOTE /\
       data v = q + 1 /\ len v = Z.of_nat k /\
       mem_range mem (data v) (data v + len v) = firstn k rest /\
       load mem (data v + len v) = QUOTE /\
       current (snd r) = data v + len v + 1 /\ current (snd r) <= end_ p /\
       error_code (snd r) = error_code p).
Proof.
  intros Hle Hsz. cbv zeta. unfold fp_parse_quoted_string.
  pose proof (fp_skip_ws_run mem simd p Hle) as H. cbv zeta in H.
  destruct H as ((B & R & S) & W1 & W2 & W3 & W4).
  set (p1 := fp_skip_ws mem simd p) in *. clearbody p1.
  set (q := current p1) in *.
  assert (Hnul : QUOTE <> NUL) by discriminate.
  destruct (Z.le_gt_cases (end_ p) q) as [Hend | Hlt];
    [| destruct (Ascii.eqb_spec (load mem q) QUOTE) as [Hq | Hq]].
  - rewrite fp_match_char_miss by (auto; left; unfold q in *; lia).
    cbn [negb fst snd]. repeat split; auto; try discriminate.
  - rewrite fp_match_char_hit by (unfold q in *; (lia || assumption)).
    cbn [negb].
    pose proof (step_over_fields p1 QUOTE) as (S1 & S2 & S3 & S4 & S5).
    set (p2 := step_over p1 QUOTE) in *. clearbody p2.
    destruct (quoted_loop_stops (Z.to_nat (end_ p2 - current p2)) p2)
      as (L1 & L2 & L3 & L4 & L5); try lia.
    set (p3 := quoted_loop mem (Z.to_nat (end_ p2 - current p2)) p2) in *. clearbody p3.
    rewrite S2, S3, W2 in L5. fold q in L5.
    destruct (closing_quote (mem_range mem (q + 1) (end_ p))) as [k|] eqn:Ek.
    + destruct (closing_quote_is_quote _ _ Ek) as [Hk Hnth].
      pose proof (mem_range_length (q + 1) (end_ p) ltac:(lia)) as Hlen.
      rewrite mem_range_nth in Hnth by lia.
      rewrite fp_match_char_hit by (rewrite ?L5; (lia || assumption)).
      cbn [negb fst snd].
      pose proof (step_over_fields p3 QUOTE) as (T1 & T2 & T3 & T4 & T5).
      assert (Hlenv : size_wrap (current p3 + 1 - current p2 - 1) = Z.of_nat k).
      { rewrite L5, S2. fold q. unfold size_wrap.
        replace (q + 1 + Z.of_nat k + 1 - (q + 1) - 1) with (Z.of_nat k) by lia.
        apply Z.mod_small. lia. }
      split; [split; [discriminate | intros [[H | H] | H]; [lia | congruence | discriminate]]|].
      split; [discriminate|].
      intros v [= <-]. exists k. cbn [data len]. rewrite Hlenv, T2, S2. fold q.
      repeat split; try assumption; try lia; try congruence.
      * unfold mem_range at 1.
        replace (Z.to_nat (q + 1 + Z.of_nat k - (q + 1))) with k by lia.
        unfold mem_range. remember (Z.to_nat (end_ p - (q + 1))) as n eqn:En.
        assert (Hkn : (k <= n)%nat) by lia. clear - Hkn.
        revert n Hkn. generalize (q + 1). induction k as [|k IHk]; intros a n Hkn.
        -- reflexivity.
        -- destruct n as [|n]; [lia|]. cbn [bytes_from firstn]. f_equal.
           apply IHk. lia.
    + rewrite fp_match_char_miss by (auto; left; lia).
      cbn [negb fst snd].
      split; [split; [intros _; right; reflexivity | reflexivity]|].
      split; [reflexivity | discriminate].
  - rewrite fp_match_char_miss by (auto; right; exact Hq).
    cbn [negb fst snd]. repeat split; auto; try discriminate.
Qed.

End QuotedString.

(** The input is two blanks, then a quoted string holding [a], an escaped
    quote and [b], then a blank and [x]. *)
Lemma quoted_string_outcome_witness :
  let mem := [SPACE; SPACE; QUOTE; "a"; BACKSLASH; QUOTE; "b"; QUOTE; SPACE; "x"]%char in
  let r := fp_parse_quoted_string mem false (fp_init 0 10) in
  fst r = Some (mk_view 3 4) /\
  closing_quote (mem_range mem 3 10) = Some 4%nat /\
  exists k, closing_quote (mem_range mem 3 10) = Some k /\
    load mem 2 = QUOTE /\ len (mk_view 3 4) = Z.of_nat k.
Proof.
  split; [reflexivity|]. split; [reflexivity|].
  destruct (proj2 (proj2 (quoted_string_outcome
              [SPACE; SPACE; QUOTE; "a"; BACKSLASH; QUOTE; "b"; QUOTE; SPACE; "x"]%char
              false (fp_init 0 10) ltac:(simpl; lia) ltac:(simpl; lia)))
              (mk_view 3 4) eq_refl)
    as (k & Hk & Hq & _ & Hl & _).
  exists k. repeat split; assumption.
Defined.

(* ====================================================================== *)
(** ** The cursor invariant *)

Section CursorInvariant.

Variable mem : list ascii.
Variable simd : bool.

Lemma moves_forward_refl (p : fp_parser_t) :
  current p <= end_ p -> moves_forward p p.
Proof. unfold moves_forward. lia. Qed.

Lemma moves_forward_trans (p q r : fp_parser_t) :
  moves_forward p q -> moves_forward q r -> moves_forward p r.
Proof.
  unfold moves_forward. intros (A1 & A2 & A3) (B1 & B2 & B3).
  rewrite A2 in B3. repeat split; try congruence; lia.
Qed.

Lemma moves_forward_ok (p p' : fp_parser_t) :
  cursor_ok p -> moves_forward p p' -> cursor_ok p'.
Proof.
  unfold cursor_ok, moves_forward. intros H (A1 & A2 & A3). rewrite A1, A2. lia.
Qed.

Lemma fp_set_error_forward (p q : fp_parser_t) code msg :
  moves_forward p q -> moves_forward p (fp_set_error q code msg).
Proof. unfold moves_forward. simpl. tauto. Qed.

Lemma fp_advance_forward (p : fp_parser_t) :
  current p <= end_ p -> moves_forward p (snd (fp_advance mem p)).
Proof.
  intros H. destruct (Z.le_gt_cases (end_ p) (current p)) as [Hend | Hlt].
  - unfold fp_advance. rewrite (proj2 (fp_at_end_iff p) Hend). simpl.
    now apply moves_forward_refl.
  - rewrite fp_advance_step by assumption. simpl.
    pose proof (step_over_fields p (load mem (current p))) as (S1 & S2 & S3 & _).
    unfold moves_forward. rewrite S1, S2, S3. lia.
Qed.

Lemma fp_match_char_forward (p : fp_parser_t) (c : ascii) :
  current p <= end_ p -> moves_forward p (snd (fp_match_char mem p c)).
Proof.
  intros H. unfold fp_match_char. destruct (Ascii.eqb (fp_peek mem p) c); simpl.
  - now apply fp_advance_forward.
  - now apply moves_forward_refl.
Qed.

Lemma fp_skip_ws_forward (p : fp_parser_t) :
  current p <= end_ p -> moves_forward p (fp_skip_ws mem simd p).
Proof.
  intros H. pose proof (fp_skip_ws_run mem simd p H) as Hr. cbv zeta in Hr.
  destruct Hr as ((B & _) & W1 & W2 & _). unfold moves_forward. rewrite W1, W2. lia.
Qed.

Lemma fp_match_str_forward (p : fp_parser_t) (expected : fp_view_t) :
  current p <= end_ p -> 0 <= len expected ->
  moves_forward p (snd (fp_match_str mem p expected)).
Proof.
  intros H Hl. unfold fp_match_str, fp_remaining, size_wrap.
  destruct (Z.leb_spec (len expected) ((end_ p - current p) mod 2 ^ 64)) as [Hr | Hr];
    [|simpl; now apply moves_forward_refl].
  destruct (memcmp mem (current p) (data expected) (len expected) =? 0); simpl;
    [|now apply moves_forward_refl].
  pose proof (Z.mod_le (end_ p - current p) (2 ^ 64) ltac:(lia) ltac:(lia)).
  unfold moves_forward. simpl. lia.
Qed.

Lemma int64_digits_forward (fuel : nat) :
  forall p value max_val,
    current p <= end_ p ->
    moves_forward p (snd (int64_digits mem fuel p value max_val)).
Proof.
  induction fuel as [|f IH]; intros p value max_val H; cbn [int64_digits].
  - simpl. now apply moves_forward_refl.
  - destruct (negb (fp_at_end p) && isdigit (fp_peek mem p));
      [|simpl; now apply moves_forward_refl].
    destruct (_ <? value).
    + simpl. apply fp_set_error_forward. now apply moves_forward_refl.
    + pose proof (fp_advance_forward p H) as Ha.
      eapply moves_forward_trans; [exact Ha|]. apply IH.
      destruct Ha as (_ & A2 & A3). lia.
Qed.

Lemma fp_parse_int64_forward (p : fp_parser_t) :
  current p <= end_ p -> moves_forward p (snd (fp_parse_int64 mem simd p)).
Proof.
  intros H. unfold fp_parse_int64.
  pose proof (fp_skip_ws_forward p H) as Hw.
  set (p1 := fp_skip_ws mem simd p) in *. clearbody p1.
  assert (H1 : current p1 <= end_ p1) by (destruct Hw as (_ & A2 & A3); lia).
  destruct (fp_at_end p1); [simpl; now apply fp_set_error_forward|].
  assert (Hs : forall (b : bool) (p2 : fp_parser_t), moves_forward p p2 ->
            moves_forward p (snd (
              let '(negative, p) := (b, p2) in
              if negb (isdigit (fp_peek mem p))
              then (@None Z, fp_set_error p FP_ERROR_INVALID_NUMBER "Expected digit")
              else
                match int64_digits mem (Z.to_nat (end_ p - current p)) p 0
                        (if negative then INT64_MAX + 1 else INT64_MAX) with
                | (None, p) => (None, p)
                | (Some value, p) =>
                    (Some (if negative then to_int64 (- to_int64 value)
                           else to_int64 value), p)
                end))).
  { intros b p2 H2. cbv beta iota.
    destruct (negb (isdigit (fp_peek mem p2))); [simpl; now apply fp_set_error_forward|].
    assert (Hc : current p2 <= end_ p2) by (destruct H2 as (_ & A2 & A3); lia).
    pose proof (int64_digits_forward (Z.to_nat (end_ p2 - current p2)) p2 0
                  (if b then INT64_MAX + 1 else INT64_MAX) Hc) as Hd.
    destruct (int64_digits mem _ p2 0 _) as [[v|] p3]; simpl in *;
      eapply moves_forward_trans; eassumption. }
  pose proof (fp_advance_forward p1 H1) as Ha.
  destruct (Ascii.eqb (fp_peek mem p1) "-"); [|destruct (Ascii.eqb (fp_peek mem p1) "+")].
  - apply (Hs true (snd (fp_advance mem p1))). eapply moves_forward_trans; eassumption.
  - apply (Hs false (snd (fp_advance mem p1))). eapply moves_forward_trans; eassumption.
  - apply (Hs false p1). assumption.
Qed.

Lemma quoted_loop_forward (fuel : nat) :
  forall p, current p <= end_ p -> moves_forward p (quoted_loop mem fuel p).
Proof.
  induction fuel as [|f IH]; intros p H; cbn [quoted_loop].
  - now apply moves_forward_refl.
  - destruct (negb (fp_at_end p) && negb (Ascii.eqb (fp_peek mem p) QUOTE));
      [|now apply moves_forward_refl].
    pose proof (fp_advance_forward p H) as Ha.
    set (p1 := snd (fp_advance mem p)) in *. clearbody p1.
    assert (H1 : current p1 <= end_ p1) by (destruct Ha as (_ & A2 & A3); lia).
    destruct (Ascii.eqb (fp_peek mem p) BACKSLASH).
    + destruct (fp_at_end p1); [assumption|].
      pose proof (fp_advance_forward p1 H1) as Hb.
      eapply moves_forward_trans; [exact Ha|].
      eapply moves_forward_trans; [exact Hb|]. apply IH.
      destruct Hb as (_ & B2 & B3). lia.
    + eapply moves_forward_trans; [exact Ha|]. now apply IH.
Qed.

Lemma fp_parse_quoted_string_forward (p : fp_parser_t) :
  current p <= end_ p -> moves_forward p (snd (fp_parse_quoted_string mem simd p)).
Proof.
  intros H. unfold fp_parse_quoted_string.
  pose proof (fp_skip_ws_forward p H) as Hw.
  set (p1 := fp_skip_ws mem simd p) in *. clearbody p1.
  assert (H1 : current p1 <= end_ p1) by (destruct Hw as (_ & A2 & A3); lia).
  pose proof (fp_match_char_forward p1 QUOTE H1) as Hm.
  destruct (fp_match_char mem p1 QUOTE) as [opened p2]. simpl in Hm.
  assert (H2 : current p2 <= end_ p2) by (destruct Hm as (_ & A2 & A3); lia).
  pose proof (moves_forward_trans _ _ _ Hw Hm) as H02.
  destruct opened; cbn [negb]; [|simpl; now apply fp_set_error_forward].
  pose proof (quoted_loop_forward (Z.to_nat (end_ p2 - current p2)) p2 H2) as Hl.
  set (p3 := quoted_loop mem _ p2) in *. clearbody p3.
  assert (H3 : current p3 <= end_ p3) by (destruct Hl as (_ & A2 & A3); lia).
  pose proof (fp_match_char_forward p3 QUOTE H3) as Hc.
  destruct (fp_match_char mem p3 QUOTE) as [closed p4]. simpl in Hc.
  pose proof (moves_forward_trans _ _ _ H02 (moves_forward_trans _ _ _ Hl Hc)) as H04.
  destruct closed; cbn [negb]; simpl; [assumption | now apply fp_set_error_forward].
Qed.

(** [fp_parse_double] keeps the invariant only when [strtod] happens to
    stop within the scanner's range. *)
Lemma fp_parse_double_forward (strtod_consumed : list ascii -> Z) (p : fp_parser_t) :
  current p <= end_ p ->
  (forall a, a <= end_ p -> 0 <= strtod_consumed (c_string_at mem a) <= end_ p - a) ->
  moves_forward p (snd (fp_parse_double mem simd strtod_consumed p)).
Proof.
  intros H Hs. unfold fp_parse_double.
  pose proof (fp_skip_ws_forward p H) as Hw.
  set (p1 := fp_skip_ws mem simd p) in *. clearbody p1.
  destruct Hw as (A1 & A2 & A3). specialize (Hs (current p1) ltac:(lia)).
  destruct (_ =? 0); simpl.
  - apply fp_set_error_forward. unfold moves_forward. lia.
  - unfold moves_forward. simpl. lia.
Qed.

(** The operations that keep the invariant: from a scanner with
    [start <= current <= end], [fp_advance], [fp_match_char],
    [fp_match_str], [fp_skip_ws], [fp_parse_int64] and
    [fp_parse_quoted_string] keep the bounds and move [current] forward
    without passing [end]. *)
Lemma bounded_operations_keep_cursor (p : fp_parser_t) (c : ascii) (v : fp_view_t) :
  cursor_ok p -> 0 <= len v ->
  Forall (fun p' => moves_forward p p' /\ cursor_ok p')
    [ snd (fp_advance mem p); snd (fp_match_char mem p c); snd (fp_match_str mem p v);
      fp_skip_ws mem simd p; snd (fp_parse_int64 mem simd p);
      snd (fp_parse_quoted_string mem simd p) ].
Proof.
  intros Hok Hv. assert (H : current p <= end_ p) by (destruct Hok; assumption).
  assert (G : forall p', moves_forward p p' -> moves_forward p p' /\ cursor_ok p')
    by (intros p' Hp; split; [assumption | now apply (moves_forward_ok p)]).
  repeat (apply Forall_cons; [apply G|]); [ .. | apply Forall_nil];
    auto using fp_advance_forward, fp_match_char_forward, fp_match_str_forward,
      fp_skip_ws_forward, fp_parse_int64_forward, fp_parse_quoted_string_forward.
Qed.

End CursorInvariant.

Lemma fp_init_cursor_ok (input n : Z) : 0 <= n -> cursor_ok (fp_init input n).
Proof. unfold cursor_ok. simpl. lia. Qed.

(** C4 (evaluation at the failing input).  The buffer holds [123456] and the
    scanner is created over its first three bytes.  [strtod] knows nothing
    of [end]: it reads on to the terminating NUL, and [fp_parse_double]
    adds everything it consumed to [current], which ends at 6, beyond
    [end] = 3. *)
Theorem fp_parse_double_passes_end :
  forall (simd : bool) (strtod_consumed : list ascii -> Z),
    strtod_consumed (list_ascii_of_string "123456") = 6 ->
    let mem := list_ascii_of_string "123456" in
    let p := fp_init 0 3 in
    let r := fp_parse_double mem simd strtod_consumed p in
    cursor_ok p /\ fst r = true /\
    current (snd r) = 6 /\ end_ (snd r) = 3 /\ ~ cursor_ok (snd r).
Proof.
  intros simd strtod_consumed Hs. cbv zeta. unfold fp_parse_double.
  rewrite fp_skip_ws_stays by (right; reflexivity).
  change (c_string_at (list_ascii_of_string "123456") (current (fp_init 0 3)))
    with (list_ascii_of_string "123456").
  rewrite Hs. simpl. unfold cursor_ok. simpl. repeat split; lia.
Qed.

Lemma fp_parse_double_passes_end_witness :
  strtod_decimal (list_ascii_of_string "123456") = 6 /\
  ~ cursor_ok (snd (fp_parse_double (list_ascii_of_string "123456") true strtod_decimal
                      (fp_init 0 3))).
Proof.
  split; [reflexivity|].
  apply (fp_parse_double_passes_end true strtod_decimal). reflexivity.
Defined.

(* ====================================================================== *)
(** ** CSV rows *)

Section CsvRows.

Variable mem : list ascii.
Variable simd : bool.

Lemma csv_fields_extend (fuel : nat) :
  forall p count fields,
  exists more p',
    csv_fields mem simd fuel p count fields =
      (count + Z.of_nat (length more), fields ++ more, p').
Proof.
  induction fuel as [|f IH]; intros p count fields; cbn [csv_fields].
  - exists [], p. now rewrite app_nil_r, Z.add_0_r.
  - destruct (negb (fp_at_end p) && (count <? FP_CSV_MAX_FIELDS));
      [|exists [], p; now rewrite app_nil_r, Z.add_0_r].
    destruct (fp_parse_csv_field mem simd p) as [[v|] p1];
      [|exists [], p1; now rewrite app_nil_r, Z.add_0_r].
    destruct (fp_match_char mem p1 COMMA) as [[|] p2]; cbn [negb].
    + destruct (IH p2 (count + 1) (fields ++ [v])) as (more & p' & E).
      exists (v :: more), p'. rewrite E, <- app_assoc. cbn [length app].
      rewrite Nat2Z.inj_succ. do 2 f_equal. lia.
    + exists [v], p2. cbn [length]. reflexivity.
Qed.

(** Where a field comes from: the first byte that is not whitespace, or
    the byte after it when that byte opens a quoted field. *)
Lemma fp_parse_csv_field_origin (p : fp_parser_t) :
  current p <= end_ p ->
  let q := current (fp_skip_ws mem simd p) in
  forall v, fst (fp_parse_csv_field mem simd p) = Some v ->
    q < end_ p /\ (load mem q <> QUOTE /\ data v = q \/ load mem q = QUOTE /\ data v = q + 1).
Proof.
  intros Hle. cbv zeta. unfold fp_parse_csv_field.
  pose proof (fp_skip_ws_run mem simd p Hle) as H. cbv zeta in H.
  destruct H as ((B & R & S) & W1 & W2 & W3 & W4).
  set (p1 := fp_skip_ws mem simd p) in *.
  destruct (Z.le_gt_cases (end_ p1) (current p1)) as [Hend | Hlt].
  { rewrite (proj2 (fp_at_end_iff p1) Hend). discriminate. }
  rewrite (proj2 (fp_at_end_false p1) Hlt), fp_peek_load by assumption.
  destruct (Ascii.eqb_spec (load mem (current p1)) QUOTE) as [Hq | Hq].
  - intros v Hv. destruct (fp_parse_quoted_string_data mem simd p1 v Hv) as [_ Hd].
    rewrite fp_skip_ws_stays in Hd by (right; rewrite Hq; reflexivity).
    split; [lia | right; split; assumption].
  - intros v [= <-]. cbn [data]. split; [lia | left; split; [assumption | reflexivity]].
Qed.

Lemma fp_parse_csv_field_bare (p : fp_parser_t) :
  current p <= end_ p ->
  let q := current (fp_skip_ws mem simd p) in
  q < end_ p -> load mem q <> QUOTE ->
  exists v p', fp_parse_csv_field mem simd p = (Some v, p') /\ data v = q.
Proof.
  intros Hle. cbv zeta. intros Hlt Hq.
  pose proof (fp_skip_ws_run mem simd p Hle) as H. cbv zeta in H.
  destruct H as (_ & _ & W2 & _).
  unfold fp_parse_csv_field.
  set (p1 := fp_skip_ws mem simd p) in *.
  rewrite (proj2 (fp_at_end_false p1)), fp_peek_load by lia.
  destruct (Ascii.eqb_spec (load mem (current p1)) QUOTE) as [E | _]; [contradiction|].
  eexists _, _. split; reflexivity.
Qed.

Lemma csv_fields_step (f : nat) (p : fp_parser_t) (count : Z) (fields : list fp_view_t) :
  csv_fields mem simd (S f) p count fields =
    if negb (fp_at_end p) && (count <? FP_CSV_MAX_FIELDS) then
      match fp_parse_csv_field mem simd p with
      | (None, p) => (count, fields, p)
      | (Some field, p) =>
          let '(comma, p) := fp_match_char mem p COMMA in
          if negb comma then (count + 1, fields ++ [field], p)
          else csv_fields mem simd f p (count + 1) (fields ++ [field])
      end
    else (count, fields, p).
Proof. reflexivity. Qed.

(** What the first field decides for the whole line: when the first call
    of [fp_parse_csv_field] fails the line has no field, and when it
    returns a field that field is the first of the line. *)
Lemma fp_parse_csv_line_first (p : fp_parser_t) :
  match fst (fp_parse_csv_field mem simd p) with
  | Some v =>
      current p < end_ p ->
      exists rest p',
        fp_parse_csv_line mem simd p = (1 + Z.of_nat (length rest), v :: rest, p')
  | None => fst (fp_parse_csv_line mem simd p) = (0, [])
  end.
Proof.
  unfold fp_parse_csv_line. change (Z.to_nat FP_CSV_MAX_FIELDS) with (S 63).
  rewrite csv_fields_step.
  destruct (fp_parse_csv_field mem simd p) as [[v|] p1]; cbn [fst].
  - intros Hlt. rewrite (proj2 (fp_at_end_false p) Hlt).
    change (negb false && (0 <? FP_CSV_MAX_FIELDS)) with true. cbv iota.
    destruct (fp_match_char mem p1 COMMA) as [[|] p3]; cbn [negb].
    + destruct (csv_fields_extend 63 p3 (0 + 1) ([] ++ [v])) as (more & p' & E).
      rewrite E.
      destruct (fp_match_char mem p' CR) as [cr p4].
      eexists more, _. reflexivity.
    + destruct (fp_match_char mem p3 CR) as [cr p4].
      eexists [], _. reflexivity.
  - destruct (negb (fp_at_end p) && (0 <? FP_CSV_MAX_FIELDS)).
    + destruct (fp_match_char mem p1 CR) as [cr p4]. reflexivity.
    + destruct (fp_match_char mem p CR) as [cr p4]. reflexivity.
Qed.

End CsvRows.

(** C6 (evaluation at the failing input).  The input [a,] LF [b] LF has two
    rows, the first with an empty last field.  After the comma the field
    parser skips the line feed as whitespace and reads [b] as the second
    field of the first row: the caller's loop sees one row of two fields
    where the reference split sees two rows. *)
Theorem csv_row_count_differs_from_reference :
  forall simd : bool,
    let input := ["a"; ","; LF; "b"; LF]%char in
    let p := fp_init 0 5 in
    fp_parse_csv_line input simd p
      = (2, [mk_view 0 1; mk_view 3 1],
         mk_parser 0 5 5 3 1 FP_OK EmptyString) /\
    csv_rows input simd 5 p = [2] /\
    reference_rows false false [] input = [["a"; ","]; ["b"]]%char /\
    Z.of_nat (length (csv_rows input simd 5 p)) <> reference_row_count input.
Proof.
  intros [|]; vm_compute; repeat split; discriminate.
Qed.

(* ====================================================================== *)
(** ** The scenarios of the documentation *)

Example readme_numbers :
  let mem := list_ascii_of_string "42 3.14 hello" in
  let r1 := fp_parse_int64 mem true (fp_init 0 13) in
  let r2 := fp_parse_double mem true strtod_decimal (snd r1) in
  fst r1 = Some 42 /\ current (snd r1) = 2 /\ fst r2 = true /\ current (snd r2) = 7.
Proof. repeat split. Qed.

Example readme_csv :
  let input :=
    (list_ascii_of_string "name,age,city" ++ [LF] ++
     [QUOTE] ++ list_ascii_of_string "John Doe" ++ [QUOTE] ++
     list_ascii_of_string ",30," ++
     [QUOTE] ++ list_ascii_of_string "New York" ++ [QUOTE; LF] ++
     list_ascii_of_string "Jane,25,Boston" ++ [LF])%list in
  let p := fp_init 0 (Z.of_nat (length input)) in
  csv_rows input true (length input) p = [3; 3; 3] /\
  snd (fst (fp_parse_csv_line input true p)) = [mk_view 0 4; mk_view 5 3; mk_view 9 4] /\
  reference_row_count input = 3.
Proof. vm_compute. repeat split. Qed.

(* ====================================================================== *)
(** ** Views as byte strings *)

Section ViewBytes.

Variable mem : list ascii.

Lemma bytes_from_length (n : nat) (a : Z) : length (bytes_from mem n a) = n.
Proof. revert a. induction n; intros; simpl; auto. Qed.

Lemma bytes_from_firstn (k n : nat) (a : Z) :
  (k <= n)%nat -> firstn k (bytes_from mem n a) = bytes_from mem k a.
Proof.
  revert n a. induction k as [|k IH]; intros n a H; [reflexivity|].
  destruct n as [|n]; [lia|]. cbn [bytes_from firstn]. f_equal. apply IH. lia.
Qed.

Lemma bytes_from_firstn_min (k n : nat) (a : Z) :
  firstn k (bytes_from mem n a) = bytes_from mem (Nat.min k n) a.
Proof.
  destruct (Nat.le_gt_cases k n) as [H | H].
  - rewrite bytes_from_firstn by assumption. f_equal. lia.
  - rewrite firstn_all2 by (rewrite bytes_from_length; lia). f_equal. lia.
Qed.

Lemma bytes_from_skipn (k n : nat) (a : Z) :
  skipn k (bytes_from mem n a) = bytes_from mem (n - k) (a + Z.of_nat k).
Proof.
  revert n a. induction k as [|k IH]; intros n a.
  - rewrite Nat.sub_0_r, Z.add_0_r. reflexivity.
  - destruct n as [|n]; [reflexivity|]. cbn [bytes_from skipn].
    rewrite IH. simpl Nat.sub. f_equal. lia.
Qed.

Lemma memcmp_bytes_zero_iff (n : nat) (a b : Z) :
  memcmp_bytes mem n a b = 0 <-> bytes_from mem n a = bytes_from mem n b.
Proof.
  revert a b. induction n as [|n IH]; intros a b; cbn [memcmp_bytes bytes_from].
  - tauto.
  - destruct (Z.eqb_spec (byte_val (load mem a)) (byte_val (load mem b))) as [E | E].
    + apply byte_val_inj in E. rewrite IH, E. split; [intros -> | intros [= ->]]; reflexivity.
    + split; [lia | intros [= H _]; congruence].
Qed.

Lemma memcmp_bytes_swap (n : nat) (a b : Z) :
  memcmp_bytes mem n b a = - memcmp_bytes mem n a b.
Proof.
  revert a b. induction n as [|n IH]; intros a b; cbn [memcmp_bytes]; [reflexivity|].
  rewrite (Z.eqb_sym (byte_val (load mem b))).
  destruct (_ =? _); [apply IH | lia].
Qed.

(** [fp_view_equals] holds exactly for views of the same length over the
    same bytes. *)
Theorem fp_view_equals_bytes (a b : fp_view_t) :
  fp_view_equals mem a b = true <-> len a = len b /\ view_bytes mem a = view_bytes mem b.
Proof.
  unfold fp_view_equals, view_bytes, memcmp. rewrite andb_true_iff, Z.eqb_eq, Z.eqb_eq.
  rewrite memcmp_bytes_zero_iff. split; intros [H1 H2]; (split; [assumption|]);
    rewrite <- ?H1 in *; assumption.
Qed.

(** [fp_view_starts_with] holds exactly when the prefix is not longer than
    the view and its bytes are the first bytes of the view. *)
Theorem fp_view_starts_with_bytes (view prefix : fp_view_t) :
  fp_view_starts_with mem view prefix = true <->
  len prefix <= len view /\
  firstn (Z.to_nat (len prefix)) (view_bytes mem view) = view_bytes mem prefix.
Proof.
  unfold fp_view_starts_with, view_bytes, memcmp.
  rewrite andb_true_iff, Z.leb_le, Z.eqb_eq, memcmp_bytes_zero_iff.
  split; intros [H1 H2]; (split; [assumption|]).
  - rewrite bytes_from_firstn by lia. assumption.
  - rewrite bytes_from_firstn in H2 by lia. assumption.
Qed.

Lemma compare_lex (na nb : nat) (a b : Z) :
  lex_sgn (bytes_from mem na a) (bytes_from mem nb b) =
    let m := memcmp_bytes mem (Nat.min na nb) a b in
    if m =? 0 then
      if (na <? nb)%nat then -1 else if (nb <? na)%nat then 1 else 0
    else Z.sgn m.
Proof.
  revert nb a b. induction na as [|na IH]; intros nb a b.
  - destruct nb; reflexivity.
  - destruct nb as [|nb]; [reflexivity|].
    cbn [bytes_from lex_sgn Nat.min memcmp_bytes]. cbv zeta.
    destruct (byte_val (load mem a) =? byte_val (load mem b)) eqn:E.
    + rewrite IH. cbv zeta. reflexivity.
    + apply Z.eqb_neq in E.
      destruct (Z.eqb_spec (byte_val (load mem a) - byte_val (load mem b)) 0); [lia|].
      reflexivity.
Qed.

(** [fp_view_compare] orders views as byte strings, lexicographically with
    a proper prefix first: the sign of its result is the sign of that
    comparison. *)
Theorem fp_view_compare_lexicographic (a b : fp_view_t) :
  0 <= len a -> 0 <= len b ->
  Z.sgn (fp_view_compare mem a b) = lex_sgn (view_bytes mem a) (view_bytes mem b).
Proof.
  intros Ha Hb. unfold view_bytes. rewrite compare_lex. cbv zeta.
  unfold fp_view_compare, memcmp.
  assert (Hmin : Z.to_nat (if len a <? len b then len a else len b)
                 = Nat.min (Z.to_nat (len a)) (Z.to_nat (len b)))
    by (destruct (Z.ltb_spec (len a) (len b)); lia).
  rewrite Hmin.
  destruct (memcmp_bytes mem _ (data a) (data b) =? 0); [|reflexivity].
  destruct (Z.ltb_spec (len a) (len b)), (Nat.ltb_spec (Z.to_nat (len a)) (Z.to_nat (len b)));
    try lia; try reflexivity.
  destruct (Z.ltb_spec (len b) (len a)), (Nat.ltb_spec (Z.to_nat (len b)) (Z.to_nat (len a)));
    try lia; reflexivity.
Qed.

Lemma fp_view_compare_opp (a b : fp_view_t) :
  fp_view_compare mem b a = - fp_view_compare mem a b.
Proof.
  unfold fp_view_compare, memcmp.
  assert (Hmin : (if len b <? len a then len b else len a)
                 = (if len a <? len b then len a else len b))
    by (destruct (Z.ltb_spec (len a) (len b)), (Z.ltb_spec (len b) (len a)); lia).
  rewrite Hmin, memcmp_bytes_swap.
  set (m := memcmp_bytes mem _ (data a) (data b)).
  destruct (Z.eqb_spec m 0) as [E | E].
  - rewrite E. simpl.
    destruct (Z.ltb_spec (len a) (len b)), (Z.ltb_spec (len b) (len a)); lia.
  - destruct (Z.eqb_spec (- m) 0); [lia | reflexivity].
Qed.

(** Swapping the arguments of [fp_view_compare] flips the sign of the
    result: the function is a consistent comparator for sorting. *)
Theorem fp_view_compare_swap (a b : fp_view_t) :
  Z.sgn (fp_view_compare mem b a) = - Z.sgn (fp_view_compare mem a b).
Proof. rewrite fp_view_compare_opp. apply Z.sgn_opp. Qed.

(** When [offset + length] does not wrap, [fp_view_substr] is the substring
    operation on the bytes of the view, and the result lies inside it. *)
Theorem fp_view_substr_bytes (v : fp_view_t) (offset length : Z) :
  0 <= len v < 2 ^ 64 -> 0 <= offset -> 0 <= length -> offset + length < 2 ^ 64 ->
  let r := fp_view_substr v offset length in
  view_bytes mem r = firstn (Z.to_nat length) (skipn (Z.to_nat offset) (view_bytes mem v)) /\
  len r = Z.max 0 (Z.min length (len v - offset)) /\
  (len r = 0 \/ data v <= data r /\ data r + len r <= data v + len v).
Proof.
  intros Hv Ho Hl Hsum. cbv zeta. rewrite fp_view_substr_in_range by assumption.
  unfold view_bytes. rewrite bytes_from_skipn.
  destruct (Z.leb_spec (len v) offset) as [Hle | Hgt].
  - cbn [FP_VIEW_EMPTY data len]. replace (Z.to_nat (len v) - Z.to_nat offset)%nat with O by lia.
    cbn [bytes_from Z.to_nat]. rewrite firstn_nil. split; [reflexivity|]. split; [lia | now left].
  - cbn [data len]. rewrite bytes_from_firstn_min. rewrite Z2Nat.id by lia.
    split; [f_equal; lia|]. split; [lia | right; lia].
Qed.

End ViewBytes.

Lemma fp_view_compare_lexicographic_witness :
  let mem := list_ascii_of_string "abcabd" in
  Z.sgn (fp_view_compare mem (mk_view 0 3) (mk_view 3 3)) = -1 /\
  lex_sgn (view_bytes mem (mk_view 0 3)) (view_bytes mem (mk_view 3 3)) = -1.
Proof.
  split; [|reflexivity].
  rewrite (fp_view_compare_lexicographic (list_ascii_of_string "abcabd")
             (mk_view 0 3) (mk_view 3 3)); [reflexivity | simpl; lia | simpl; lia].
Defined.

Lemma fp_view_substr_bytes_witness :
  let mem := list_ascii_of_string "hello world" in
  view_bytes mem (fp_view_substr (mk_view 0 11) 6 100) = list_ascii_of_string "world".
Proof.
  cbv zeta.
  rewrite (proj1 (fp_view_substr_bytes (list_ascii_of_string "hello world")
                    (mk_view 0 11) 6 100 ltac:(simpl; lia) ltac:(lia) ltac:(lia) ltac:(lia))).
  reflexivity.
Defined.

(* ====================================================================== *)
(** ** Cursor primitives *)

Section Primitives.

Variable mem : list ascii.
Variable simd : bool.

Lemma track_to_advance_by (n : nat) :
  forall p q, current p + Z.of_nat n = q -> q <= end_ p ->
    track_to mem n p q = advance_by mem n p.
Proof.
  induction n as [|n IH]; intros p q Hq Hend; [reflexivity|].
  cbn [track_to advance_by].
  rewrite (proj2 (Z.ltb_lt (current p) q)) by lia.
  rewrite fp_advance_step by lia. cbn [snd].
  pose proof (step_over_fields p (load mem (current p))) as (_ & S2 & S3 & _).
  apply IH; [rewrite S2; lia | rewrite S3; lia].
Qed.

(** [fp_skip_ws] is [fp_advance] called once for every byte of the maximal
    whitespace run: line and column are tracked as [fp_advance] tracks
    them. *)
Theorem fp_skip_ws_is_repeated_advance (p : fp_parser_t) (q : Z) :
  ws_run mem (current p) (end_ p) q ->
  fp_skip_ws mem simd p = advance_by mem (Z.to_nat (q - current p)) p.
Proof.
  intros Hrun. assert (Hle : current p <= end_ p) by (destruct Hrun; lia).
  unfold fp_skip_ws.
  rewrite (ws_run_unique mem _ _ _ _ (fp_skip_whitespace_run mem simd _ _ Hle) Hrun).
  destruct Hrun as (B & _). apply track_to_advance_by; lia.
Qed.

(** Skipping whitespace twice is skipping it once. *)
Theorem fp_skip_ws_idempotent (p : fp_parser_t) :
  fp_skip_ws mem simd (fp_skip_ws mem simd p) = fp_skip_ws mem simd p.
Proof.
  destruct (Z.le_gt_cases (current p) (end_ p)) as [Hle | Hgt].
  - pose proof (fp_skip_ws_run mem simd p Hle) as H. cbv zeta in H.
    destruct H as ((B & R & S) & W1 & W2 & _).
    apply fp_skip_ws_stays. rewrite W2. destruct S as [-> | S]; [left; lia | now right].
  - rewrite (fp_skip_ws_stays mem simd p) by (left; lia).
    apply fp_skip_ws_stays. left. lia.
Qed.

(** [fp_match_char] on a byte other than NUL: it succeeds exactly on that
    byte inside the buffer and then steps over it; otherwise it leaves the
    scanner as it is, error slot included.  At the end of the input
    [fp_peek] reads NUL, so matching NUL succeeds there without moving. *)
Theorem fp_match_char_outcome (p : fp_parser_t) (c : ascii) :
  (c <> NUL ->
   (fst (fp_match_char mem p c) = true <-> current p < end_ p /\ load mem (current p) = c) /\
   (fst (fp_match_char mem p c) = true -> snd (fp_match_char mem p c) = step_over p c) /\
   (fst (fp_match_char mem p c) = false -> snd (fp_match_char mem p c) = p)) /\
  (end_ p <= current p -> fp_match_char mem p NUL = (true, p)).
Proof.
  split.
  - intros Hc. destruct (Z.le_gt_cases (end_ p) (current p)) as [Hend | Hlt].
    + rewrite fp_match_char_miss by auto. cbn [fst snd].
      repeat split; try discriminate; try reflexivity. intros [H _]. lia.
    + destruct (Ascii.eqb_spec (load mem (current p)) c) as [E | E].
      * rewrite fp_match_char_hit by assumption. cbn [fst snd].
        repeat split; try discriminate; auto.
      * rewrite fp_match_char_miss by auto. cbn [fst snd].
        repeat split; try discriminate; try reflexivity. intros [_ H]. contradiction.
  - intros Hend. unfold fp_match_char, fp_advance.
    rewrite fp_peek_at_end by assumption.
    rewrite (proj2 (fp_at_end_iff p) Hend). reflexivity.
Qed.


End Primitives.

Lemma fp_match_char_outcome_witness :
  let mem := list_ascii_of_string "a," in
  fst (fp_match_char mem (fp_init 0 2) ",") = false /\
  snd (fp_match_char mem (fp_init 0 2) ",") = fp_init 0 2 /\
  fp_match_char mem (fp_init 2 0) NUL = (true, fp_init 2 0).
Proof.
  destruct (fp_match_char_outcome (list_ascii_of_string "a,") (fp_init 0 2) ",") as [H _].
  destruct (H ltac:(discriminate)) as (_ & _ & Hmiss).
  split; [reflexivity|]. split; [apply Hmiss; reflexivity|].
  apply (proj2 (fp_match_char_outcome (list_ascii_of_string "a,") (fp_init 2 0) NUL)).
  simpl. lia.
Defined.

Lemma fp_skip_ws_is_repeated_advance_witness :
  let mem := [SPACE; LF; TAB; "x"]%char in
  fp_skip_ws mem true (fp_init 0 4) = advance_by mem 3 (fp_init 0 4) /\
  line (fp_skip_ws mem true (fp_init 0 4)) = 2 /\
  column (fp_skip_ws mem true (fp_init 0 4)) = 2.
Proof.
  split; [|split; reflexivity].
  apply (fp_skip_ws_is_repeated_advance [SPACE; LF; TAB; "x"]%char true (fp_init 0 4) 3).
  unfold ws_run. simpl. split; [lia|]. split; [|now right].
  intros a Ha.
  assert (a = 0 \/ a = 1 \/ a = 2) as [-> | [-> | ->]] by lia; reflexivity.
Defined.


(* ====================================================================== *)
(** ** The error slot is sticky *)

Section StickyError.

Variable mem : list ascii.
Variable simd : bool.
Variable strtod_consumed : list ascii -> Z.

Lemma same_error_refl (p : fp_parser_t) : same_error p p.
Proof. split; reflexivity. Qed.

Lemma same_error_trans (p q r : fp_parser_t) :
  same_error p q -> same_error q r -> same_error p r.
Proof. unfold same_error. intros [A1 A2] [B1 B2]. split; congruence. Qed.

Lemma step_over_same_error (p : fp_parser_t) (c : ascii) : same_error p (step_over p c).
Proof. unfold same_error, step_over. destruct (Ascii.eqb c LF); split; reflexivity. Qed.

Lemma fp_advance_same_error (p : fp_parser_t) : same_error p (snd (fp_advance mem p)).
Proof.
  unfold fp_advance. destruct (fp_at_end p); cbn [snd];
    [apply same_error_refl | apply step_over_same_error].
Qed.

Lemma track_to_same_error (fuel : nat) :
  forall p q, same_error p (track_to mem fuel p q).
Proof.
  induction fuel as [|f IH]; intros p q; cbn [track_to]; [apply same_error_refl|].
  destruct (current p <? q); [|apply same_error_refl].
  eapply same_error_trans; [apply step_over_same_error | apply IH].
Qed.

Lemma fp_skip_ws_same_error (p : fp_parser_t) : same_error p (fp_skip_ws mem simd p).
Proof. apply track_to_same_error. Qed.

Lemma fp_match_char_same_error (p : fp_parser_t) (c : ascii) :
  same_error p (snd (fp_match_char mem p c)).
Proof.
  unfold fp_match_char. destruct (Ascii.eqb _ c); cbn [snd];
    [apply fp_advance_same_error | apply same_error_refl].
Qed.

Lemma fp_match_str_same_error (p : fp_parser_t) (v : fp_view_t) :
  same_error p (snd (fp_match_str mem p v)).
Proof.
  unfold fp_match_str. destruct (_ && _); cbn [snd]; split; reflexivity.
Qed.

Lemma int64_digits_error (fuel : nat) :
  forall p value max_val,
    let r := int64_digits mem fuel p value max_val in
    match fst r with
    | Some _ => same_error p (snd r)
    | None => error_code (snd r) = FP_ERROR_OVERFLOW
    end.
Proof.
  induction fuel as [|f IH]; intros p value max_val; cbn [int64_digits]; cbv zeta.
  - apply same_error_refl.
  - destruct (negb (fp_at_end p) && isdigit (fp_peek mem p)); [|apply same_error_refl].
    destruct (_ <? value); [reflexivity|].
    specialize (IH (snd (fp_advance mem p))
                  (size_wrap (value * 10 + size_wrap (byte_val (fp_peek mem p) - 48))) max_val).
    cbv zeta in IH.
    destruct (fst (int64_digits mem f _ _ max_val)); [|assumption].
    eapply same_error_trans; [apply fp_advance_same_error | exact IH].
Qed.

Lemma fp_parse_int64_error (p : fp_parser_t) :
  let r := fp_parse_int64 mem simd p in
  match fst r with
  | Some _ => same_error p (snd r)
  | None => In (error_code (snd r))
              [FP_ERROR_EOF; FP_ERROR_INVALID_NUMBER; FP_ERROR_OVERFLOW]
  end.
Proof.
  cbv zeta. unfold fp_parse_int64.
  pose proof (fp_skip_ws_same_error p) as Hw.
  set (p1 := fp_skip_ws mem simd p) in *. clearbody p1.
  destruct (fp_at_end p1); [simpl; tauto|].
  assert (Hs : forall (b : bool) (p2 : fp_parser_t), same_error p p2 ->
            let r := (let '(negative, p) := (b, p2) in
                if negb (isdigit (fp_peek mem p))
                then (@None Z, fp_set_error p FP_ERROR_INVALID_NUMBER "Expected digit")
                else
                  match int64_digits mem (Z.to_nat (end_ p - current p)) p 0
                          (if negative then INT64_MAX + 1 else INT64_MAX) with
                  | (None, p) => (None, p)
                  | (Some value, p) =>
                      (Some (if negative then to_int64 (- to_int64 value)
                             else to_int64 value), p)
                  end) in
            match fst r with
            | Some _ => same_error p (snd r)
            | None => In (error_code (snd r))
                        [FP_ERROR_EOF; FP_ERROR_INVALID_NUMBER; FP_ERROR_OVERFLOW]
            end).
  { intros b p2 H2. cbv beta iota zeta.
    destruct (negb (isdigit (fp_peek mem p2))); [simpl; tauto|].
    pose proof (int64_digits_error (Z.to_nat (end_ p2 - current p2)) p2 0
                  (if b then INT64_MAX + 1 else INT64_MAX)) as Hd. cbv zeta in Hd.
    destruct (int64_digits mem _ p2 0 _) as [[v|] p3]; cbn [fst snd] in *.
    - eapply same_error_trans; eassumption.
    - rewrite Hd. simpl. tauto. }
  pose proof (fp_advance_same_error p1) as Ha.
  destruct (Ascii.eqb (fp_peek mem p1) "-"); [|destruct (Ascii.eqb (fp_peek mem p1) "+")].
  - apply (Hs true (snd (fp_advance mem p1))). eapply same_error_trans; eassumption.
  - apply (Hs false (snd (fp_advance mem p1))). eapply same_error_trans; eassumption.
  - apply (Hs false p1). assumption.
Qed.

Lemma quoted_loop_same_error (fuel : nat) :
  forall p, same_error p (quoted_loop mem fuel p).
Proof.
  induction fuel as [|f IH]; intros p; cbn [quoted_loop]; [apply same_error_refl|].
  destruct (_ && _); [|apply same_error_refl].
  pose proof (fp_advance_same_error p) as Ha.
  destruct (Ascii.eqb _ BACKSLASH).
  - destruct (fp_at_end _); [assumption|].
    eapply same_error_trans; [exact Ha|].
    eapply same_error_trans; [apply fp_advance_same_error | apply IH].
  - eapply same_error_trans; [exact Ha | apply IH].
Qed.

Lemma fp_parse_quoted_string_error (p : fp_parser_t) :
  let r := fp_parse_quoted_string mem simd p in
  match fst r with
  | Some _ => same_error p (snd r)
  | None => error_code (snd r) = FP_ERROR_UNTERMINATED_STRING
  end.
Proof.
  cbv zeta. unfold fp_parse_quoted_string.
  pose proof (fp_skip_ws_same_error p) as Hw.
  set (p1 := fp_skip_ws mem simd p) in *. clearbody p1.
  pose proof (fp_match_char_same_error p1 QUOTE) as Hm.
  destruct (fp_match_char mem p1 QUOTE) as [[|] p2]; cbn [negb snd] in *; [|reflexivity].
  pose proof (quoted_loop_same_error (Z.to_nat (end_ p2 - current p2)) p2) as Hl.
  set (p3 := quoted_loop mem _ p2) in *. clearbody p3.
  pose proof (fp_match_char_same_error p3 QUOTE) as Hc.
  destruct (fp_match_char mem p3 QUOTE) as [[|] p4]; cbn [negb fst snd] in *; [|reflexivity].
  eapply same_error_trans; [exact Hw|].
  eapply same_error_trans; [exact Hm|].
  eapply same_error_trans; eassumption.
Qed.

Lemma fp_parse_double_error (p : fp_parser_t) :
  let r := fp_parse_double mem simd strtod_consumed p in
  if fst r then same_error p (snd r)
  else error_code (snd r) = FP_ERROR_INVALID_NUMBER.
Proof.
  cbv zeta. unfold fp_parse_double.
  pose proof (fp_skip_ws_same_error p) as Hw.
  set (p1 := fp_skip_ws mem simd p) in *. clearbody p1.
  destruct (_ =? 0); cbn [fst snd]; [reflexivity|].
  destruct Hw as [W1 W2]. split; assumption.
Qed.

(** A parse function that succeeds leaves the error slot as it found it,
    and one that fails has set its own code: [fp_parse_int64] one of EOF,
    INVALID_NUMBER and OVERFLOW, [fp_parse_quoted_string]
    UNTERMINATED_STRING, [fp_parse_double] INVALID_NUMBER. *)
Theorem parse_error_outcome (p : fp_parser_t) :
  (let r := fp_parse_int64 mem simd p in
   match fst r with
   | Some _ => same_error p (snd r)
   | None => In (error_code (snd r))
               [FP_ERROR_EOF; FP_ERROR_INVALID_NUMBER; FP_ERROR_OVERFLOW]
   end) /\
  (let r := fp_parse_quoted_string mem simd p in
   match fst r with
   | Some _ => same_error p (snd r)
   | None => error_code (snd r) = FP_ERROR_UNTERMINATED_STRING
   end) /\
  (let r := fp_parse_double mem simd strtod_consumed p in
   if fst r then same_error p (snd r)
   else error_code (snd r) = FP_ERROR_INVALID_NUMBER).
Proof.
  split; [apply fp_parse_int64_error|].
  split; [apply fp_parse_quoted_string_error | apply fp_parse_double_error].
Qed.

(** No operation of the scanner clears a pending error: when
    [fp_has_error] holds before [fp_advance], [fp_skip_ws],
    [fp_match_char], [fp_match_str], [fp_parse_int64],
    [fp_parse_quoted_string] or [fp_parse_double], it holds afterwards,
    whether the operation succeeded or not. *)
Theorem error_is_never_cleared (p : fp_parser_t) (c : ascii) (v : fp_view_t) :
  fp_has_error p = true ->
  Forall (fun p' => fp_has_error p' = true)
    [ snd (fp_advance mem p); fp_skip_ws mem simd p; snd (fp_match_char mem p c);
      snd (fp_match_str mem p v); snd (fp_parse_int64 mem simd p);
      snd (fp_parse_quoted_string mem simd p);
      snd (fp_parse_double mem simd strtod_consumed p) ].
Proof.
  intros H.
  assert (K : forall p', same_error p p' -> fp_has_error p' = true)
    by (intros p' [E _]; unfold fp_has_error in *; now rewrite E).
  repeat (apply Forall_cons; [|]); [ .. | apply Forall_nil].
  - apply K, fp_advance_same_error.
  - apply K, fp_skip_ws_same_error.
  - apply K, fp_match_char_same_error.
  - apply K, fp_match_str_same_error.
  - pose proof (fp_parse_int64_error p) as E. cbv zeta in E.
    destruct (fst (fp_parse_int64 mem simd p)); [now apply K|].
    unfold fp_has_error. simpl in E.
    destruct E as [<- | [<- | [<- | []]]]; reflexivity.
  - pose proof (fp_parse_quoted_string_error p) as E. cbv zeta in E.
    destruct (fst (fp_parse_quoted_string mem simd p)); [now apply K|].
    unfold fp_has_error. now rewrite E.
  - pose proof (fp_parse_double_error p) as E. cbv zeta in E.
    destruct (fst (fp_parse_double mem simd strtod_consumed p)); [now apply K|].
    unfold fp_has_error. now rewrite E.
Qed.

End StickyError.

(** An overflow is recorded and a byte is consumed afterwards: the overflow
    code is still there. *)
Lemma error_is_never_cleared_witness :
  let mem := list_ascii_of_string "99999999999999999999" in
  let p := snd (fp_parse_int64 mem true (fp_init 0 20)) in
  error_code p = FP_ERROR_OVERFLOW /\
  fp_has_error (snd (fp_advance mem p)) = true.
Proof.
  split; [reflexivity|].
  pose proof (error_is_never_cleared (list_ascii_of_string "99999999999999999999") true
                strtod_decimal
                (snd (fp_parse_int64 (list_ascii_of_string "99999999999999999999") true
                        (fp_init 0 20))) "x" (mk_view 0 0) eq_refl) as H.
  apply Forall_inv in H. exact H.
Defined.

(* ====================================================================== *)
(** ** Integer parsing on any digit string *)

Section ParseInt64Exact.

Variable mem : list ascii.
Variable simd : bool.

Lemma bytes_at_app (l1 l2 : list ascii) :
  forall a, bytes_at mem a (l1 ++ l2) <->
            bytes_at mem a l1 /\ bytes_at mem (a + Z.of_nat (length l1)) l2.
Proof.
  induction l1 as [|c l1 IH]; intros a.
  - simpl. rewrite Z.add_0_r. tauto.
  - cbn [app bytes_at length]. rewrite IH, Nat2Z.inj_succ.
    replace (a + 1 + Z.of_nat (length l1)) with (a + Z.succ (Z.of_nat (length l1))) by lia.
    tauto.
Qed.

(** The digit loop on the digits [ds], followed by the end of the buffer or
    by a byte that is no digit: the overflow check is exact. *)
Lemma int64_digits_exact (ds : list ascii) :
  forall (fuel : nat) (p : fp_parser_t) (value max_val : Z),
    bytes_at mem (current p) ds ->
    Forall (fun c => isdigit c = true) ds ->
    let e := current p + Z.of_nat (length ds) in
    e <= end_ p -> (e = end_ p \/ isdigit (load mem e) = false) ->
    (length ds <= fuel)%nat ->
    0 <= value <= max_val -> max_val < 2 ^ 64 ->
    let r := int64_digits mem fuel p value max_val in
    if digits_value value ds <=? max_val
    then fst r = Some (digits_value value ds) /\ current (snd r) = e
    else fst r = None /\ error_code (snd r) = FP_ERROR_OVERFLOW /\
         current p <= current (snd r) < e.
Proof.
  induction ds as [|c ds IH]; intros fuel p value max_val Hb Hd e He Hstop Hf Hv Hmax;
    subst e; cbv zeta.
  - cbn [length] in *. rewrite Z.add_0_r in *. unfold digits_value. cbn [fold_left].
    rewrite (proj2 (Z.leb_le value max_val)) by lia.
    destruct fuel as [|f]; [split; reflexivity|]. cbn [int64_digits].
    destruct Hstop as [Hend | Hnd].
    + rewrite (proj2 (fp_at_end_iff p)) by lia. split; reflexivity.
    + destruct (Z.le_gt_cases (end_ p) (current p)) as [Hend | Hlt].
      * rewrite (proj2 (fp_at_end_iff p)) by lia. split; reflexivity.
      * rewrite (proj2 (fp_at_end_false p)), fp_peek_load, Hnd by lia. split; reflexivity.
  - destruct fuel as [|f]; [simpl in Hf; lia|].
    destruct Hb as [Hc Hb]. apply Forall_cons_iff in Hd. destruct Hd as [Hdc Hds].
    cbn [length] in *. rewrite Nat2Z.inj_succ in *.
    assert (Hlt : current p < end_ p) by lia.
    cbn [int64_digits]. rewrite fp_advance_step, fp_peek_load by assumption.
    rewrite (proj2 (fp_at_end_false p) Hlt), Hc, Hdc. cbn [negb andb snd].
    pose proof (isdigit_range _ Hdc) as Hr.
    change (digits_value value (c :: ds))
      with (digits_value (value * 10 + (byte_val c - 48)) ds).
    pose proof (digits_value_mono ds (value * 10 + (byte_val c - 48)) Hds ltac:(lia)) as Hmono.
    unfold size_wrap. rewrite (Z.mod_small (byte_val c - 48)) by lia.
    destruct (Z.ltb_spec ((max_val - (byte_val c - 48)) / 10) value) as [Hov | Hok].
    + assert (max_val < value * 10 + (byte_val c - 48)).
      { pose proof (Z.mul_succ_div_gt (max_val - (byte_val c - 48)) 10 ltac:(lia)). lia. }
      rewrite (proj2 (Z.leb_gt _ _)) by lia. cbn [fst snd fp_set_error error_code current].
      repeat split; lia.
    + assert (value * 10 + (byte_val c - 48) <= max_val).
      { pose proof (Z.mul_div_le (max_val - (byte_val c - 48)) 10 ltac:(lia)). lia. }
      rewrite (Z.mod_small (value * 10 + (byte_val c - 48))) by lia.
      pose proof (step_over_fields p c) as (S1 & S2 & S3 & S4 & S5).
      specialize (IH f (step_over p c) (value * 10 + (byte_val c - 48)) max_val).
      rewrite S2, S3 in IH. cbv zeta in IH.
      replace (current p + 1 + Z.of_nat (length ds))
        with (current p + Z.succ (Z.of_nat (length ds))) in IH by lia.
      specialize (IH Hb Hds ltac:(lia) Hstop ltac:(lia) ltac:(lia) Hmax).
      destruct (_ <=? max_val); [exact IH|].
      destruct IH as (I1 & I2 & I3). repeat split; try assumption; lia.
Qed.

(** [fp_parse_int64] on an optional sign and a digit string [ds] that ends
    at the end of the buffer or before a byte that is no digit, after any
    whitespace: the call succeeds exactly when the magnitude does not
    exceed 2^63 - 1 (2^63 after a minus sign); it then writes the signed
    value and stops right behind the digits, leading zeros included;
    otherwise it fails with [FP_ERROR_OVERFLOW], the cursor left inside the
    digits. *)
Theorem fp_parse_int64_exact (p : fp_parser_t) (sign ds : list ascii) :
  current p <= end_ p ->
  In sign [[]; ["+"%char]; ["-"%char]] ->
  ds <> [] -> Forall (fun c => isdigit c = true) ds ->
  let q := current (fp_skip_ws mem simd p) in
  bytes_at mem q (sign ++ ds) ->
  let d := q + Z.of_nat (length sign) in
  let e := d + Z.of_nat (length ds) in
  e <= end_ p -> (e = end_ p \/ isdigit (load mem e) = false) ->
  let m := digits_value 0 ds in
  let negative := match sign with ["-"%char] => true | _ => false end in
  let r := fp_parse_int64 mem simd p in
  if m <=? (if negative then 2 ^ 63 else 2 ^ 63 - 1)
  then fst r = Some (if negative then - m else m) /\ current (snd r) = e
  else fst r = None /\ error_code (snd r) = FP_ERROR_OVERFLOW /\
       d <= current (snd r) < e.
Proof.
  intros Hle Hsign Hne Hd q Hb d e He Hstop m negative r.
  pose proof (fp_skip_ws_run mem simd p Hle) as H. cbv zeta in H.
  destruct H as ((B & _) & _ & W2 & _). fold q in B.
  subst r. unfold fp_parse_int64.
  set (p1 := fp_skip_ws mem simd p) in *.
  assert (Hq : current p1 = q) by reflexivity. clearbody p1.
  apply bytes_at_app in Hb. destruct Hb as [Hbs Hbd]. fold d in Hbd.
  assert (Hlen : (0 < length ds)%nat) by (destruct ds; [congruence | simpl; lia]).
  assert (Hpeekd : forall p2, current p2 = d -> end_ p2 = end_ p ->
                     isdigit (fp_peek mem p2) = true).
  { intros p2 H1 H2. rewrite fp_peek_load by lia. rewrite H1.
    destruct ds as [|c ds']; [congruence|]. destruct Hbd as [-> _].
    now apply Forall_cons_iff in Hd. }
  assert (Hloop : forall p2 max_val, current p2 = d -> end_ p2 = end_ p ->
            0 <= max_val < 2 ^ 64 ->
            let r := int64_digits mem (Z.to_nat (end_ p2 - current p2)) p2 0 max_val in
            if m <=? max_val
            then fst r = Some m /\ current (snd r) = e
            else fst r = None /\ error_code (snd r) = FP_ERROR_OVERFLOW /\
                 d <= current (snd r) < e).
  { intros p2 max_val H1 H2 Hmax.
    pose proof (int64_digits_exact ds (Z.to_nat (end_ p2 - current p2)) p2 0 max_val) as E.
    rewrite H1, H2 in *. cbv zeta in E. fold e in E. apply E; try assumption; lia. }
  rewrite (proj2 (fp_at_end_false p1)) by (rewrite Hq, W2; unfold e, d in *; lia).
  destruct Hsign as [<- | [<- | [<- | []]]]; cbn [length app] in *.
  - (* no sign: the first byte is a digit *)
    assert (Hd0 : d = q) by (unfold d; simpl; lia).
    pose proof (Hpeekd p1 ltac:(lia) W2) as Hdig.
    rewrite fp_peek_load in Hdig |- * by lia.
    destruct (isdigit_not_other _ Hdig) as (_ & M & P & _). rewrite M, P.
    cbv beta iota. rewrite (Hpeekd p1 ltac:(lia) W2). cbn [negb].
    specialize (Hloop p1 INT64_MAX ltac:(lia) W2 ltac:(unfold INT64_MAX; lia)).
    cbv zeta in Hloop. unfold INT64_MAX in *. subst negative. cbv iota.
    destruct (int64_digits mem _ p1 0 (2 ^ 63 - 1)) as [[v|] p3]; cbn [fst snd] in *;
      destruct (Z.leb_spec m (2 ^ 63 - 1)).
    + destruct Hloop as [[= ->] ->]. split; [|reflexivity].
      rewrite to_int64_small; [reflexivity|].
      pose proof (digits_value_mono ds 0 Hd ltac:(lia)). fold m in H0. lia.
    + destruct Hloop as [Hx _]. discriminate.
    + destruct Hloop as [Hx _]. discriminate.
    + exact Hloop.
  - (* a plus sign *)
    destruct Hbs as [Hc _].
    assert (Hd0 : d = q + 1) by (unfold d; simpl; lia).
    rewrite fp_peek_load, fp_advance_step by lia. rewrite Hq, Hc.
    cbn [Ascii.eqb Bool.eqb snd]. cbv beta iota.
    pose proof (step_over_fields p1 "+") as (S1 & S2 & S3 & _).
    set (p2 := step_over p1 "+") in *. clearbody p2.
    rewrite (Hpeekd p2 ltac:(lia) ltac:(congruence)). cbn [negb].
    specialize (Hloop p2 INT64_MAX ltac:(lia) ltac:(congruence) ltac:(unfold INT64_MAX; lia)).
    cbv zeta in Hloop. unfold INT64_MAX in *. subst negative. cbv iota.
    destruct (int64_digits mem _ p2 0 (2 ^ 63 - 1)) as [[v|] p3]; cbn [fst snd] in *;
      destruct (Z.leb_spec m (2 ^ 63 - 1)).
    + destruct Hloop as [[= ->] ->]. split; [|reflexivity].
      rewrite to_int64_small; [reflexivity|].
      pose proof (digits_value_mono ds 0 Hd ltac:(lia)). fold m in H0. lia.
    + destruct Hloop as [Hx _]. discriminate.
    + destruct Hloop as [Hx _]. discriminate.
    + exact Hloop.
  - (* a minus sign *)
    destruct Hbs as [Hc _].
    assert (Hd0 : d = q + 1) by (unfold d; simpl; lia).
    rewrite fp_peek_load, fp_advance_step by lia. rewrite Hq, Hc.
    cbn [Ascii.eqb Bool.eqb snd]. cbv beta iota.
    pose proof (step_over_fields p1 "-") as (S1 & S2 & S3 & _).
    set (p2 := step_over p1 "-") in *. clearbody p2.
    rewrite (Hpeekd p2 ltac:(lia) ltac:(congruence)). cbn [negb].
    specialize (Hloop p2 (INT64_MAX + 1) ltac:(lia) ltac:(congruence)
                  ltac:(unfold INT64_MAX; lia)).
    cbv zeta in Hloop. unfold INT64_MAX in *. subst negative. cbv iota.
    replace (2 ^ 63 - 1 + 1) with (2 ^ 63) in * by lia.
    destruct (int64_digits mem _ p2 0 (2 ^ 63)) as [[v|] p3]; cbn [fst snd] in *;
      destruct (Z.leb_spec m (2 ^ 63)).
    + destruct Hloop as [[= ->] ->]. split; [|reflexivity].
      rewrite to_int64_neg_magnitude; [reflexivity|].
      pose proof (digits_value_mono ds 0 Hd ltac:(lia)). fold m in H0. lia.
    + destruct Hloop as [Hx _]. discriminate.
    + destruct Hloop as [Hx _]. discriminate.
    + exact Hloop.
Qed.

(** The two ways [fp_parse_int64] rejects its input before any digit: only
    whitespace is left, which gives [FP_ERROR_EOF]; or the byte after the
    optional sign is no digit (or is missing), which gives
    [FP_ERROR_INVALID_NUMBER] with the sign already consumed. *)
Theorem fp_parse_int64_rejects (p : fp_parser_t) :
  current p <= end_ p ->
  let q := current (fp_skip_ws mem simd p) in
  let r := fp_parse_int64 mem simd p in
  (end_ p <= q ->
     fst r = None /\ error_code (snd r) = FP_ERROR_EOF /\ current (snd r) = q) /\
  (q < end_ p ->
     let s := if Ascii.eqb (load mem q) "-" || Ascii.eqb (load mem q) "+" then 1 else 0 in
     end_ p <= q + s \/ isdigit (load mem (q + s)) = false ->
     fst r = None /\ error_code (snd r) = FP_ERROR_INVALID_NUMBER /\
     current (snd r) = q + s).
Proof.
  intros Hle q r.
  pose proof (fp_skip_ws_run mem simd p Hle) as H. cbv zeta in H.
  destruct H as ((B & _) & _ & W2 & _). fold q in B.
  subst r. unfold fp_parse_int64.
  set (p1 := fp_skip_ws mem simd p) in *.
  assert (Hq : current p1 = q) by reflexivity. clearbody p1.
  split.
  - intros Hend. rewrite (proj2 (fp_at_end_iff p1)) by lia. repeat split; try assumption; try lia.
  - intros Hlt.
    set (s := if Ascii.eqb (load mem q) "-" || Ascii.eqb (load mem q) "+" then 1 else 0).
    intros Hs. rewrite (proj2 (fp_at_end_false p1)) by lia.
    assert (Hnd : forall p2, current p2 = q + s -> end_ p2 = end_ p ->
                    isdigit (fp_peek mem p2) = false).
    { intros p2 H1 H2. destruct (Z.le_gt_cases (end_ p2) (current p2)).
      - rewrite fp_peek_at_end by assumption. reflexivity.
      - rewrite fp_peek_load by assumption. rewrite H1. destruct Hs; [lia | assumption]. }
    rewrite fp_peek_load, fp_advance_step by lia. rewrite Hq. cbn [snd].
    pose proof (step_over_fields p1 (load mem q)) as (S1 & S2 & S3 & _).
    rewrite Hq in S2. subst s.
    destruct (Ascii.eqb (load mem q) "-"); cbn [orb] in *.
    + cbv beta iota. rewrite Hnd by congruence. cbn [negb fst snd fp_set_error error_code current].
      repeat split; try assumption; try lia.
    + destruct (Ascii.eqb (load mem q) "+"); cbv beta iota.
      * rewrite Hnd by congruence. cbn [negb fst snd fp_set_error error_code current].
        repeat split; try assumption; try lia.
      * rewrite Hnd by (rewrite ?Hq; (lia || assumption)).
        cbn [negb fst snd fp_set_error error_code current]. repeat split; try assumption; try lia.
Qed.

End ParseInt64Exact.

Lemma fp_parse_int64_exact_witness :
  let mem := list_ascii_of_string "  +007;" in
  fst (fp_parse_int64 mem true (fp_init 0 7)) = Some 7 /\
  current (snd (fp_parse_int64 mem true (fp_init 0 7))) = 6.
Proof.
  apply (fp_parse_int64_exact (list_ascii_of_string "  +007;") true (fp_init 0 7)
           ["+"%char] (list_ascii_of_string "007")).
  - simpl. lia.
  - simpl. tauto.
  - discriminate.
  - repeat constructor.
  - simpl. repeat split.
  - simpl. lia.
  - right. reflexivity.
Defined.

Lemma fp_parse_int64_rejects_witness :
  let mem := list_ascii_of_string " -x" in
  let r := fp_parse_int64 mem true (fp_init 0 3) in
  fst r = None /\ error_code (snd r) = FP_ERROR_INVALID_NUMBER /\ current (snd r) = 2.
Proof.
  apply (proj2 (fp_parse_int64_rejects (list_ascii_of_string " -x") true (fp_init 0 3)
                  ltac:(simpl; lia))).
  - simpl. lia.
  - right. reflexivity.
Defined.

(* ====================================================================== *)
(** ** CSV fields and lines *)

Section CsvFields.

Variable mem : list ascii.
Variable simd : bool.

Lemma bare_loop_stops (fuel : nat) :
  forall p, current p <= end_ p -> end_ p - current p <= Z.of_nat fuel ->
    let p' := bare_loop mem fuel p in
    moves_forward p p' /\ same_error p p' /\
    (forall a, current p <= a < current p' -> is_delim (load mem a) = false) /\
    (current p' = end_ p \/ is_delim (load mem (current p')) = true).
Proof.
  induction fuel as [|f IH]; intros p Hle Hf; cbn [bare_loop]; cbv zeta.
  - split; [now apply moves_forward_refl|]. split; [apply same_error_refl|].
    split; [intros; lia | left; lia].
  - destruct (Z.le_gt_cases (end_ p) (current p)) as [Hend | Hlt].
    + rewrite (proj2 (fp_at_end_iff p) Hend). cbn [negb andb].
      split; [now apply moves_forward_refl|]. split; [apply same_error_refl|].
      split; [intros; lia | left; lia].
    + rewrite (proj2 (fp_at_end_false p) Hlt), fp_peek_load by assumption. cbn [negb andb].
      destruct (is_delim (load mem (current p))) eqn:Ed.
      * assert (E : negb (Ascii.eqb (load mem (current p)) COMMA)
                    && negb (Ascii.eqb (load mem (current p)) LF)
                    && negb (Ascii.eqb (load mem (current p)) CR) = false).
        { unfold is_delim in Ed. destruct (Ascii.eqb _ COMMA), (Ascii.eqb _ LF), (Ascii.eqb _ CR);
            simpl in *; congruence. }
        rewrite E. split; [now apply moves_forward_refl|]. split; [apply same_error_refl|].
        split; [intros; lia | now right].
      * assert (E : negb (Ascii.eqb (load mem (current p)) COMMA)
                    && negb (Ascii.eqb (load mem (current p)) LF)
                    && negb (Ascii.eqb (load mem (current p)) CR) = true).
        { unfold is_delim in Ed. destruct (Ascii.eqb _ COMMA), (Ascii.eqb _ LF), (Ascii.eqb _ CR);
            simpl in *; congruence. }
        rewrite E, fp_advance_step by assumption. cbn [snd].
        pose proof (step_over_fields p (load mem (current p))) as (S1 & S2 & S3 & S4 & S5).
        pose proof (step_over_same_error p (load mem (current p))) as Hse.
        set (p1 := step_over p (load mem (current p))) in *. clearbody p1.
        destruct (IH p1 ltac:(lia) ltac:(lia)) as ((M1 & M2 & M3) & E1 & R & S).
        split; [unfold moves_forward; rewrite M1, M2, S1, S3; lia|].
        split; [eapply same_error_trans; eassumption|].
        split; [|destruct S as [S | S]; [left; congruence | now right]].
        intros a Ha. destruct (Z.eq_dec a (current p)) as [-> | Hne]; [assumption|].
        apply R. lia.
Qed.

Lemma trim_end_stops (fuel : nat) :
  forall first e, first <= e -> e - first <= Z.of_nat fuel ->
    let t := trim_end mem fuel first e in
    first <= t <= e /\
    (forall a, t <= a < e -> is_blank (load mem a) = true) /\
    (t = first \/ is_blank (load mem (t - 1)) = false).
Proof.
  induction fuel as [|f IH]; intros first e Hle Hf; cbn [trim_end]; cbv zeta.
  - split; [lia|]. split; [intros; lia | left; lia].
  - destruct (Z.ltb_spec first e) as [Hlt | Hge]; cbn [andb].
    + fold (is_blank (load mem (e - 1))). destruct (is_blank (load mem (e - 1))) eqn:Eb.
      * destruct (IH first (e - 1) ltac:(lia) ltac:(lia)) as (B & R & S).
        split; [lia|]. split; [|assumption].
        intros a Ha. destruct (Z.eq_dec a (e - 1)) as [-> | Hne]; [assumption | apply R; lia].
      * split; [lia|]. split; [intros; lia | now right].
    + split; [lia|]. split; [intros; lia | left; lia].
Qed.

(** A bare CSV field: it starts at the first byte [q] that is not
    whitespace, the scanner stops at the first comma, line feed or carriage
    return after [q] (or at the end of the buffer), and the view is what
    lies between with the blanks at its end trimmed: no delimiter inside,
    no blank at either end. *)
Theorem fp_parse_csv_field_bare_outcome (p : fp_parser_t) :
  current p <= end_ p -> end_ p - current p < 2 ^ 64 ->
  let q := current (fp_skip_ws mem simd p) in
  q < end_ p -> load mem q <> QUOTE ->
  exists v p',
    fp_parse_csv_field mem simd p = (Some v, p') /\
    data v = q /\ 0 <= len v /\ q + len v <= current p' <= end_ p /\
    same_error p p' /\
    (forall a, q <= a < current p' -> is_delim (load mem a) = false) /\
    (current p' = end_ p \/ is_delim (load mem (current p')) = true) /\
    (forall a, q + len v <= a < current p' -> is_blank (load mem a) = true) /\
    (0 < len v ->
       is_ws (load mem q) = false /\ is_blank (load mem (q + len v - 1)) = false).
Proof.
  intros Hle Hsz. cbv zeta. intros Hlt Hq.
  pose proof (fp_skip_ws_run mem simd p Hle) as H. cbv zeta in H.
  destruct H as ((B & R & S) & W1 & W2 & W3 & W4).
  unfold fp_parse_csv_field.
  set (p1 := fp_skip_ws mem simd p) in *. clearbody p1.
  rewrite (proj2 (fp_at_end_false p1)), fp_peek_load by lia.
  destruct (Ascii.eqb_spec (load mem (current p1)) QUOTE) as [E | _]; [contradiction|].
  destruct (bare_loop_stops (Z.to_nat (end_ p1 - current p1)) p1 ltac:(lia) ltac:(lia))
    as ((M1 & M2 & M3) & Es & Rd & Sd).
  set (p2 := bare_loop mem _ p1) in *. clearbody p2.
  destruct (trim_end_stops (Z.to_nat (current p2 - current p1)) (current p1) (current p2)
              ltac:(lia) ltac:(lia)) as (Bt & Rt & St).
  set (t := trim_end mem _ (current p1) (current p2)) in *. clearbody t.
  assert (Hlen : size_wrap (t - current p1) = t - current p1)
    by (unfold size_wrap; apply Z.mod_small; lia).
  eexists _, _. split; [reflexivity|]. cbn [data len]. rewrite Hlen.
  replace (current p1 + (t - current p1)) with t by lia.
  split; [reflexivity|]. split; [lia|]. split; [lia|].
  split; [destruct Es; split; congruence|].
  split; [assumption|]. split; [destruct Sd as [Sd | Sd]; [left; congruence | now right]|].
  split; [assumption|].
  intros Hpos. split.
  - destruct S as [S | S]; [lia | assumption].
  - destruct St as [St | St]; [lia|]. replace (t - 1) with (t - 1) by lia. assumption.
Qed.

Lemma fp_parse_quoted_string_view (p : fp_parser_t) (v : fp_view_t) :
  current p <= end_ p -> end_ p - current p < 2 ^ 64 ->
  fst (fp_parse_quoted_string mem simd p) = Some v ->
  0 <= len v /\ current p < data v /\
  data v + len v + 1 = current (snd (fp_parse_quoted_string mem simd p)).
Proof.
  intros Hle Hsz. unfold fp_parse_quoted_string.
  pose proof (fp_skip_ws_forward mem simd p Hle) as (W1 & W2 & W3).
  set (p1 := fp_skip_ws mem simd p) in *. clearbody p1.
  destruct (fp_match_char mem p1 QUOTE) as [[|] p2] eqn:E; cbn [negb]; [|discriminate].
  apply fp_match_char_true in E; [|discriminate]. destruct E as (Hlt & _ & ->).
  pose proof (step_over_fields p1 QUOTE) as (S1 & S2 & S3 & _).
  set (p2 := step_over p1 QUOTE) in *. clearbody p2.
  pose proof (quoted_loop_forward mem (Z.to_nat (end_ p2 - current p2)) p2 ltac:(lia))
    as (L1 & L2 & L3).
  set (p3 := quoted_loop mem _ p2) in *. clearbody p3.
  destruct (fp_match_char mem p3 QUOTE) as [[|] p4] eqn:E; cbn [negb]; [|discriminate].
  apply fp_match_char_true in E; [|discriminate]. destruct E as (Hlt3 & _ & ->).
  pose proof (step_over_fields p3 QUOTE) as (T1 & T2 & T3 & _).
  intros [= <-]. cbn [data len fst snd]. rewrite T2.
  unfold size_wrap. rewrite Z.mod_small by lia. lia.
Qed.

(** Every view a field parser returns lies inside the scanner's buffer. *)
Lemma fp_parse_csv_field_view (p : fp_parser_t) (v : fp_view_t) :
  cursor_ok p -> end_ p - current p < 2 ^ 64 ->
  fst (fp_parse_csv_field mem simd p) = Some v ->
  view_in_buffer p v.
Proof.
  intros [Hs Hle] Hsz. unfold fp_parse_csv_field.
  pose proof (fp_skip_ws_forward mem simd p Hle) as (W1 & W2 & W3).
  set (p1 := fp_skip_ws mem simd p) in *. clearbody p1.
  destruct (fp_at_end p1) eqn:Ee; [discriminate|]. apply fp_at_end_false in Ee.
  destruct (Ascii.eqb (fp_peek mem p1) QUOTE).
  - intros Hv.
    pose proof (fp_parse_quoted_string_view p1 v ltac:(lia) ltac:(lia) Hv) as (V1 & V2 & V3).
    pose proof (fp_parse_quoted_string_forward mem simd p1 ltac:(lia)) as (F1 & F2 & F3).
    unfold view_in_buffer. lia.
  - destruct (bare_loop_stops (Z.to_nat (end_ p1 - current p1)) p1 ltac:(lia) ltac:(lia))
      as ((M1 & M2 & M3) & _).
    set (p2 := bare_loop mem _ p1) in *. clearbody p2.
    destruct (trim_end_stops (Z.to_nat (current p2 - current p1)) (current p1) (current p2)
                ltac:(lia) ltac:(lia)) as (Bt & _).
    set (t := trim_end mem _ (current p1) (current p2)) in *. clearbody t.
    intros [= <-]. unfold view_in_buffer. cbn [data len].
    unfold size_wrap. rewrite Z.mod_small by lia. lia.
Qed.

Lemma fp_parse_csv_field_forward (p : fp_parser_t) :
  current p <= end_ p -> moves_forward p (snd (fp_parse_csv_field mem simd p)).
Proof.
  intros Hle. unfold fp_parse_csv_field.
  pose proof (fp_skip_ws_forward mem simd p Hle) as Hw.
  set (p1 := fp_skip_ws mem simd p) in *. clearbody p1.
  assert (H1 : current p1 <= end_ p1) by (destruct Hw as (_ & A2 & A3); lia).
  destruct (fp_at_end p1); [assumption|].
  destruct (Ascii.eqb (fp_peek mem p1) QUOTE).
  - eapply moves_forward_trans; [exact Hw|]. now apply fp_parse_quoted_string_forward.
  - cbn [snd]. eapply moves_forward_trans; [exact Hw|].
    apply (bare_loop_stops (Z.to_nat (end_ p1 - current p1)) p1); lia.
Qed.

(** A field parse on a scanner that is not at its end consumes a byte,
    unless it returns an empty field in front of a comma. *)
Lemma fp_parse_csv_field_progress (p : fp_parser_t) :
  current p < end_ p ->
  let r := fp_parse_csv_field mem simd p in
  current p < current (snd r) \/
  (exists v, fst r = Some v) /\ current (snd r) = current p /\ end_ (snd r) = end_ p /\
  load mem (current p) = COMMA.
Proof.
  intros Hlt. cbv zeta. unfold fp_parse_csv_field.
  pose proof (fp_skip_ws_run mem simd p ltac:(lia)) as H. cbv zeta in H.
  destruct H as ((B & R & Hs) & W1 & W2 & W3 & W4).
  set (p1 := fp_skip_ws mem simd p) in *. clearbody p1.
  destruct (Z.eq_dec (current p1) (current p)) as [Heq | Hne].
  2:{ left. destruct (fp_at_end p1); [cbn [snd]; lia|].
      destruct (Ascii.eqb (fp_peek mem p1) QUOTE).
      - pose proof (fp_parse_quoted_string_forward mem simd p1 ltac:(lia)) as (_ & _ & F). lia.
      - cbn [snd].
        pose proof (bare_loop_stops (Z.to_nat (end_ p1 - current p1)) p1 ltac:(lia) ltac:(lia))
          as ((_ & _ & F) & _). lia. }
  destruct Hs as [Hs | Hs]; [lia|].
  rewrite (proj2 (fp_at_end_false p1)), fp_peek_load by lia.
  destruct (Ascii.eqb_spec (load mem (current p1)) QUOTE) as [Eq | Eq].
  - left. unfold fp_parse_quoted_string.
    rewrite fp_skip_ws_stays by (right; assumption).
    rewrite fp_match_char_hit by (lia || assumption). cbn [negb].
    pose proof (step_over_fields p1 QUOTE) as (S1 & S2 & S3 & _).
    set (p2 := step_over p1 QUOTE) in *. clearbody p2.
    pose proof (quoted_loop_forward mem (Z.to_nat (end_ p2 - current p2)) p2 ltac:(lia))
      as (L1 & L2 & L3).
    set (p3 := quoted_loop mem _ p2) in *. clearbody p3.
    pose proof (fp_match_char_forward mem p3 QUOTE ltac:(lia)) as (C1 & C2 & C3).
    destruct (fp_match_char mem p3 QUOTE) as [[|] p4]; cbn [negb snd fp_set_error current] in *; lia.
  - cbn [fst snd].
    set (n := Z.to_nat (end_ p1 - current p1)).
    assert (Hn : n = S (Nat.pred n)) by lia. rewrite Hn. cbn [bare_loop].
    rewrite (proj2 (fp_at_end_false p1)), fp_peek_load by lia. cbn [negb andb].
    destruct (is_delim (load mem (current p1))) eqn:Ed.
    + right. assert (Ec : load mem (current p1) = COMMA).
      { unfold is_delim, is_ws in *.
        destruct (Ascii.eqb_spec (load mem (current p1)) COMMA); [assumption|].
        destruct (Ascii.eqb (load mem (current p1)) LF), (Ascii.eqb (load mem (current p1)) CR),
          (Ascii.eqb (load mem (current p1)) SPACE), (Ascii.eqb (load mem (current p1)) TAB);
          simpl in *; congruence. }
      rewrite Ec. cbn [Ascii.eqb Bool.eqb negb andb]. rewrite <- Heq.
      split; [eexists; reflexivity|]. repeat split; assumption.
    + left.
      assert (E : negb (Ascii.eqb (load mem (current p1)) COMMA)
                  && negb (Ascii.eqb (load mem (current p1)) LF)
                  && negb (Ascii.eqb (load mem (current p1)) CR) = true).
      { unfold is_delim in Ed. destruct (Ascii.eqb _ COMMA), (Ascii.eqb _ LF), (Ascii.eqb _ CR);
          simpl in *; congruence. }
      rewrite E, fp_advance_step by lia. cbn [snd].
      pose proof (step_over_fields p1 (load mem (current p1))) as (S1 & S2 & S3 & _).
      set (p2 := step_over p1 (load mem (current p1))) in *. clearbody p2.
      pose proof (bare_loop_stops (Nat.pred n) p2 ltac:(lia) ltac:(lia)) as ((_ & _ & F) & _).
      lia.
Qed.

End CsvFields.

Section CsvLines.

Variable mem : list ascii.
Variable simd : bool.

Lemma view_in_buffer_forward (p p' : fp_parser_t) (v : fp_view_t) :
  moves_forward p p' -> view_in_buffer p' v -> view_in_buffer p v.
Proof. unfold moves_forward, view_in_buffer. intros (A1 & A2 & _). rewrite A1, A2. tauto. Qed.

Lemma csv_fields_outcome (fuel : nat) :
  forall p count fields,
    cursor_ok p -> end_ p - start p < 2 ^ 64 ->
    0 <= count <= FP_CSV_MAX_FIELDS ->
    Forall (view_in_buffer p) fields ->
    let r := csv_fields mem simd fuel p count fields in
    count <= fst (fst r) <= FP_CSV_MAX_FIELDS /\
    fst (fst r) - count = Z.of_nat (length (snd (fst r))) - Z.of_nat (length fields) /\
    moves_forward p (snd r) /\
    Forall (view_in_buffer p) (snd (fst r)).
Proof.
  unfold FP_CSV_MAX_FIELDS.
  induction fuel as [|f IH]; intros p count fields Hok Hsz Hc Hf; cbv zeta.
  - cbn [csv_fields fst snd]. destruct Hok. repeat split; try lia; try assumption.
  - rewrite csv_fields_step. unfold FP_CSV_MAX_FIELDS. destruct Hok as [Hs Hle].
    destruct (negb (fp_at_end p) && (count <? 64)) eqn:Eg;
      [|cbn [fst snd]; repeat split; try lia; assumption].
    apply andb_prop in Eg. destruct Eg as [_ Eg]. apply Z.ltb_lt in Eg.
    pose proof (fp_parse_csv_field_forward mem simd p Hle) as Hfw.
    pose proof (fp_parse_csv_field_view mem simd p) as Hview.
    destruct (fp_parse_csv_field mem simd p) as [[v|] p1]; cbn [fst snd] in *;
      [|repeat split; try lia; try assumption; apply Hfw].
    specialize (Hview v ltac:(split; lia) ltac:(lia) eq_refl).
    assert (H1 : current p1 <= end_ p1) by (destruct Hfw as (_ & A2 & A3); lia).
    pose proof (fp_match_char_forward mem p1 COMMA H1) as Hm.
    assert (Hf' : Forall (view_in_buffer p) (fields ++ [v]))
      by (apply Forall_app; split; [assumption | constructor; [assumption | constructor]]).
    destruct (fp_match_char mem p1 COMMA) as [[|] p2]; cbn [negb fst snd] in *.
    + pose proof (moves_forward_trans _ _ _ Hfw Hm) as H02.
      destruct H02 as (A1 & A2 & A3).
      specialize (IH p2 (count + 1) (fields ++ [v]) ltac:(split; lia) ltac:(lia) ltac:(lia)).
      assert (Hf2 : Forall (view_in_buffer p2) (fields ++ [v])).
      { eapply Forall_impl; [|exact Hf']. intros x. unfold view_in_buffer. rewrite A1, A2. tauto. }
      specialize (IH Hf2). cbv zeta in IH. destruct IH as (I1 & I2 & I3 & I4).
      rewrite length_app in I2. cbn [length] in I2.
      split; [lia|]. split; [lia|].
      split; [eapply moves_forward_trans; [|exact I3]; unfold moves_forward; lia|].
      eapply Forall_impl; [|exact I4]. intros x. unfold view_in_buffer. rewrite A1, A2. tauto.
    + rewrite length_app. cbn [length].
      split; [lia|]. split; [lia|].
      split; [eapply moves_forward_trans; eassumption | assumption].
Qed.

Lemma csv_fields_forward (fuel : nat) :
  forall p count fields,
    current p <= end_ p -> moves_forward p (snd (csv_fields mem simd fuel p count fields)).
Proof.
  induction fuel as [|f IH]; intros p count fields Hle.
  - now apply moves_forward_refl.
  - rewrite csv_fields_step.
    destruct (negb (fp_at_end p) && (count <? FP_CSV_MAX_FIELDS));
      [|now apply moves_forward_refl].
    pose proof (fp_parse_csv_field_forward mem simd p Hle) as Hfw.
    destruct (fp_parse_csv_field mem simd p) as [[v|] p1]; cbn [snd] in *; [|assumption].
    assert (H1 : current p1 <= end_ p1) by (destruct Hfw as (_ & A2 & A3); lia).
    pose proof (fp_match_char_forward mem p1 COMMA H1) as Hm.
    destruct (fp_match_char mem p1 COMMA) as [[|] p2]; cbn [negb snd] in *.
    + eapply moves_forward_trans; [exact Hfw|].
      eapply moves_forward_trans; [exact Hm|]. apply IH. destruct Hm as (_ & A2 & A3). lia.
    + eapply moves_forward_trans; eassumption.
Qed.

Lemma csv_line_end_forward (p : fp_parser_t) :
  current p <= end_ p ->
  moves_forward p
    (let '(cr, p) := fp_match_char mem p CR in
     if cr then snd (fp_match_char mem p LF) else snd (fp_match_char mem p LF)).
Proof.
  intros Hle. pose proof (fp_match_char_forward mem p CR Hle) as Hm.
  destruct (fp_match_char mem p CR) as [cr p1]. cbn [snd] in Hm.
  assert (H1 : current p1 <= end_ p1) by (destruct Hm as (_ & A2 & A3); lia).
  pose proof (fp_match_char_forward mem p1 LF H1) as Hl.
  destruct cr; eapply moves_forward_trans; eassumption.
Qed.

(** A call of [fp_parse_csv_line] keeps the cursor in bounds and moves it
    unless it was at the end already. *)
Lemma fp_parse_csv_line_step (p : fp_parser_t) :
  current p <= end_ p ->
  moves_forward p (snd (fp_parse_csv_line mem simd p)) /\
  (current p < end_ p -> current p < current (snd (fp_parse_csv_line mem simd p))).
Proof.
  intros Hle. unfold fp_parse_csv_line.
  pose proof (csv_fields_forward (Z.to_nat FP_CSV_MAX_FIELDS) p 0 [] Hle) as H3.
  assert (Hprog : current p < end_ p ->
            current p < current (snd (csv_fields mem simd (Z.to_nat FP_CSV_MAX_FIELDS) p 0 []))).
  { intros Hlt. change (Z.to_nat FP_CSV_MAX_FIELDS) with (S 63). rewrite csv_fields_step.
    rewrite (proj2 (fp_at_end_false p) Hlt).
    change (negb false && (0 <? FP_CSV_MAX_FIELDS)) with true. cbv iota.
    pose proof (fp_parse_csv_field_progress mem simd p Hlt) as Hp. cbv zeta in Hp.
    pose proof (fp_parse_csv_field_forward mem simd p ltac:(lia)) as Hfw.
    destruct (fp_parse_csv_field mem simd p) as [[v|] p1]; cbn [fst snd] in *.
    - assert (H1 : current p1 <= end_ p1) by (destruct Hfw as (_ & A2 & A3); lia).
      pose proof (fp_match_char_forward mem p1 COMMA H1) as Hm.
      assert (Hstep : current p < current (snd (fp_match_char mem p1 COMMA))).
      { destruct Hp as [Hp | (_ & P1 & P2 & P3)]; [destruct Hm as (_ & _ & M); lia|].
        rewrite fp_match_char_hit by (rewrite ?P1; (lia || assumption)). cbn [snd].
        pose proof (step_over_fields p1 COMMA) as (_ & S2 & _). lia. }
      destruct (fp_match_char mem p1 COMMA) as [[|] p2]; cbn [negb fst snd] in *; [|lia].
      pose proof (csv_fields_forward 63 p2 (0 + 1) ([] ++ [v])
                    ltac:(destruct Hm as (_ & A2 & A3); lia)) as (_ & _ & F).
      lia.
    - destruct Hp as [Hp | ((w & Hw) & _)]; [lia | discriminate]. }
  destruct (csv_fields mem simd (Z.to_nat FP_CSV_MAX_FIELDS) p 0 []) as [[count fields] p1].
  cbn [fst snd] in *.
  pose proof (csv_line_end_forward p1 ltac:(destruct H3 as (_ & A2 & A3); lia)) as He.
  destruct (fp_match_char mem p1 CR) as [cr p2]. cbn [fst snd].
  split; [eapply moves_forward_trans; eassumption|].
  intros Hlt. specialize (Hprog Hlt). destruct He as (_ & _ & E). lia.
Qed.

Lemma fp_parse_csv_line_count (p : fp_parser_t) :
  cursor_ok p -> end_ p - start p < 2 ^ 64 ->
  0 <= fst (fst (fp_parse_csv_line mem simd p)) <= FP_CSV_MAX_FIELDS.
Proof.
  intros Hok Hsz. unfold fp_parse_csv_line.
  pose proof (csv_fields_outcome (Z.to_nat FP_CSV_MAX_FIELDS) p 0 [] Hok Hsz
                ltac:(unfold FP_CSV_MAX_FIELDS; lia) ltac:(constructor)) as H.
  cbv zeta in H.
  destruct (csv_fields mem simd (Z.to_nat FP_CSV_MAX_FIELDS) p 0 []) as [[count fields] p1].
  destruct (fp_match_char mem p1 CR) as [cr p2]. cbn [fst snd] in *. lia.
Qed.

(** One call of [fp_parse_csv_line]: it returns at most
    [FP_CSV_MAX_FIELDS] fields and as many as it counts, every field a view
    inside the scanner's buffer; the cursor stays in bounds, and moves
    whenever it was not at the end, so that the caller's loop
    [while (!fp_at_end(p)) fp_parse_csv_line(p, fields)] ends. *)
Theorem fp_parse_csv_line_outcome (p : fp_parser_t) :
  cursor_ok p -> end_ p - start p < 2 ^ 64 ->
  let r := fp_parse_csv_line mem simd p in
  let count := fst (fst r) in
  let fields := snd (fst r) in
  0 <= count <= FP_CSV_MAX_FIELDS /\ count = Z.of_nat (length fields) /\
  Forall (view_in_buffer p) fields /\
  moves_forward p (snd r) /\
  (current p < end_ p -> current p < current (snd r)).
Proof.
  intros Hok Hsz. cbv zeta.
  pose proof (fp_parse_csv_line_step p ltac:(destruct Hok; assumption)) as [Hfw Hprog].
  split; [now apply fp_parse_csv_line_count|].
  split; [|split; [|split; assumption]]; unfold fp_parse_csv_line;
    pose proof (csv_fields_outcome (Z.to_nat FP_CSV_MAX_FIELDS) p 0 [] Hok Hsz
                  ltac:(unfold FP_CSV_MAX_FIELDS; lia) ltac:(constructor)) as H;
    cbv zeta in H;
    destruct (csv_fields mem simd (Z.to_nat FP_CSV_MAX_FIELDS) p 0 []) as [[count fields] p1];
    destruct (fp_match_char mem p1 CR) as [cr p2]; cbn [fst snd] in *;
    destruct H as (H1 & H2 & H3 & H4).
  - simpl in H2. lia.
  - assumption.
Qed.

(** The caller's loop over a whole buffer: it makes at most one call per
    byte left, so with that much fuel the model of the loop has run to its
    end and more fuel changes nothing; every row has at most
    [FP_CSV_MAX_FIELDS] fields. *)
Theorem csv_rows_terminates (fuel : nat) :
  forall p, cursor_ok p -> end_ p - start p < 2 ^ 64 ->
    end_ p - current p <= Z.of_nat fuel ->
    (forall k, csv_rows mem simd (fuel + k) p = csv_rows mem simd fuel p) /\
    Z.of_nat (length (csv_rows mem simd fuel p)) <= end_ p - current p /\
    Forall (fun count => 0 <= count <= FP_CSV_MAX_FIELDS) (csv_rows mem simd fuel p).
Proof.
  induction fuel as [|f IH]; intros p Hok Hsz Hf.
  - assert (Hend : fp_at_end p = true) by (apply fp_at_end_iff; destruct Hok; lia).
    split; [|split; [simpl; destruct Hok; lia | constructor]].
    intros [|k]; [reflexivity|]. cbn [Nat.add csv_rows]. now rewrite Hend.
  - cbn [csv_rows Nat.add]. destruct (fp_at_end p) eqn:Ee.
    + split; [reflexivity|]. split; [simpl; destruct Hok; lia | constructor].
    + apply fp_at_end_false in Ee.
      pose proof (fp_parse_csv_line_count p Hok Hsz) as O1.
      destruct Hok as [Hs Hle].
      pose proof (fp_parse_csv_line_step p Hle) as ((M1 & M2 & M3) & O5).
      destruct (fp_parse_csv_line mem simd p) as [[count fields] p1]. cbn [fst snd] in *.
      specialize (O5 Ee).
      destruct (IH p1 ltac:(split; lia) ltac:(lia) ltac:(lia)) as (I1 & I2 & I3).
      split; [intros k; now rewrite I1|].
      split; [cbn [length]; lia | constructor; assumption].
Qed.

End CsvLines.

Lemma fp_parse_csv_field_bare_outcome_witness :
  let mem := list_ascii_of_string " ab c  ,d" in
  exists v p',
    fp_parse_csv_field mem true (fp_init 0 9) = (Some v, p') /\
    data v = 1 /\ view_bytes mem v = list_ascii_of_string "ab c" /\ current p' = 7.
Proof.
  destruct (fp_parse_csv_field_bare_outcome (list_ascii_of_string " ab c  ,d") true
              (fp_init 0 9) ltac:(simpl; lia) ltac:(simpl; lia) ltac:(simpl; lia)
              ltac:(discriminate))
    as (v & p' & E & Hd & _).
  exists v, p'. split; [exact E|]. split; [exact Hd|].
  vm_compute in E. injection E as <- <-. split; reflexivity.
Defined.

Lemma fp_parse_csv_line_outcome_witness :
  let mem := list_ascii_of_string "a,,b" in
  let r := fp_parse_csv_line mem true (fp_init 0 4) in
  fst (fst r) = 3 /\ fst (fst r) = Z.of_nat (length (snd (fst r))) /\
  Forall (view_in_buffer (fp_init 0 4)) (snd (fst r)).
Proof.
  split; [reflexivity|].
  pose proof (fp_parse_csv_line_outcome (list_ascii_of_string "a,,b") true (fp_init 0 4)
                ltac:(unfold cursor_ok; simpl; lia) ltac:(simpl; lia)) as (_ & H2 & H3 & _).
  split; assumption.
Defined.

Lemma csv_rows_terminates_witness :
  let mem := list_ascii_of_string "a,b" in
  csv_rows mem true (3 + 10) (fp_init 0 3) = csv_rows mem true 3 (fp_init 0 3) /\
  csv_rows mem true 3 (fp_init 0 3) = [2].
Proof.
  split; [|reflexivity].
  apply (csv_rows_terminates (list_ascii_of_string "a,b") true 3 (fp_init 0 3)
           ltac:(unfold cursor_ok; simpl; lia) ltac:(simpl; lia) ltac:(simpl; lia)).
Defined.

(* ====================================================================== *)
(** ** Quoted strings, again *)

Section QuotedStringAgain.

Variable mem : list ascii.
Variable simd : bool.

(** The outcome of [fp_parse_quoted_string] as a function of the bytes:
    [q] is the first byte after the whitespace and [rest] what follows
    it. *)
Lemma fp_parse_quoted_string_cases (p : fp_parser_t) :
  current p <= end_ p -> end_ p - current p < 2 ^ 64 ->
  let q := current (fp_skip_ws mem simd p) in
  let r := fp_parse_quoted_string mem simd p in
  if (q <? end_ p) && Ascii.eqb (load mem q) QUOTE then
    match closing_quote (mem_range mem (q + 1) (end_ p)) with
    | Some k => fst r = Some (mk_view (q + 1) (Z.of_nat k)) /\
                current (snd r) = q + 1 + Z.of_nat k + 1 /\ current (snd r) <= end_ p
    | None => fst r = None
    end
  else fst r = None.
Proof.
  intros Hle Hsz. cbv zeta. unfold fp_parse_quoted_string.
  pose proof (fp_skip_ws_run mem simd p Hle) as H. cbv zeta in H.
  destruct H as ((B & _) & _ & W2 & _).
  set (p1 := fp_skip_ws mem simd p) in *. clearbody p1.
  assert (Hnul : QUOTE <> NUL) by discriminate.
  destruct (Z.ltb_spec (current p1) (end_ p)) as [Hlt | Hend]; cbn [andb].
  2:{ rewrite fp_match_char_miss by (auto; left; lia). reflexivity. }
  destruct (Ascii.eqb_spec (load mem (current p1)) QUOTE) as [Hq | Hq].
  2:{ rewrite fp_match_char_miss by auto. reflexivity. }
  rewrite fp_match_char_hit by (lia || assumption). cbn [negb].
  pose proof (step_over_fields p1 QUOTE) as (S1 & S2 & S3 & _).
  set (p2 := step_over p1 QUOTE) in *. clearbody p2.
  destruct (quoted_loop_stops mem (Z.to_nat (end_ p2 - current p2)) p2)
    as (L1 & L2 & _ & _ & L5); try lia.
  set (p3 := quoted_loop mem (Z.to_nat (end_ p2 - current p2)) p2) in *. clearbody p3.
  rewrite S2, S3, W2 in L5.
  destruct (closing_quote (mem_range mem (current p1 + 1) (end_ p))) as [k|] eqn:Ek.
  - destruct (closing_quote_is_quote _ _ Ek) as [Hk Hnth].
    pose proof (mem_range_length mem (current p1 + 1) (end_ p) ltac:(lia)) as Hlen.
    rewrite mem_range_nth in Hnth by lia.
    rewrite fp_match_char_hit by (rewrite ?L5; (lia || assumption)).
    cbn [negb fst snd].
    pose proof (step_over_fields p3 QUOTE) as (_ & T2 & _).
    rewrite T2, L5, S2. unfold size_wrap.
    replace (current p1 + 1 + Z.of_nat k + 1 - (current p1 + 1) - 1) with (Z.of_nat k) by lia.
    rewrite Z.mod_small by lia. repeat split; lia.
  - rewrite fp_match_char_miss by (auto; left; lia). reflexivity.
Qed.

Lemma closing_quote_prefix (n : nat) :
  forall l k tail, (length l <= n)%nat -> closing_quote l = Some k ->
    closing_quote (firstn k l ++ QUOTE :: tail) = Some k.
Proof.
  induction n as [|n IH]; intros l k tail Hn; (destruct l as [|c t]; [discriminate|]);
    [simpl in Hn; lia|].
  cbn [closing_quote]. cbn [length] in Hn.
  destruct (Ascii.eqb c QUOTE) eqn:Eq.
  - intros [= <-]. reflexivity.
  - destruct (Ascii.eqb c BACKSLASH) eqn:Eb.
    + destruct t as [|c' t']; [discriminate|]. cbn [length] in Hn.
      destruct (closing_quote t') as [j|] eqn:E; [|discriminate].
      intros [= <-]. cbn [firstn app closing_quote]. rewrite Eq, Eb.
      rewrite (IH t' j tail ltac:(lia) E). reflexivity.
    + destruct (closing_quote t) as [j|] eqn:E; [|discriminate].
      intros [= <-]. cbn [firstn app closing_quote]. rewrite Eq, Eb.
      rewrite (IH t j tail ltac:(lia) E). reflexivity.
Qed.

Lemma bytes_at_bytes_from (m : list ascii) (l : list ascii) :
  forall a, bytes_at m a l -> bytes_from m (length l) a = l.
Proof.
  induction l as [|c l IH]; intros a; [reflexivity|].
  cbn [bytes_at bytes_from length]. intros [-> H]. now rewrite IH.
Qed.

End QuotedStringAgain.

(** Re-parsing what [fp_parse_quoted_string] returned: when the bytes of a
    returned view are written between two fresh quotes anywhere in a
    memory, parsing that text returns a view over the same bytes and
    consumes the text to its end. *)
Theorem quoted_string_reparse (mem mem2 : list ascii) (simd : bool)
        (p : fp_parser_t) (v : fp_view_t) (a : Z) :
  current p <= end_ p -> end_ p - current p < 2 ^ 64 ->
  fst (fp_parse_quoted_string mem simd p) = Some v ->
  bytes_at mem2 a (QUOTE :: view_bytes mem v ++ [QUOTE]) ->
  let r := fp_parse_quoted_string mem2 simd (fp_init a (len v + 2)) in
  exists v2, fst r = Some v2 /\ view_bytes mem2 v2 = view_bytes mem v /\
             len v2 = len v /\ current (snd r) = end_ (snd r).
Proof.
  intros Hle Hsz Hv Hb. cbv zeta.
  (* the first parse *)
  pose proof (fp_parse_quoted_string_cases mem simd p Hle Hsz) as H1. cbv zeta in H1.
  pose proof (fp_skip_ws_run mem simd p Hle) as Hw. cbv zeta in Hw.
  destruct Hw as ((B & _) & _).
  set (q := current (fp_skip_ws mem simd p)) in *.
  destruct ((q <? end_ p) && Ascii.eqb (load mem q) QUOTE) eqn:Eg;
    [|rewrite H1 in Hv; discriminate].
  apply andb_prop in Eg. destruct Eg as [Eg _]. apply Z.ltb_lt in Eg.
  destruct (closing_quote (mem_range mem (q + 1) (end_ p))) as [k|] eqn:Ek;
    [|rewrite H1 in Hv; discriminate].
  destruct H1 as (E1 & _). rewrite E1 in Hv. injection Hv as <-.
  destruct (closing_quote_is_quote _ _ Ek) as [Hk _].
  pose proof (mem_range_length mem (q + 1) (end_ p) ltac:(lia)) as Hlen.
  assert (Hbytes : view_bytes mem (mk_view (q + 1) (Z.of_nat k))
                   = firstn k (mem_range mem (q + 1) (end_ p))).
  { unfold view_bytes, mem_range. cbn [data len]. rewrite Nat2Z.id.
    symmetry. apply bytes_from_firstn. lia. }
  rewrite Hbytes in *. cbn [len] in *.
  set (content := firstn k (mem_range mem (q + 1) (end_ p))) in *.
  assert (Hclen : length content = k)
    by (unfold content; rewrite firstn_length_le; lia).
  (* the second parse *)
  set (p2 := fp_init a (Z.of_nat k + 2)).
  destruct Hb as [Hq2 Hb2].
  assert (Hskip : fp_skip_ws mem2 simd p2 = p2)
    by (apply fp_skip_ws_stays; right; simpl; rewrite Hq2; reflexivity).
  pose proof (fp_parse_quoted_string_cases mem2 simd p2 ltac:(simpl; lia) ltac:(simpl; lia))
    as H2. cbv zeta in H2. rewrite Hskip in H2.
  change (current p2) with a in H2. change (end_ p2) with (a + (Z.of_nat k + 2)) in H2.
  rewrite (proj2 (Z.ltb_lt a (a + (Z.of_nat k + 2)))), Hq2 in H2 by lia.
  cbn [andb Ascii.eqb Bool.eqb] in H2.
  change (Ascii.eqb QUOTE QUOTE) with true in H2. cbv iota in H2.
  assert (Hrange : mem_range mem2 (a + 1) (a + (Z.of_nat k + 2)) = content ++ [QUOTE]).
  { unfold mem_range. replace (Z.to_nat (a + (Z.of_nat k + 2) - (a + 1))) with (length (content ++ [QUOTE]))
      by (rewrite length_app, Hclen; simpl; lia).
    now apply bytes_at_bytes_from. }
  rewrite Hrange in H2. unfold content in H2.
  rewrite (closing_quote_prefix _ _ k [] (Nat.le_refl _) Ek) in H2.
  destruct H2 as (F1 & F2 & F3).
  eexists. split; [exact F1|]. cbn [len]. split; [|split; [reflexivity|]].
  - unfold view_bytes. cbn [data len]. rewrite Nat2Z.id.
    fold content. rewrite <- Hclen at 1.
    apply bytes_at_bytes_from. apply (bytes_at_app mem2 content [QUOTE] (a + 1)) in Hb2.
    tauto.
  - pose proof (fp_parse_quoted_string_forward mem2 simd p2 ltac:(simpl; lia)) as (_ & M2 & _).
    rewrite M2, F2. simpl. lia.
Qed.

Lemma quoted_string_reparse_witness :
  let mem := [SPACE; QUOTE; "a"; BACKSLASH; QUOTE; "b"; QUOTE; "x"]%char in
  let mem2 := [QUOTE; "a"; BACKSLASH; QUOTE; "b"; QUOTE]%char in
  fst (fp_parse_quoted_string mem true (fp_init 0 8)) = Some (mk_view 2 4) /\
  exists v2, fst (fp_parse_quoted_string mem2 true (fp_init 0 6)) = Some v2 /\
             view_bytes mem2 v2 = view_bytes mem (mk_view 2 4).
Proof.
  split; [reflexivity|].
  destruct (quoted_string_reparse
              [SPACE; QUOTE; "a"; BACKSLASH; QUOTE; "b"; QUOTE; "x"]%char
              [QUOTE; "a"; BACKSLASH; QUOTE; "b"; QUOTE]%char true (fp_init 0 8)
              (mk_view 2 4) 0 ltac:(simpl; lia) ltac:(simpl; lia) eq_refl
              ltac:(simpl; repeat split)) as (v2 & E & Hb & _).
  exists v2. split; assumption.
Defined.

(* ====================================================================== *)
(** ** Line terminators before a CSV field *)

Section CsvLineTerminators.

Variable mem : list ascii.
Variable simd : bool.

(** The first field of a line as a function of the bytes: [q] is the first
    byte after the whitespace, line terminators included. *)
Lemma fp_parse_csv_field_cases (p : fp_parser_t) :
  current p <= end_ p -> end_ p - current p < 2 ^ 64 ->
  let q := current (fp_skip_ws mem simd p) in
  let first := fst (fp_parse_csv_field mem simd p) in
  if q <? end_ p then
    if Ascii.eqb (load mem q) QUOTE then
      match closing_quote (mem_range mem (q + 1) (end_ p)) with
      | Some k => first = Some (mk_view (q + 1) (Z.of_nat k))
      | None => first = None
      end
    else exists v, first = Some v /\ data v = q
  else first = None.
Proof.
  intros Hle Hsz. cbv zeta.
  pose proof (fp_skip_ws_run mem simd p Hle) as H. cbv zeta in H.
  destruct H as ((B & _) & _ & W2 & _).
  destruct (Z.ltb_spec (current (fp_skip_ws mem simd p)) (end_ p)) as [Hlt | Hge].
  - destruct (Ascii.eqb_spec (load mem (current (fp_skip_ws mem simd p))) QUOTE) as [Hq | Hq].
    + unfold fp_parse_csv_field.
      set (p1 := fp_skip_ws mem simd p) in *.
      rewrite (proj2 (fp_at_end_false p1)), fp_peek_load, Hq by lia.
      change (Ascii.eqb QUOTE QUOTE) with true. cbv iota.
      pose proof (fp_parse_quoted_string_cases mem simd p1 ltac:(lia) ltac:(lia)) as C.
      cbv zeta in C.
      rewrite (fp_skip_ws_stays mem simd p1) in C by (right; rewrite Hq; reflexivity).
      rewrite W2, (proj2 (Z.ltb_lt _ _) Hlt), Hq in C.
      change (true && Ascii.eqb QUOTE QUOTE) with true in C. cbv iota in C.
      destruct (closing_quote (mem_range mem (current p1 + 1) (end_ p))); tauto.
    + destruct (fp_parse_csv_field_bare mem simd p Hle Hlt Hq) as (v & p' & E & D).
      exists v. rewrite E. split; [reflexivity | assumption].
  - unfold fp_parse_csv_field.
    rewrite (proj2 (fp_at_end_iff (fp_skip_ws mem simd p))) by lia. reflexivity.
Qed.

(** C10 (as amended).  [fp_parse_csv_field] first moves to the end [q] of
    the maximal run of whitespace, and line feeds and carriage returns
    count as whitespace; the field it returns starts at [q], or right after
    the quote at [q], however many line terminators lie before [q], and
    that field is the first field of the row [fp_parse_csv_line] returns:
    empty lines that are followed by a field give no row of their own.
    The call returns no field, and the line function a row of zero fields,
    exactly when nothing but whitespace is left before the end of the
    input (empty lines at the end of the input do give a zero-field row)
    or when the byte at [q] opens a quoted field that is never closed. *)
Theorem csv_field_skips_line_terminators (p : fp_parser_t) :
  current p <= end_ p -> end_ p - current p < 2 ^ 64 ->
  let q := current (fp_skip_ws mem simd p) in
  let rest := mem_range mem (q + 1) (end_ p) in
  let first := fst (fp_parse_csv_field mem simd p) in
  let row := fp_parse_csv_line mem simd p in
  let nothing_left := end_ p <= q in
  let unterminated := load mem q = QUOTE /\ closing_quote rest = None in
  is_ws LF = true /\ is_ws CR = true /\
  ws_run mem (current p) (end_ p) q /\
  (first = None <-> nothing_left \/ unterminated) /\
  (fst (fst row) = 0 <-> nothing_left \/ unterminated) /\
  (forall v, first = Some v ->
     q < end_ p /\
     (load mem q <> QUOTE /\ data v = q \/
      load mem q = QUOTE /\ data v = q + 1 /\ closing_quote rest = Some (Z.to_nat (len v))) /\
     exists others p',
       row = (1 + Z.of_nat (length others), v :: others, p')).
Proof.
  intros Hle Hsz. cbv zeta.
  pose proof (fp_skip_ws_run mem simd p Hle) as Hrun. cbv zeta in Hrun.
  destruct Hrun as (Hrun & _).
  pose proof (fp_parse_csv_field_cases p Hle Hsz) as C. cbv zeta in C.
  pose proof (fp_parse_csv_line_first mem simd p) as L.
  set (q := current (fp_skip_ws mem simd p)) in *.
  assert (Hq : current p <= q) by (destruct Hrun as ((B & _) & _); exact B).
  assert (Hfirst : fst (fp_parse_csv_field mem simd p) = None <->
                   end_ p <= q \/
                   load mem q = QUOTE /\
                   closing_quote (mem_range mem (q + 1) (end_ p)) = None).
  { destruct (Z.ltb_spec q (end_ p)) as [Hlt | Hge].
    - destruct (Ascii.eqb_spec (load mem q) QUOTE) as [E | E].
      + destruct (closing_quote (mem_range mem (q + 1) (end_ p))) as [k|].
        * rewrite C. split; [discriminate | intros [H | [_ H]]; [lia | discriminate]].
        * split; [intros _; right; split; [assumption | reflexivity] | intros _; exact C].
      + destruct C as (v & -> & _).
        split; [discriminate | intros [H | [H _]]; [lia | contradiction]].
    - split; [intros _; left; assumption | intros _; exact C]. }
  split; [reflexivity|]. split; [reflexivity|]. split; [exact Hrun|].
  split; [exact Hfirst|]. split.
  - rewrite <- Hfirst.
    destruct (fst (fp_parse_csv_field mem simd p)) as [v|].
    + split; [|discriminate]. intros H0. exfalso.
      assert (Hlt : current p < end_ p).
      { destruct (Z.ltb_spec q (end_ p)) as [Hlt | Hge]; [lia|]. discriminate C. }
      destruct (L Hlt) as (others & p' & E). rewrite E in H0. cbn [fst] in H0. lia.
    + split; [reflexivity|]. intros _. now rewrite L.
  - intros v Hv. rewrite Hv in L.
    destruct (Z.ltb_spec q (end_ p)) as [Hlt | Hge]; [|rewrite C in Hv; discriminate].
    split; [assumption|]. split; [|apply L; lia].
    destruct (Ascii.eqb_spec (load mem q) QUOTE) as [E | E].
    + right. destruct (closing_quote (mem_range mem (q + 1) (end_ p))) as [k|];
        [|rewrite C in Hv; discriminate].
      rewrite C in Hv. injection Hv as <-. cbn [data len]. rewrite Nat2Z.id. auto.
    + left. destruct C as (w & Hw & Hd). rewrite Hw in Hv. injection Hv as <-. auto.
Qed.

End CsvLineTerminators.

(** Two empty lines (LF, then CR LF) before a quoted [b] and a bare [c]:
    the first call returns the two fields of the third physical line. *)
Lemma csv_field_skips_line_terminators_witness :
  let mem := [LF; CR; LF; QUOTE; "b"; QUOTE; ","; "c"; LF]%char in
  let p := fp_init 0 9 in
  current (fp_skip_ws mem true p) = 3 /\ line (fp_skip_ws mem true p) = 3 /\
  fst (fp_parse_csv_line mem true p) = (2, [mk_view 4 1; mk_view 7 1]) /\
  closing_quote (mem_range mem 4 9) = Some (Z.to_nat 1) /\
  exists others p',
    fp_parse_csv_line mem true p
      = (1 + Z.of_nat (length others), mk_view 4 1 :: others, p').
Proof.
  repeat (split; [reflexivity|]).
  pose proof (csv_field_skips_line_terminators
                [LF; CR; LF; QUOTE; "b"; QUOTE; ","; "c"; LF]%char true (fp_init 0 9)
                ltac:(simpl; lia) ltac:(simpl; lia)) as H.
  cbv zeta in H. destruct H as (_ & _ & _ & _ & _ & H).
  destruct (H (mk_view 4 1) eq_refl) as (_ & _ & others & p' & E).
  exists others, p'. exact E.
Defined.

(** C10 (counterexample).  In the three bytes [a] LF LF the second line is
    empty and nothing follows it.  The first call returns the row [a] and
    stops after the first line feed; the input is not at its end, so the
    caller's loop calls again, and that call skips the last line feed,
    finds nothing and returns a row of zero fields: the empty line did
    produce a zero-field row. *)
Lemma trailing_empty_line_gives_zero_field_row :
  let input := ["a"; LF; LF]%char in
  let p := fp_init 0 3 in
  let after_first := snd (fp_parse_csv_line input true p) in
  fst (fp_parse_csv_line input true p) = (1, [mk_view 0 1]) /\
  current after_first = 2 /\ fp_at_end after_first = false /\
  fst (fp_parse_csv_line input true after_first) = (0, []) /\
  csv_rows input true 3 p = [1; 0] /\ csv_rows input false 3 p = [1; 0] /\
  ~ (forall count, In count (csv_rows input true 3 p) -> count <> 0).
Proof.
  vm_compute. repeat (split; [reflexivity|]).
  intros H. apply (H 0); [right; left|]; reflexivity.
Qed.

(* ====================================================================== *)
(** ** Scanners over C strings *)

Section CStrings.

Variable mem : list ascii.
Variable simd : bool.

Lemma c_string_tail_nil (l : list ascii) :
  c_string (skipn (length (c_string l)) l) = [].
Proof.
  induction l as [|c l IH]; [reflexivity|]. cbn [c_string].
  destruct (Ascii.eqb c NUL) eqn:E; cbn [length skipn c_string]; [now rewrite E | exact IH].
Qed.

Lemma c_string_skipn_bound (l : list ascii) (i : nat) :
  c_string (skipn i l) = [] ->
  forall j, (j <= i)%nat -> (length (c_string (skipn j l)) <= i - j)%nat.
Proof.
  intros Hi j Hj. remember (i - j)%nat as d eqn:Hd. revert j Hj Hd.
  induction d as [|d IH]; intros j Hj Hd.
  - assert (j = i) by lia. subst. now rewrite Hi.
  - destruct (skipn j l) as [|c t] eqn:E; [simpl; lia|].
    assert (Et : skipn (S j) l = t).
    { replace (S j) with (1 + j)%nat by lia. rewrite <- skipn_skipn, E. reflexivity. }
    cbn [c_string]. destruct (Ascii.eqb c NUL); [simpl; lia|]. cbn [length].
    specialize (IH (S j) ltac:(lia) ltac:(lia)). rewrite Et in IH. lia.
Qed.

Lemma c_string_at_bound (input a : Z) :
  0 <= input -> a <= input + strlen mem input ->
  Z.of_nat (length (c_string_at mem a)) <= input + strlen mem input - a.
Proof.
  intros Hi Ha. unfold strlen, c_string_at in *.
  rewrite (proj2 (Z.ltb_ge input 0)) in * by lia.
  destruct (Z.ltb_spec a 0); [simpl; lia|].
  set (n := length (c_string (skipn (Z.to_nat input) mem))) in *.
  assert (Hend : c_string (skipn (Z.to_nat input + n) mem) = []).
  { rewrite Nat.add_comm, <- skipn_skipn. apply c_string_tail_nil. }
  pose proof (c_string_skipn_bound mem (Z.to_nat input + n) Hend (Z.to_nat a) ltac:(lia)).
  lia.
Qed.

(** On a scanner made by [fp_init_cstr], or moved on from one, a [strtod]
    that consumes no more than the C string it is given keeps
    [fp_parse_double] within the bounds: the terminating NUL stops the
    conversion at [end] at the latest. *)
Theorem fp_parse_double_on_cstr (strtod_consumed : list ascii -> Z)
        (input : Z) (p : fp_parser_t) :
  (forall s, 0 <= strtod_consumed s <= Z.of_nat (length s)) ->
  0 <= input ->
  moves_forward (fp_init_cstr mem input) p ->
  moves_forward p (snd (fp_parse_double mem simd strtod_consumed p)) /\
  cursor_ok (snd (fp_parse_double mem simd strtod_consumed p)).
Proof.
  intros Hs Hi (M1 & M2 & M3). unfold fp_init_cstr in *. cbn [fp_init start end_ current] in *.
  assert (Hf : moves_forward p (snd (fp_parse_double mem simd strtod_consumed p))).
  { apply fp_parse_double_forward; [lia|]. intros a Ha. rewrite M2 in *.
    pose proof (c_string_at_bound input a Hi Ha). specialize (Hs (c_string_at mem a)). lia. }
  split; [assumption|]. apply (moves_forward_ok p); [|assumption].
  unfold cursor_ok. lia.
Qed.

End CStrings.

Lemma span_length (f : ascii -> bool) (l : list ascii) :
  0 <= fst (span f l) /\
  fst (span f l) + Z.of_nat (length (snd (span f l))) = Z.of_nat (length l).
Proof.
  induction l as [|c l IH]; cbn [span]; [simpl; lia|].
  destruct (f c); [|cbn [fst snd]; lia].
  destruct (span f l) as [n r]. cbn [fst snd length] in *. lia.
Qed.

Lemma optional_sign_length (l : list ascii) :
  0 <= fst (optional_sign l) /\
  fst (optional_sign l) + Z.of_nat (length (snd (optional_sign l))) = Z.of_nat (length l).
Proof.
  destruct l as [|c l]; cbn [optional_sign]; [simpl; lia|].
  destruct (_ || _); cbn [fst snd length]; lia.
Qed.

(** The model of [strtod] consumes a prefix of the string it is given. *)
Lemma strtod_decimal_bounds (s : list ascii) :
  0 <= strtod_decimal s <= Z.of_nat (length s).
Proof.
  unfold strtod_decimal.
  pose proof (span_length isspace s) as H1.
  destruct (span isspace s) as [ws s1]. cbn [fst snd] in H1.
  pose proof (optional_sign_length s1) as H2.
  destruct (optional_sign s1) as [sg s2]. cbn [fst snd] in H2.
  pose proof (span_length isdigit s2) as H3.
  destruct (span isdigit s2) as [i s3]. cbn [fst snd] in H3.
  set (fr := match s3 with
             | [] => (0, [])
             | c :: t =>
                 if Ascii.eqb c "." then
                   let '(n, r) := span isdigit t in
                   if (i =? 0) && (n =? 0) then (0, s3) else (1 + n, r)
                 else (0, s3)
             end).
  assert (H4 : 0 <= fst fr /\ fst fr + Z.of_nat (length (snd fr)) = Z.of_nat (length s3)).
  { subst fr. destruct s3 as [|c t]; [simpl; lia|].
    destruct (Ascii.eqb c "."); [|cbn [fst snd]; lia].
    pose proof (span_length isdigit t) as H. destruct (span isdigit t) as [n r].
    cbn [fst snd length] in *.
    destruct ((i =? 0) && (n =? 0)); cbn [fst snd length]; lia. }
  destruct fr as [f s4]. cbn [fst snd] in H4.
  set (ex := match s4 with
             | [] => 0
             | c :: t =>
                 if Ascii.eqb c "e" || Ascii.eqb c "E" then
                   let '(esg, t0) := optional_sign t in
                   let '(n, _) := span isdigit t0 in
                   if n =? 0 then 0 else 1 + esg + n
                 else 0
             end).
  assert (H5 : 0 <= ex <= Z.of_nat (length s4)).
  { subst ex. destruct s4 as [|c t]; [simpl; lia|]. cbn [length].
    destruct (_ || _); [|lia].
    pose proof (optional_sign_length t) as Ha. destruct (optional_sign t) as [esg t0].
    pose proof (span_length isdigit t0) as Hb. destruct (span isdigit t0) as [n r].
    cbn [fst snd] in *. destruct (n =? 0); lia. }
  destruct (i + f =? 0); lia.
Qed.

Lemma fp_parse_double_on_cstr_witness :
  let mem := (list_ascii_of_string "3.14" ++ [NUL] ++ list_ascii_of_string "15")%list in
  fp_init_cstr mem 0 = fp_init 0 4 /\
  cursor_ok (snd (fp_parse_double mem true strtod_decimal (fp_init_cstr mem 0))) /\
  current (snd (fp_parse_double mem true strtod_decimal (fp_init_cstr mem 0))) = 4.
Proof.
  split; [reflexivity|]. split; [|reflexivity].
  apply (fp_parse_double_on_cstr
           (list_ascii_of_string "3.14" ++ [NUL] ++ list_ascii_of_string "15")%list
           true strtod_decimal 0 (fp_init 0 4) strtod_decimal_bounds ltac:(lia)).
  vm_compute. repeat split; discriminate.
Defined.

(* ====================================================================== *)
(** ** JSON structural skipping *)

Section JsonSkipping.

Variable mem : list ascii.
Variable simd : bool.
Variable strtod_consumed : list ascii -> Z.
Variable true_literal false_literal null_literal : Z.

(** The end of the buffer, and a [strtod] that stays below it. *)
Variable e : Z.
Hypothesis strtod_within :
  forall a, a <= e -> 0 <= strtod_consumed (c_string_at mem a) <= e - a.

#[local] Abbreviation value := (fp_skip_json_value mem simd strtod_consumed
                           true_literal false_literal null_literal).
#[local] Abbreviation members := (json_members mem simd strtod_consumed
                             true_literal false_literal null_literal).
#[local] Abbreviation elements := (json_elements mem simd strtod_consumed
                              true_literal false_literal null_literal).

#[local] Abbreviation within := (within e).

Lemma fp_skip_json_value_step (f : nat) (p : fp_parser_t) :
  value (S f) p =
    let p := skip_ws mem simd p in
    let c := fp_peek mem p in
    if Ascii.eqb c QUOTE then
      let '(str, p) := fp_parse_json_string mem simd p in Some (is_some str, p)
    else if Ascii.eqb c "{" then skip_object_with mem simd (members f) p
    else if Ascii.eqb c "[" then skip_array_with mem simd (elements f) p
    else if Ascii.eqb c "t" then Some (fp_match_str mem p (mk_view true_literal 4))
    else if Ascii.eqb c "f" then Some (fp_match_str mem p (mk_view false_literal 5))
    else if Ascii.eqb c "n" then Some (fp_match_str mem p (mk_view null_literal 4))
    else if Ascii.eqb c "-" || isdigit c
         then Some (fp_parse_json_number mem simd strtod_consumed p)
    else Some (false, p).
Proof. reflexivity. Qed.

Lemma json_members_step (f : nat) (p : fp_parser_t) :
  members (S f) p =
    let p := skip_ws mem simd p in
    let '(key, p) := fp_parse_json_string mem simd p in
    if negb (is_some key) then Some (false, p)
    else
      let p := skip_ws mem simd p in
      let '(colon, p) := fp_match_char mem p ":" in
      if negb colon then Some (false, p)
      else
        let p := skip_ws mem simd p in
        match value f p with
        | None => None
        | Some (false, p) => Some (false, p)
        | Some (true, p) =>
            let p := skip_ws mem simd p in
            let '(comma, p) := fp_match_char mem p COMMA in
            if comma then members f p
            else Some (fp_match_char mem p "}")
        end.
Proof. reflexivity. Qed.

Lemma json_elements_step (f : nat) (p : fp_parser_t) :
  elements (S f) p =
    let p := skip_ws mem simd p in
    match value f p with
    | None => None
    | Some (false, p) => Some (false, p)
    | Some (true, p) =>
        let p := skip_ws mem simd p in
        let '(comma, p) := fp_match_char mem p COMMA in
        if comma then elements f p
        else Some (fp_match_char mem p "]")
    end.
Proof. reflexivity. Qed.

Lemma quiet_refl (p : fp_parser_t) : within p -> quiet p p.
Proof. intros [H1 H2]. split; [apply moves_forward_refl; lia | apply same_error_refl]. Qed.

Lemma quiet_trans (p q r : fp_parser_t) : quiet p q -> quiet q r -> quiet p r.
Proof.
  intros [A1 A2] [B1 B2]. split;
    [eapply moves_forward_trans | eapply same_error_trans]; eassumption.
Qed.

Lemma quiet_within (p q : fp_parser_t) : within p -> quiet p q -> within q.
Proof. intros [H1 H2] [(M1 & M2 & M3) _]. unfold within. lia. Qed.

Lemma quiet_outcome (p q : fp_parser_t) (r : option (bool * fp_parser_t)) :
  quiet p q -> json_outcome q r -> json_outcome p r.
Proof.
  intros [A1 A2] H. destruct r as [[ok p']|]; [|exact I]. destruct H as [B1 B2].
  split; [eapply moves_forward_trans; eassumption|].
  destruct B2 as [B2 | B2]; [left; eapply same_error_trans; eassumption | now right].
Qed.

Lemma outcome_quiet (p q : fp_parser_t) (ok : bool) :
  quiet p q -> json_outcome p (Some (ok, q)).
Proof. intros [A1 A2]. split; [assumption | now left]. Qed.

Lemma quiet_skip_ws (p : fp_parser_t) : within p -> quiet p (skip_ws mem simd p).
Proof.
  intros [H1 H2]. split; [apply fp_skip_ws_forward; lia | apply fp_skip_ws_same_error].
Qed.

Lemma quiet_match_char (p : fp_parser_t) (c : ascii) :
  within p -> quiet p (snd (fp_match_char mem p c)).
Proof.
  intros [H1 H2]. split; [apply fp_match_char_forward; lia | apply fp_match_char_same_error].
Qed.

Lemma quiet_match_str (p : fp_parser_t) (v : fp_view_t) :
  within p -> 0 <= len v -> quiet p (snd (fp_match_str mem p v)).
Proof.
  intros [H1 H2] Hv. split; [apply fp_match_str_forward; lia | apply fp_match_str_same_error].
Qed.

Lemma outcome_string (p : fp_parser_t) :
  within p ->
  json_outcome p (let '(str, p') := fp_parse_json_string mem simd p in Some (is_some str, p')).
Proof.
  intros [H1 H2]. unfold fp_parse_json_string.
  pose proof (fp_parse_quoted_string_forward mem simd p ltac:(lia)) as Hf.
  pose proof (fp_parse_quoted_string_error mem simd p) as He. cbv zeta in He.
  destruct (fp_parse_quoted_string mem simd p) as [[v|] p']; cbn [fst snd is_some] in *.
  - split; [assumption | now left].
  - split; [assumption|]. right. rewrite He. simpl. tauto.
Qed.

Lemma outcome_number (p : fp_parser_t) :
  within p -> json_outcome p (Some (fp_parse_json_number mem simd strtod_consumed p)).
Proof.
  intros [H1 H2]. unfold fp_parse_json_number.
  pose proof (fp_parse_double_forward mem simd strtod_consumed p ltac:(lia)
                ltac:(rewrite H1; exact strtod_within)) as Hf.
  pose proof (fp_parse_double_error mem simd strtod_consumed p) as He. cbv zeta in He.
  destruct (fp_parse_double mem simd strtod_consumed p) as [[|] p']; cbn [fst snd] in *.
  - split; [assumption | now left].
  - split; [assumption|]. right. rewrite He. simpl. tauto.
Qed.

(** The bodies of the object and array functions pass on what their loops
    guarantee. *)
Lemma skip_object_with_outcome (loop : fp_parser_t -> option (bool * fp_parser_t))
      (p : fp_parser_t) :
  within p -> (forall q, within q -> json_outcome q (loop q)) ->
  json_outcome p (skip_object_with mem simd loop p).
Proof.
  intros Hp Hloop. unfold skip_object_with.
  pose proof (quiet_match_char p "{" Hp) as H1.
  destruct (fp_match_char mem p "{") as [[|] p1]; cbn [negb snd] in *;
    [|now apply outcome_quiet].
  pose proof (quiet_within _ _ Hp H1) as W1.
  pose proof (quiet_skip_ws p1 W1) as H2.
  pose proof (quiet_within _ _ W1 H2) as W2.
  pose proof (quiet_match_char (skip_ws mem simd p1) "}" W2) as H3.
  destruct (fp_match_char mem (skip_ws mem simd p1) "}") as [[|] p3]; cbn [snd] in *.
  - apply outcome_quiet. eapply quiet_trans; [exact H1|]. eapply quiet_trans; eassumption.
  - eapply quiet_outcome; [eapply quiet_trans; [exact H1|]; eapply quiet_trans; eassumption|].
    apply Hloop. eapply quiet_within; eassumption.
Qed.

Lemma skip_array_with_outcome (loop : fp_parser_t -> option (bool * fp_parser_t))
      (p : fp_parser_t) :
  within p -> (forall q, within q -> json_outcome q (loop q)) ->
  json_outcome p (skip_array_with mem simd loop p).
Proof.
  intros Hp Hloop. unfold skip_array_with.
  pose proof (quiet_match_char p "[" Hp) as H1.
  destruct (fp_match_char mem p "[") as [[|] p1]; cbn [negb snd] in *;
    [|now apply outcome_quiet].
  pose proof (quiet_within _ _ Hp H1) as W1.
  pose proof (quiet_skip_ws p1 W1) as H2.
  pose proof (quiet_within _ _ W1 H2) as W2.
  pose proof (quiet_match_char (skip_ws mem simd p1) "]" W2) as H3.
  destruct (fp_match_char mem (skip_ws mem simd p1) "]") as [[|] p3]; cbn [snd] in *.
  - apply outcome_quiet. eapply quiet_trans; [exact H1|]. eapply quiet_trans; eassumption.
  - eapply quiet_outcome; [eapply quiet_trans; [exact H1|]; eapply quiet_trans; eassumption|].
    apply Hloop. eapply quiet_within; eassumption.
Qed.

(** After a value: skip whitespace, then either a comma and the loop again,
    or the closing bracket. *)
Lemma after_value_outcome (loop : fp_parser_t -> option (bool * fp_parser_t))
      (close : ascii) (p : fp_parser_t) :
  within p -> (forall q, within q -> json_outcome q (loop q)) ->
  json_outcome p
    (let p := skip_ws mem simd p in
     let '(comma, p) := fp_match_char mem p COMMA in
     if comma then loop p else Some (fp_match_char mem p close)).
Proof.
  intros Hp Hloop. cbv zeta.
  pose proof (quiet_skip_ws p Hp) as H1.
  pose proof (quiet_within _ _ Hp H1) as W1.
  pose proof (quiet_match_char (skip_ws mem simd p) COMMA W1) as H2.
  destruct (fp_match_char mem (skip_ws mem simd p) COMMA) as [[|] p2]; cbn [snd] in *.
  - eapply quiet_outcome; [eapply quiet_trans; eassumption|].
    apply Hloop. eapply quiet_within; eassumption.
  - pose proof (quiet_within _ _ W1 H2) as W2.
    pose proof (quiet_match_char p2 close W2) as H3.
    destruct (fp_match_char mem p2 close) as [ok p3]. cbn [snd] in H3.
    apply outcome_quiet. eapply quiet_trans; [exact H1|]. eapply quiet_trans; eassumption.
Qed.

Lemma json_outcome_all (fuel : nat) :
  (forall p, within p -> json_outcome p (value fuel p)) /\
  (forall p, within p -> json_outcome p (members fuel p)) /\
  (forall p, within p -> json_outcome p (elements fuel p)).
Proof.
  induction fuel as [|f (IHv & IHm & IHe)]; [repeat split; intros; exact I|].
  split; [|split]; intros p Hp.
  - (* a value *)
    rewrite fp_skip_json_value_step. cbv zeta.
    pose proof (quiet_skip_ws p Hp) as H1.
    pose proof (quiet_within _ _ Hp H1) as W1.
    set (p1 := skip_ws mem simd p) in *. clearbody p1.
    eapply quiet_outcome; [exact H1|].
    destruct (Ascii.eqb (fp_peek mem p1) QUOTE); [now apply outcome_string|].
    destruct (Ascii.eqb (fp_peek mem p1) "{"); [now apply skip_object_with_outcome|].
    destruct (Ascii.eqb (fp_peek mem p1) "["); [now apply skip_array_with_outcome|].
    destruct (Ascii.eqb (fp_peek mem p1) "t").
    { pose proof (quiet_match_str p1 (mk_view true_literal 4) W1 ltac:(simpl; lia)) as H.
      destruct (fp_match_str mem p1 _) as [ok p2]. now apply outcome_quiet. }
    destruct (Ascii.eqb (fp_peek mem p1) "f").
    { pose proof (quiet_match_str p1 (mk_view false_literal 5) W1 ltac:(simpl; lia)) as H.
      destruct (fp_match_str mem p1 _) as [ok p2]. now apply outcome_quiet. }
    destruct (Ascii.eqb (fp_peek mem p1) "n").
    { pose proof (quiet_match_str p1 (mk_view null_literal 4) W1 ltac:(simpl; lia)) as H.
      destruct (fp_match_str mem p1 _) as [ok p2]. now apply outcome_quiet. }
    destruct (Ascii.eqb (fp_peek mem p1) "-" || isdigit (fp_peek mem p1));
      [now apply outcome_number|].
    apply outcome_quiet. now apply quiet_refl.
  - (* the members of an object *)
    rewrite json_members_step. cbv zeta.
    pose proof (quiet_skip_ws p Hp) as H1.
    pose proof (quiet_within _ _ Hp H1) as W1.
    set (p1 := skip_ws mem simd p) in *. clearbody p1.
    eapply quiet_outcome; [exact H1|].
    pose proof (outcome_string p1 W1) as Hs.
    destruct (fp_parse_json_string mem simd p1) as [[k|] p2]; cbn [is_some negb] in *;
      [|exact Hs].
    destruct Hs as [Hf [He | [He _]]]; [|discriminate].
    assert (Q2 : quiet p1 p2) by (split; assumption).
    pose proof (quiet_within _ _ W1 Q2) as W2.
    eapply quiet_outcome; [exact Q2|].
    pose proof (quiet_skip_ws p2 W2) as H3.
    pose proof (quiet_within _ _ W2 H3) as W3.
    eapply quiet_outcome; [exact H3|].
    pose proof (quiet_match_char (skip_ws mem simd p2) ":" W3) as H4.
    destruct (fp_match_char mem (skip_ws mem simd p2) ":") as [[|] p4]; cbn [negb snd] in *;
      [|now apply outcome_quiet].
    pose proof (quiet_within _ _ W3 H4) as W4.
    eapply quiet_outcome; [exact H4|].
    pose proof (quiet_skip_ws p4 W4) as H5.
    pose proof (quiet_within _ _ W4 H5) as W5.
    eapply quiet_outcome; [exact H5|].
    pose proof (IHv (skip_ws mem simd p4) W5) as Hv.
    destruct (value f (skip_ws mem simd p4)) as [[[|] p6]|]; [|exact Hv|exact I].
    destruct Hv as [Hf6 [He6 | [He6 _]]]; [|discriminate].
    assert (Q6 : quiet (skip_ws mem simd p4) p6) by (split; assumption).
    eapply quiet_outcome; [exact Q6|].
    apply (after_value_outcome (members f) "}"); [eapply quiet_within; eassumption | exact IHm].
  - (* the elements of an array *)
    rewrite json_elements_step. cbv zeta.
    pose proof (quiet_skip_ws p Hp) as H1.
    pose proof (quiet_within _ _ Hp H1) as W1.
    eapply quiet_outcome; [exact H1|].
    pose proof (IHv (skip_ws mem simd p) W1) as Hv.
    destruct (value f (skip_ws mem simd p)) as [[[|] p2]|]; [|exact Hv|exact I].
    destruct Hv as [Hf2 [He2 | [He2 _]]]; [|discriminate].
    assert (Q2 : quiet (skip_ws mem simd p) p2) by (split; assumption).
    eapply quiet_outcome; [exact Q2|].
    apply (after_value_outcome (elements f) "]"); [eapply quiet_within; eassumption | exact IHe].
Qed.

(** *** Termination and fuel *)

Lemma skip_object_with_mono (l1 l2 : fp_parser_t -> option (bool * fp_parser_t))
      (p : fp_parser_t) (r : bool * fp_parser_t) :
  (forall q, l1 q = Some r -> l2 q = Some r) ->
  skip_object_with mem simd l1 p = Some r -> skip_object_with mem simd l2 p = Some r.
Proof.
  intros H. unfold skip_object_with.
  destruct (fp_match_char mem p "{") as [[|] p1]; cbn [negb]; [|exact (fun x => x)].
  destruct (fp_match_char mem (skip_ws mem simd p1) "}") as [[|] p3];
    [exact (fun x => x) | apply H].
Qed.

Lemma skip_array_with_mono (l1 l2 : fp_parser_t -> option (bool * fp_parser_t))
      (p : fp_parser_t) (r : bool * fp_parser_t) :
  (forall q, l1 q = Some r -> l2 q = Some r) ->
  skip_array_with mem simd l1 p = Some r -> skip_array_with mem simd l2 p = Some r.
Proof.
  intros H. unfold skip_array_with.
  destruct (fp_match_char mem p "[") as [[|] p1]; cbn [negb]; [|exact (fun x => x)].
  destruct (fp_match_char mem (skip_ws mem simd p1) "]") as [[|] p3];
    [exact (fun x => x) | apply H].
Qed.

Lemma json_fuel_step (f : nat) :
  (forall p r, value f p = Some r -> value (S f) p = Some r) /\
  (forall p r, members f p = Some r -> members (S f) p = Some r) /\
  (forall p r, elements f p = Some r -> elements (S f) p = Some r).
Proof.
  induction f as [|f (IHv & IHm & IHe)]; [repeat split; intros; discriminate|].
  split; [|split]; intros p r.
  - rewrite (fp_skip_json_value_step (S f)), (fp_skip_json_value_step f). cbv zeta.
    destruct (Ascii.eqb _ QUOTE); [exact (fun x => x)|].
    destruct (Ascii.eqb _ "{"); [apply skip_object_with_mono; intros q; apply IHm|].
    destruct (Ascii.eqb _ "["); [apply skip_array_with_mono; intros q; apply IHe|].
    exact (fun x => x).
  - rewrite (json_members_step (S f)), (json_members_step f). cbv zeta.
    destruct (fp_parse_json_string mem simd (skip_ws mem simd p)) as [key p2].
    destruct (negb (is_some key)); [exact (fun x => x)|].
    destruct (fp_match_char mem (skip_ws mem simd p2) ":") as [[|] p4]; cbn [negb];
      [|exact (fun x => x)].
    destruct (value f (skip_ws mem simd p4)) as [[[|] p6]|] eqn:E; [| |discriminate].
    + rewrite (IHv _ _ E).
      destruct (fp_match_char mem (skip_ws mem simd p6) COMMA) as [[|] p8];
        [apply IHm | exact (fun x => x)].
    + rewrite (IHv _ _ E). exact (fun x => x).
  - rewrite (json_elements_step (S f)), (json_elements_step f). cbv zeta.
    destruct (value f (skip_ws mem simd p)) as [[[|] p2]|] eqn:E; [| |discriminate].
    + rewrite (IHv _ _ E).
      destruct (fp_match_char mem (skip_ws mem simd p2) COMMA) as [[|] p4];
        [apply IHe | exact (fun x => x)].
    + rewrite (IHv _ _ E). exact (fun x => x).
Qed.

Lemma fp_skip_json_value_more_fuel (f k : nat) (p : fp_parser_t) (r : bool * fp_parser_t) :
  value f p = Some r -> value (f + k) p = Some r.
Proof.
  intros H. induction k as [|k IH]; [now rewrite Nat.add_0_r|].
  rewrite Nat.add_succ_r. now apply json_fuel_step.
Qed.

Lemma fp_match_char_step (p : fp_parser_t) (c : ascii) :
  c <> NUL -> within p ->
  fst (fp_match_char mem p c) = true ->
  current (snd (fp_match_char mem p c)) = current p + 1.
Proof.
  intros Hc Hp H. destruct (fp_match_char mem p c) as [ok p'] eqn:E. cbn [fst snd] in *.
  subst ok. apply fp_match_char_true in E; [|assumption]. destruct E as (_ & _ & ->).
  apply (step_over_fields p c).
Qed.

Lemma quiet_current (p q : fp_parser_t) : quiet p q -> current p <= current q.
Proof. intros [(_ & _ & H) _]. lia. Qed.

Lemma skip_object_with_total (loop : fp_parser_t -> option (bool * fp_parser_t))
      (p : fp_parser_t) :
  within p -> (forall q, within q -> current p < current q -> loop q <> None) ->
  skip_object_with mem simd loop p <> None.
Proof.
  intros Hp Hloop. unfold skip_object_with.
  pose proof (quiet_match_char p "{" Hp) as H1.
  pose proof (fp_match_char_step p "{" ltac:(discriminate) Hp) as S1.
  destruct (fp_match_char mem p "{") as [[|] p1]; cbn [negb fst snd] in *; [|discriminate].
  specialize (S1 eq_refl).
  pose proof (quiet_within _ _ Hp H1) as W1.
  pose proof (quiet_skip_ws p1 W1) as H2.
  pose proof (quiet_within _ _ W1 H2) as W2.
  pose proof (quiet_match_char (skip_ws mem simd p1) "}" W2) as H3.
  destruct (fp_match_char mem (skip_ws mem simd p1) "}") as [[|] p3]; cbn [snd] in *;
    [discriminate|].
  apply Hloop; [eapply quiet_within; eassumption|].
  pose proof (quiet_current _ _ H2). pose proof (quiet_current _ _ H3). lia.
Qed.

Lemma skip_array_with_total (loop : fp_parser_t -> option (bool * fp_parser_t))
      (p : fp_parser_t) :
  within p -> (forall q, within q -> current p < current q -> loop q <> None) ->
  skip_array_with mem simd loop p <> None.
Proof.
  intros Hp Hloop. unfold skip_array_with.
  pose proof (quiet_match_char p "[" Hp) as H1.
  pose proof (fp_match_char_step p "[" ltac:(discriminate) Hp) as S1.
  destruct (fp_match_char mem p "[") as [[|] p1]; cbn [negb fst snd] in *; [|discriminate].
  specialize (S1 eq_refl).
  pose proof (quiet_within _ _ Hp H1) as W1.
  pose proof (quiet_skip_ws p1 W1) as H2.
  pose proof (quiet_within _ _ W1 H2) as W2.
  pose proof (quiet_match_char (skip_ws mem simd p1) "]" W2) as H3.
  destruct (fp_match_char mem (skip_ws mem simd p1) "]") as [[|] p3]; cbn [snd] in *;
    [discriminate|].
  apply Hloop; [eapply quiet_within; eassumption|].
  pose proof (quiet_current _ _ H2). pose proof (quiet_current _ _ H3). lia.
Qed.

Lemma after_value_total (loop : fp_parser_t -> option (bool * fp_parser_t))
      (close : ascii) (p : fp_parser_t) :
  within p -> (forall q, within q -> current p < current q -> loop q <> None) ->
  (let p := skip_ws mem simd p in
   let '(comma, p) := fp_match_char mem p COMMA in
   if comma then loop p else Some (fp_match_char mem p close)) <> None.
Proof.
  intros Hp Hloop. cbv zeta.
  pose proof (quiet_skip_ws p Hp) as H1.
  pose proof (quiet_within _ _ Hp H1) as W1.
  pose proof (quiet_match_char (skip_ws mem simd p) COMMA W1) as H2.
  pose proof (fp_match_char_step (skip_ws mem simd p) COMMA ltac:(discriminate) W1) as S2.
  destruct (fp_match_char mem (skip_ws mem simd p) COMMA) as [[|] p2]; cbn [fst snd] in *;
    [|discriminate].
  apply Hloop; [eapply quiet_within; eassumption|].
  specialize (S2 eq_refl). pose proof (quiet_current _ _ H1). lia.
Qed.

Lemma json_total_all (fuel : nat) :
  (forall p, within p -> 2 * (e - current p) + 1 <= Z.of_nat fuel -> value fuel p <> None) /\
  (forall p, within p -> 2 * (e - current p) + 1 <= Z.of_nat fuel -> members fuel p <> None) /\
  (forall p, within p -> 2 * (e - current p) + 2 <= Z.of_nat fuel -> elements fuel p <> None).
Proof.
  induction fuel as [|f (IHv & IHm & IHe)].
  - repeat split; intros p [H1 H2] H; lia.
  - split; [|split]; intros p Hp Hf.
    + rewrite fp_skip_json_value_step. cbv zeta.
      pose proof (quiet_skip_ws p Hp) as H1.
      pose proof (quiet_within _ _ Hp H1) as W1.
      pose proof (quiet_current _ _ H1) as C1.
      set (p1 := skip_ws mem simd p) in *. clearbody p1.
      destruct (Ascii.eqb (fp_peek mem p1) QUOTE).
      { destruct (fp_parse_json_string mem simd p1). discriminate. }
      destruct (Ascii.eqb (fp_peek mem p1) "{").
      { apply skip_object_with_total; [assumption|]. intros q Wq Hq. apply IHm; [assumption | lia]. }
      destruct (Ascii.eqb (fp_peek mem p1) "[").
      { apply skip_array_with_total; [assumption|]. intros q Wq Hq. apply IHe; [assumption | lia]. }
      destruct (Ascii.eqb (fp_peek mem p1) "t"); [discriminate|].
      destruct (Ascii.eqb (fp_peek mem p1) "f"); [discriminate|].
      destruct (Ascii.eqb (fp_peek mem p1) "n"); [discriminate|].
      destruct (Ascii.eqb (fp_peek mem p1) "-" || isdigit (fp_peek mem p1)); discriminate.
    + rewrite json_members_step. cbv zeta.
      pose proof (quiet_skip_ws p Hp) as H1.
      pose proof (quiet_within _ _ Hp H1) as W1.
      pose proof (quiet_current _ _ H1) as C1.
      set (p1 := skip_ws mem simd p) in *. clearbody p1.
      pose proof (outcome_string p1 W1) as Hs.
      destruct (fp_parse_json_string mem simd p1) as [[k|] p2]; cbn [is_some negb] in *;
        [|discriminate].
      destruct Hs as [Hfw [He | [He _]]]; [|discriminate].
      assert (Q2 : quiet p1 p2) by (split; assumption).
      pose proof (quiet_within _ _ W1 Q2) as W2. pose proof (quiet_current _ _ Q2) as C2.
      pose proof (quiet_skip_ws p2 W2) as H3.
      pose proof (quiet_within _ _ W2 H3) as W3. pose proof (quiet_current _ _ H3) as C3.
      pose proof (quiet_match_char (skip_ws mem simd p2) ":" W3) as H4.
      pose proof (fp_match_char_step (skip_ws mem simd p2) ":" ltac:(discriminate) W3) as S4.
      destruct (fp_match_char mem (skip_ws mem simd p2) ":") as [[|] p4]; cbn [negb fst snd] in *;
        [|discriminate].
      specialize (S4 eq_refl).
      pose proof (quiet_within _ _ W3 H4) as W4.
      pose proof (quiet_skip_ws p4 W4) as H5.
      pose proof (quiet_within _ _ W4 H5) as W5. pose proof (quiet_current _ _ H5) as C5.
      pose proof (IHv (skip_ws mem simd p4) W5 ltac:(lia)) as Hv.
      pose proof (proj1 (json_outcome_all f) (skip_ws mem simd p4) W5) as Ho.
      destruct (value f (skip_ws mem simd p4)) as [[[|] p6]|]; [|discriminate|congruence].
      destruct Ho as [Hf6 [He6 | [He6 _]]]; [|discriminate].
      assert (Q6 : quiet (skip_ws mem simd p4) p6) by (split; assumption).
      pose proof (quiet_current _ _ Q6) as C6.
      apply (after_value_total (members f) "}"); [eapply quiet_within; eassumption|].
      intros q Wq Hq. apply IHm; [assumption | lia].
    + rewrite json_elements_step. cbv zeta.
      pose proof (quiet_skip_ws p Hp) as H1.
      pose proof (quiet_within _ _ Hp H1) as W1. pose proof (quiet_current _ _ H1) as C1.
      pose proof (IHv (skip_ws mem simd p) W1 ltac:(lia)) as Hv.
      pose proof (proj1 (json_outcome_all f) (skip_ws mem simd p) W1) as Ho.
      destruct (value f (skip_ws mem simd p)) as [[[|] p2]|]; [|discriminate|congruence].
      destruct Ho as [Hf2 [He2 | [He2 _]]]; [|discriminate].
      assert (Q2 : quiet (skip_ws mem simd p) p2) by (split; assumption).
      pose proof (quiet_current _ _ Q2) as C2.
      apply (after_value_total (elements f) "]"); [eapply quiet_within; eassumption|].
      intros q Wq Hq. apply IHe; [assumption | lia].
Qed.

(** [fp_skip_json_value] terminates on every input: its recursion is driven
    by the bytes it consumes, so fuel for twice the bytes left (and one)
    always gives a result, which more fuel does not change; the cursor has
    then moved forward within the bounds. *)
Theorem fp_skip_json_value_terminates (p : fp_parser_t) :
  within p ->
  let fuel := Z.to_nat (2 * (e - current p) + 1) in
  exists ok p',
    value fuel p = Some (ok, p') /\
    (forall k, value (fuel + k) p = Some (ok, p')) /\
    moves_forward p p'.
Proof.
  intros Hp. cbv zeta.
  pose proof (proj1 (json_total_all (Z.to_nat (2 * (e - current p) + 1))) p Hp) as Ht.
  pose proof (proj1 (json_outcome_all (Z.to_nat (2 * (e - current p) + 1))) p Hp) as Ho.
  destruct Hp as [H1 H2].
  destruct (value (Z.to_nat (2 * (e - current p) + 1)) p) as [[ok p']|] eqn:E.
  - exists ok, p'. split; [reflexivity|]. split; [|apply Ho].
    intros k. now apply fp_skip_json_value_more_fuel.
  - exfalso. apply Ht; [lia | reflexivity].
Qed.

End JsonSkipping.

(** The model of [strtod] stays below the end of a C string's scanner. *)
Lemma strtod_decimal_within (mem : list ascii) (input : Z) :
  0 <= input ->
  forall a, a <= input + strlen mem input ->
    0 <= strtod_decimal (c_string_at mem a) <= input + strlen mem input - a.
Proof.
  intros Hi a Ha. pose proof (c_string_at_bound mem input a Hi Ha).
  pose proof (strtod_decimal_bounds (c_string_at mem a)). lia.
Qed.

Lemma fp_skip_json_value_terminates_witness :
  let p := fp_init_cstr json_sample_array 13 in
  exists ok p',
    fp_skip_json_value json_sample_array true strtod_decimal 0 4 9 27 p = Some (ok, p') /\
    (forall k, fp_skip_json_value json_sample_array true strtod_decimal 0 4 9 (27 + k) p
               = Some (ok, p')) /\
    moves_forward p p'.
Proof.
  assert (Hs : strlen json_sample_array 13 = 13) by (vm_compute; reflexivity).
  pose proof (fp_skip_json_value_terminates json_sample_array true strtod_decimal 0 4 9
                (13 + strlen json_sample_array 13)
                (strtod_decimal_within json_sample_array 13 ltac:(lia))
                (fp_init_cstr json_sample_array 13)) as H.
  unfold fp_init_cstr in *. rewrite Hs in *. cbn [fp_init current end_] in H.
  specialize (H ltac:(unfold within; cbn [fp_init current end_]; lia)).
  cbv zeta in H. exact H.
Defined.

Example json_array_accepted :
  option_map (fun r => (fst r, current (snd r)))
    (fp_skip_json_value json_sample_array true strtod_decimal 0 4 9 27
       (fp_init_cstr json_sample_array 13))
  = Some (true, 26).
Proof. vm_compute. reflexivity. Qed.

(* ====================================================================== *)
(** ** JSON structural skipping and the error slot *)

Section JsonErrorSlot.

Variable mem : list ascii.
Variable simd : bool.
Variable strtod_consumed : list ascii -> Z.
Variable true_literal false_literal null_literal : Z.

#[local] Abbreviation value := (fp_skip_json_value mem simd strtod_consumed
                           true_literal false_literal null_literal).
#[local] Abbreviation members := (json_members mem simd strtod_consumed
                             true_literal false_literal null_literal).
#[local] Abbreviation elements := (json_elements mem simd strtod_consumed
                              true_literal false_literal null_literal).

Lemma error_outcome_after (p q : fp_parser_t) (r : option (bool * fp_parser_t)) :
  same_error p q -> json_error_outcome q r -> json_error_outcome p r.
Proof.
  intros A H. destruct r as [[ok p']|]; [|exact I].
  destruct H as [H | H]; [left; eapply same_error_trans; eassumption | now right].
Qed.

Lemma error_outcome_kept (p q : fp_parser_t) (ok : bool) :
  same_error p q -> json_error_outcome p (Some (ok, q)).
Proof. intros A. now left. Qed.

Lemma error_outcome_string (p : fp_parser_t) :
  json_error_outcome p
    (let '(str, p') := fp_parse_json_string mem simd p in Some (is_some str, p')).
Proof.
  unfold fp_parse_json_string.
  pose proof (fp_parse_quoted_string_error mem simd p) as He. cbv zeta in He.
  destruct (fp_parse_quoted_string mem simd p) as [[v|] p']; cbn [fst snd is_some] in *.
  - now left.
  - right. rewrite He. simpl. tauto.
Qed.

Lemma error_outcome_number (p : fp_parser_t) :
  json_error_outcome p (Some (fp_parse_json_number mem simd strtod_consumed p)).
Proof.
  unfold fp_parse_json_number.
  pose proof (fp_parse_double_error mem simd strtod_consumed p) as He. cbv zeta in He.
  destruct (fp_parse_double mem simd strtod_consumed p) as [[|] p']; cbn [fst snd] in *.
  - now left.
  - right. rewrite He. simpl. tauto.
Qed.

Lemma error_outcome_match_str (p : fp_parser_t) (v : fp_view_t) :
  json_error_outcome p (Some (fp_match_str mem p v)).
Proof.
  pose proof (fp_match_str_same_error mem p v) as H.
  destruct (fp_match_str mem p v) as [ok p']. now left.
Qed.

Lemma skip_object_with_error (loop : fp_parser_t -> option (bool * fp_parser_t))
      (p : fp_parser_t) :
  (forall q, json_error_outcome q (loop q)) ->
  json_error_outcome p (skip_object_with mem simd loop p).
Proof.
  intros Hloop. unfold skip_object_with.
  pose proof (fp_match_char_same_error mem p "{") as H1.
  destruct (fp_match_char mem p "{") as [[|] p1]; cbn [negb snd] in *;
    [|now apply error_outcome_kept].
  pose proof (fp_skip_ws_same_error mem simd p1) as H2. fold (skip_ws mem simd p1) in H2.
  pose proof (fp_match_char_same_error mem (skip_ws mem simd p1) "}") as H3.
  destruct (fp_match_char mem (skip_ws mem simd p1) "}") as [[|] p3]; cbn [snd] in *.
  - apply error_outcome_kept.
    eapply same_error_trans; [exact H1|]. eapply same_error_trans; eassumption.
  - eapply error_outcome_after; [|apply Hloop].
    eapply same_error_trans; [exact H1|]. eapply same_error_trans; eassumption.
Qed.

Lemma skip_array_with_error (loop : fp_parser_t -> option (bool * fp_parser_t))
      (p : fp_parser_t) :
  (forall q, json_error_outcome q (loop q)) ->
  json_error_outcome p (skip_array_with mem simd loop p).
Proof.
  intros Hloop. unfold skip_array_with.
  pose proof (fp_match_char_same_error mem p "[") as H1.
  destruct (fp_match_char mem p "[") as [[|] p1]; cbn [negb snd] in *;
    [|now apply error_outcome_kept].
  pose proof (fp_skip_ws_same_error mem simd p1) as H2. fold (skip_ws mem simd p1) in H2.
  pose proof (fp_match_char_same_error mem (skip_ws mem simd p1) "]") as H3.
  destruct (fp_match_char mem (skip_ws mem simd p1) "]") as [[|] p3]; cbn [snd] in *.
  - apply error_outcome_kept.
    eapply same_error_trans; [exact H1|]. eapply same_error_trans; eassumption.
  - eapply error_outcome_after; [|apply Hloop].
    eapply same_error_trans; [exact H1|]. eapply same_error_trans; eassumption.
Qed.

Lemma after_value_error (loop : fp_parser_t -> option (bool * fp_parser_t))
      (close : ascii) (p : fp_parser_t) :
  (forall q, json_error_outcome q (loop q)) ->
  json_error_outcome p
    (let p := skip_ws mem simd p in
     let '(comma, p) := fp_match_char mem p COMMA in
     if comma then loop p else Some (fp_match_char mem p close)).
Proof.
  intros Hloop. cbv zeta.
  pose proof (fp_skip_ws_same_error mem simd p) as H1. fold (skip_ws mem simd p) in H1.
  pose proof (fp_match_char_same_error mem (skip_ws mem simd p) COMMA) as H2.
  destruct (fp_match_char mem (skip_ws mem simd p) COMMA) as [[|] p2]; cbn [snd] in *.
  - eapply error_outcome_after; [|apply Hloop]. eapply same_error_trans; eassumption.
  - pose proof (fp_match_char_same_error mem p2 close) as H3.
    destruct (fp_match_char mem p2 close) as [ok p3]. cbn [snd] in H3.
    apply error_outcome_kept.
    eapply same_error_trans; [exact H1|]. eapply same_error_trans; eassumption.
Qed.

Lemma json_error_all (fuel : nat) :
  (forall p, json_error_outcome p (value fuel p)) /\
  (forall p, json_error_outcome p (members fuel p)) /\
  (forall p, json_error_outcome p (elements fuel p)).
Proof.
  induction fuel as [|f (IHv & IHm & IHe)]; [repeat split; intros; exact I|].
  split; [|split]; intros p.
  - rewrite fp_skip_json_value_step. cbv zeta.
    pose proof (fp_skip_ws_same_error mem simd p) as H1. fold (skip_ws mem simd p) in H1.
    set (p1 := skip_ws mem simd p) in *. clearbody p1.
    eapply error_outcome_after; [exact H1|].
    destruct (Ascii.eqb (fp_peek mem p1) QUOTE); [apply error_outcome_string|].
    destruct (Ascii.eqb (fp_peek mem p1) "{"); [now apply skip_object_with_error|].
    destruct (Ascii.eqb (fp_peek mem p1) "["); [now apply skip_array_with_error|].
    destruct (Ascii.eqb (fp_peek mem p1) "t"); [apply error_outcome_match_str|].
    destruct (Ascii.eqb (fp_peek mem p1) "f"); [apply error_outcome_match_str|].
    destruct (Ascii.eqb (fp_peek mem p1) "n"); [apply error_outcome_match_str|].
    destruct (Ascii.eqb (fp_peek mem p1) "-" || isdigit (fp_peek mem p1));
      [apply error_outcome_number|].
    apply error_outcome_kept, same_error_refl.
  - rewrite json_members_step. cbv zeta.
    pose proof (fp_skip_ws_same_error mem simd p) as H1. fold (skip_ws mem simd p) in H1.
    set (p1 := skip_ws mem simd p) in *. clearbody p1.
    eapply error_outcome_after; [exact H1|].
    pose proof (error_outcome_string p1) as Hs.
    destruct (fp_parse_json_string mem simd p1) as [[k|] p2]; cbn [is_some negb] in *;
      [|exact Hs].
    destruct Hs as [Q2 | [Q2 _]]; [|discriminate].
    eapply error_outcome_after; [exact Q2|].
    pose proof (fp_skip_ws_same_error mem simd p2) as H3. fold (skip_ws mem simd p2) in H3.
    eapply error_outcome_after; [exact H3|].
    pose proof (fp_match_char_same_error mem (skip_ws mem simd p2) ":") as H4.
    destruct (fp_match_char mem (skip_ws mem simd p2) ":") as [[|] p4]; cbn [negb snd] in *;
      [|now apply error_outcome_kept].
    eapply error_outcome_after; [exact H4|].
    pose proof (fp_skip_ws_same_error mem simd p4) as H5. fold (skip_ws mem simd p4) in H5.
    eapply error_outcome_after; [exact H5|].
    pose proof (IHv (skip_ws mem simd p4)) as Hv.
    destruct (value f (skip_ws mem simd p4)) as [[[|] p6]|]; [|exact Hv|exact I].
    destruct Hv as [Q6 | [Q6 _]]; [|discriminate].
    eapply error_outcome_after; [exact Q6|].
    apply (after_value_error (members f) "}"). exact IHm.
  - rewrite json_elements_step. cbv zeta.
    pose proof (fp_skip_ws_same_error mem simd p) as H1. fold (skip_ws mem simd p) in H1.
    eapply error_outcome_after; [exact H1|].
    pose proof (IHv (skip_ws mem simd p)) as Hv.
    destruct (value f (skip_ws mem simd p)) as [[[|] p2]|]; [|exact Hv|exact I].
    destruct Hv as [Q2 | [Q2 _]]; [|discriminate].
    eapply error_outcome_after; [exact Q2|].
    apply (after_value_error (elements f) "]"). exact IHe.
Qed.

(** What a structural skip does to the error slot, for every scanner, every
    [strtod] and whatever the fuel: a successful skip leaves it as it was;
    a failed one either leaves it as it was too (a structural failure
    records nothing) or has set UNTERMINATED_STRING or INVALID_NUMBER
    inside a string or a number.  The same holds when the object and array
    functions are called directly. *)
Theorem fp_skip_json_value_error (fuel : nat) (p p' : fp_parser_t) (ok : bool) :
  value fuel p = Some (ok, p') \/
  fp_skip_json_object mem simd strtod_consumed true_literal false_literal null_literal
    fuel p = Some (ok, p') \/
  fp_skip_json_array mem simd strtod_consumed true_literal false_literal null_literal
    fuel p = Some (ok, p') ->
  (ok = true -> same_error p p') /\
  (ok = false ->
     same_error p p' \/
     In (error_code p') [FP_ERROR_UNTERMINATED_STRING; FP_ERROR_INVALID_NUMBER]).
Proof.
  intros H.
  destruct (json_error_all fuel) as (Hv & Hm & He).
  assert (Ho : json_error_outcome p (Some (ok, p'))).
  { destruct H as [H | [H | H]]; rewrite <- H.
    - apply Hv.
    - now apply skip_object_with_error.
    - now apply skip_array_with_error. }
  destruct Ho as [Ho | [Hok Ho]].
  - split; intros; [assumption | now left].
  - split; intros; [congruence | now right].
Qed.

End JsonErrorSlot.

(** A member without a value: the skip fails and the error slot still
    reads [FP_OK]. *)
Lemma fp_skip_json_value_error_witness :
  let p := fp_init_cstr json_sample_no_value 13 in
  exists p',
    fp_skip_json_value json_sample_no_value true strtod_decimal 0 4 9 13 p = Some (false, p') /\
    error_code p' = FP_OK /\
    (same_error p p' \/
     In (error_code p') [FP_ERROR_UNTERMINATED_STRING; FP_ERROR_INVALID_NUMBER]).
Proof.
  assert (He : exists p',
             fp_skip_json_value json_sample_no_value true strtod_decimal 0 4 9 13
               (fp_init_cstr json_sample_no_value 13) = Some (false, p') /\
             error_code p' = FP_OK)
    by (vm_compute; eexists; split; reflexivity).
  destruct He as (p' & E & Hc). exists p'. split; [exact E|]. split; [exact Hc|].
  apply (proj2 (fp_skip_json_value_error json_sample_no_value true strtod_decimal 0 4 9
                  13 (fp_init_cstr json_sample_no_value 13) p' false (or_introl E))).
  reflexivity.
Defined.

(* ====================================================================== *)
(** ** Chains carry their failure *)

Section ChainErrors.

Variable mem : list ascii.
Variable simd : bool.

Lemma run_step_keeps_error_flag (chain : fp_chain_t) (s : chain_step) :
  (success chain = false -> fp_has_error (parser chain) = true) ->
  success (run_step mem simd chain s) = false ->
  fp_has_error (parser (run_step mem simd chain s)) = true.
Proof.
  intros Hinv. destruct s as [|c|]; cbn [run_step].
  - unfold fp_then_skip_ws. destruct (success chain) eqn:Es; cbn [success parser];
      [discriminate | intros _; now apply Hinv].
  - unfold fp_then_expect_char. destruct (success chain) eqn:Es;
      [|intros _; now apply Hinv].
    destruct (fp_match_char mem (parser chain) c) as [[|] p]; cbn [negb success parser];
      [discriminate | reflexivity].
  - unfold fp_then_parse_string. destruct (success chain) eqn:Es;
      [|intros _; now apply Hinv].
    pose proof (fp_parse_quoted_string_error mem simd (parser chain)) as He. cbv zeta in He.
    destruct (fp_parse_quoted_string mem simd (parser chain)) as [[v|] p];
      cbn [fst snd success parser] in *; [discriminate|].
    intros _. unfold fp_has_error. now rewrite He.
Qed.

(** A chain that has failed carries the reason: whatever steps are chained
    after [fp_chain], when [success] is false at the end the scanner has an
    error code set. *)
Theorem failed_chain_has_error (p : fp_parser_t) (steps : list chain_step) :
  let chain := run_chain mem simd (fp_chain p) steps in
  success chain = false -> fp_has_error (parser chain) = true.
Proof.
  cbv zeta. unfold run_chain.
  assert (G : forall c, (success c = false -> fp_has_error (parser c) = true) ->
              success (fold_left (run_step mem simd) steps c) = false ->
              fp_has_error (parser (fold_left (run_step mem simd) steps c)) = true).
  { induction steps as [|s steps IH]; intros c Hc; cbn [fold_left]; [exact Hc|].
    apply IH. now apply run_step_keeps_error_flag. }
  apply G. cbn [fp_chain success]. discriminate.
Qed.

End ChainErrors.

Lemma failed_chain_has_error_witness :
  let mem := list_ascii_of_string "  [x" in
  let chain := run_chain mem true (fp_chain (fp_init 0 4))
                 [ThenSkipWs; ThenExpectChar "{"; ThenSkipWs; ThenParseString] in
  success chain = false /\ fp_has_error (parser chain) = true /\
  error_code (parser chain) = FP_ERROR_CUSTOM /\ current (parser chain) = 2.
Proof.
  split; [reflexivity|]. split; [|split; reflexivity].
  apply (failed_chain_has_error (list_ascii_of_string "  [x") true (fp_init 0 4)
           [ThenSkipWs; ThenExpectChar "{"; ThenSkipWs; ThenParseString]).
  reflexivity.
Defined.

(** The scanner of the usage example: every operation but
    [fp_parse_double] keeps the cursor in bounds. *)
Lemma bounded_operations_keep_cursor_witness :
  let mem := list_ascii_of_string "42 3.14 hello" in
  Forall (fun p' => moves_forward (fp_init 0 13) p' /\ cursor_ok p')
    [ snd (fp_advance mem (fp_init 0 13)); snd (fp_match_char mem (fp_init 0 13) "4");
      snd (fp_match_str mem (fp_init 0 13) (mk_view 0 2));
      fp_skip_ws mem true (fp_init 0 13); snd (fp_parse_int64 mem true (fp_init 0 13));
      snd (fp_parse_quoted_string mem true (fp_init 0 13)) ].
Proof.
  apply (bounded_operations_keep_cursor (list_ascii_of_string "42 3.14 hello") true
           (fp_init 0 13) "4" (mk_view 0 2)).
  - unfold cursor_ok. simpl. lia.
  - simpl. lia.
Defined.

(* ====================================================================== *)
(** ** The timing header *)

Module TimingFacts.
Import Timing.

(** A stopwatch over a 64-bit counter: the timer is started when the clock
    shows [T1] and read or stopped when it shows [T2]; the readings are
    taken modulo 2^64.  While it runs and after it is stopped the elapsed
    time is [T2 - T1] exactly, also when the counter wrapped in between;
    once stopped, the value no longer depends on the clock, and stopping
    again changes nothing. *)
Theorem stopwatch_measures_difference (t : timer_t) (T1 T2 now later : Z) :
  T1 <= T2 -> T2 - T1 < 2 ^ 64 ->
  let running := timer_start t (uint64 T1) in
  let stopped := timer_stop running (uint64 T2) in
  timer_elapsed_ns running (uint64 T2) = T2 - T1 /\
  timer_elapsed_ns stopped now = T2 - T1 /\
  timer_stop stopped later = stopped.
Proof.
  intros H1 H2. cbv zeta.
  unfold timer_elapsed_ns, timer_stop, timer_start, uint64. cbn.
  assert (E : (T2 mod 2 ^ 64 - T1 mod 2 ^ 64) mod 2 ^ 64 = T2 - T1).
  { rewrite <- Zminus_mod. apply Z.mod_small. lia. }
  repeat split; exact E.
Qed.


(** On Windows the timestamp is the counter scaled in 64 bits: it is the
    exact number of nanoseconds, and grows with the counter, only while
    [counter * 10^9] stays below 2^64. *)
Theorem win32_timestamp_exact_while_small (c1 c2 frequency : Z) :
  0 < frequency < 2 ^ 63 -> 0 <= c1 <= c2 -> c2 * 1000000000 < 2 ^ 64 ->
  get_timestamp_ns_win32 c2 frequency = c2 * 1000000000 / frequency /\
  get_timestamp_ns_win32 c1 frequency <= get_timestamp_ns_win32 c2 frequency.
Proof.
  intros Hf Hc Hb.
  assert (E : forall c, 0 <= c <= c2 ->
                get_timestamp_ns_win32 c frequency = c * 1000000000 / frequency).
  { intros c Hcc. unfold get_timestamp_ns_win32, uint64.
    rewrite (Z.mod_small c), (Z.mod_small (c * 1000000000)), (Z.mod_small frequency) by lia.
    apply Z.mod_small. split; [apply Z.div_pos; lia|].
    apply Z.div_lt_upper_bound; [lia|]. nia. }
  rewrite !E by lia. split; [reflexivity|].
  apply Z.div_le_mono; lia.
Qed.

(** With a 10 MHz counter the product wraps some 1844 seconds after the
    counter started: the next tick gives a smaller timestamp. *)
Example win32_timestamp_wraps :
  get_timestamp_ns_win32 18446744074 10000000 < get_timestamp_ns_win32 18446744073 10000000.
Proof. vm_compute. reflexivity. Qed.

End TimingFacts.

Lemma stopwatch_measures_difference_witness :
  let t := Timing.timer_stop
             (Timing.timer_start Timing.timer_init (Timing.uint64 (2 ^ 64 - 5)))
             (Timing.uint64 (2 ^ 64 + 7)) in
  Timing.timer_elapsed_ns t 0 = 12 /\ Timing.start_time t = 2 ^ 64 - 5 /\ Timing.end_time t = 7.
Proof.
  split; [|split; reflexivity].
  apply (TimingFacts.stopwatch_measures_difference Timing.timer_init (2 ^ 64 - 5) (2 ^ 64 + 7) 0 0);
    lia.
Defined.


Lemma win32_timestamp_exact_while_small_witness :
  Timing.get_timestamp_ns_win32 30000000 10000000 = 3000000000.
Proof.
  rewrite (proj1 (TimingFacts.win32_timestamp_exact_while_small 0 30000000 10000000
                    ltac:(lia) ltac:(lia) ltac:(lia))).
  reflexivity.
Defined.
